(** * Huffman file compressor: a shallow embedding of [huffman.py]

    The Python module compresses a byte buffer with a Huffman code and
    stores the tree, the original size and the packed bits in one
    container.  The functions of the module are embedded below under
    their own names, in the order of the source ([improve_tree], whose
    body is empty, and the interactive script at the end are left out);
    Python exceptions are results of the embedding, so that "this call
    raises" is a statement like any other. *)

From Stdlib Require Import String Ascii DecimalString.
From Stdlib Require Import ZArith List Bool Lia Arith Permutation.
Import ListNotations.
Open Scope Z_scope.

(** ** Outcomes of a call *)

(** The exceptions the module can raise. *)
Inductive exn : Set :=
| IndexError | KeyError | ValueError | TypeError | AttributeError
| OverflowError | RecursionError | ZeroDivisionError | UnboundLocalError.

(** A call returns a value or raises.  [NoFuel] belongs to the embedding
    only: a [while] loop is unrolled a number of times computed from its
    measure, and [NoFuel] marks an unrolling that was too short. *)
Inductive result (A : Type) : Type :=
| Ok (a : A)
| Raise (e : exn)
| NoFuel.
Arguments Ok {A} a.
Arguments Raise {A} e.
Arguments NoFuel {A}.

Definition bind {A B} (c : result A) (k : A -> result B) : result B :=
  match c with
  | Ok a => k a
  | Raise e => Raise e
  | NoFuel => NoFuel
  end.

Notation "x <- c ;; k" := (bind c (fun x => k))
  (at level 61, c at next level, right associativity).
Notation "' p <- c ;; k" := (bind c (fun x => let p := x in k))
  (at level 61, p pattern, c at next level, right associativity).

(** [mapM f l]: a list comprehension whose element expression can raise,
    elements evaluated left to right. *)
Fixpoint mapM {A B} (f : A -> result B) (l : list A) : result (list B) :=
  match l with
  | [] => Ok []
  | a :: l' => b <- f a ;; bs <- mapM f l' ;; Ok (b :: bs)
  end.

(** ** Python values used by the module *)

(** A [str] is a list of characters; [bits "0110"] writes a literal. *)
Abbreviation str := (list ascii) (only parsing).
Definition bits (s : string) : str := list_ascii_of_string s.

(** A [bytes] object is a list of integers, each in [range(256)]. *)
Definition is_byte (b : Z) : Prop := 0 <= b < 256.
Definition is_byteb (b : Z) : bool := (0 <=? b) && (b <? 256).
Definition is_bytes (l : list Z) : Prop := Forall is_byte l.

(** [len(x)] as a Python integer. *)
Definition len {A} (l : list A) : Z := Z.of_nat (length l).

(** [l[i]] on a list: a negative index counts from the end, an index
    outside the list raises [IndexError]. *)
Definition py_index {A} (l : list A) (i : Z) : result A :=
  let j := if i <? 0 then len l + i else i in
  if j <? 0 then Raise IndexError
  else match nth_error l (Z.to_nat j) with
       | Some a => Ok a
       | None => Raise IndexError
       end.

(** [s[a:b]] for non-negative [a] and [b]; both ends are clamped to the
    length of [s], and the slice is empty when [b <= a]. *)
Definition slice {A} (s : list A) (a b : nat) : list A :=
  firstn (b - a) (skipn a s).

(** [str(n)] for an integer: its decimal writing. *)
Definition str_of_int (n : Z) : str :=
  list_ascii_of_string (NilZero.string_of_int (Z.to_int n)).

(** [int(c)] for a one-character string: the ASCII digits convert, any
    other character raises [ValueError]. *)
Definition int_of_char (c : ascii) : result Z :=
  let n := Z.of_nat (nat_of_ascii c) in
  if (48 <=? n) && (n <=? 57) then Ok (n - 48) else Raise ValueError.

(** [a << k]; a negative shift count raises [ValueError]. *)
Definition shl (a k : Z) : result Z :=
  if k <? 0 then Raise ValueError else Ok (Z.shiftl a k).

(** [a >> k]; a negative shift count raises [ValueError]. *)
Definition shr (a k : Z) : result Z :=
  if k <? 0 then Raise ValueError else Ok (Z.shiftr a k).

(** [bytes(l)] for a list of integers or [None]s: [None] raises
    [TypeError], an integer outside [range(256)] raises [ValueError]. *)
Fixpoint to_bytes (l : list (option Z)) : result (list Z) :=
  match l with
  | [] => Ok []
  | None :: _ => Raise TypeError
  | Some b :: l' =>
      if is_byteb b then bs <- to_bytes l' ;; Ok (b :: bs)
      else Raise ValueError
  end.

(** *** Dictionaries

    A [dict] keeps its keys in insertion order, and [huffman_tree] reads
    that order through [items()], so a dictionary is an association list
    without repeated keys, oldest key first. *)
Abbreviation dict K V := (list (K * V)) (only parsing).

Section Dict.
Context {K V : Type} (eqb : K -> K -> bool).

(** [d.get(k)] / [k in d] *)
Fixpoint dict_find (d : dict K V) (k : K) : option V :=
  match d with
  | [] => None
  | (k', v) :: d' => if eqb k' k then Some v else dict_find d' k
  end.

Definition dict_mem (d : dict K V) (k : K) : bool :=
  match dict_find d k with Some _ => true | None => false end.

(** [d[k]], raising [KeyError] when the key is missing *)
Definition dict_get (d : dict K V) (k : K) : result V :=
  match dict_find d k with Some v => Ok v | None => Raise KeyError end.

(** [d[k] = v]: an existing key keeps its place, a new one goes last *)
Fixpoint dict_set (d : dict K V) (k : K) (v : V) : dict K V :=
  match d with
  | [] => [(k, v)]
  | (k', v') :: d' =>
      if eqb k' k then (k', v) :: d' else (k', v') :: dict_set d' k v
  end.

(** [d.update(e)] *)
Definition dict_update (d e : dict K V) : dict K V :=
  fold_left (fun acc kv => dict_set acc (fst kv) (snd kv)) e d.
End Dict.

(** ** Helper functions for manipulating bytes *)

(** [(byte & (1 << bit_num)) >> bit_num] *)
Definition get_bit (byte bit_num : Z) : result Z :=
  m <- shl 1 bit_num ;;
  shr (Z.land byte m) bit_num.

(** [range(7, -1, -1)] *)
Definition range_7_down : list Z := [7; 6; 5; 4; 3; 2; 1; 0].

(** ["".join([str(get_bit(byte, bit_num)) for bit_num in range(7, -1, -1)])] *)
Definition byte_to_bits (byte : Z) : result str :=
  parts <- mapM (fun bit_num => b <- get_bit byte bit_num ;; Ok (str_of_int b))
                range_7_down ;;
  Ok (concat parts).

(** The list comprehension of [bits_to_byte], from position [pos] on. *)
Fixpoint bits_to_byte_from (pos : Z) (bs : str) : result (list Z) :=
  match bs with
  | [] => Ok []
  | c :: bs' =>
      d <- int_of_char c ;;
      x <- shl d (7 - pos) ;;
      xs <- bits_to_byte_from (pos + 1) bs' ;;
      Ok (x :: xs)
  end.

(** [sum([int(bits[pos]) << (7 - pos) for pos in range(len(bits))])] *)
Definition bits_to_byte (bs : str) : result Z :=
  xs <- bits_to_byte_from 0 bs ;;
  Ok (fold_left Z.add xs 0).

(** ** Nodes *)

(** Modelled from the spec: the classes [HuffmanNode] and [ReadNode] of
    the module [nodes], which [huffman.py] imports and which is not among
    the sources.  A [HuffmanNode] is built as
    [HuffmanNode(symbol=None, left=None, right=None)], carries a
    [number] that is [None] until the tree is numbered, is a leaf when it
    has no child, and compares equal to a node with the same symbol and
    equal children (the number takes no part in [==]).  A [ReadNode] is
    the four-field record of the wire format. *)
#[local] Set Warnings "-register-all".
Inductive HuffmanNode : Type :=
| HNode (symbol : option Z) (left right : option HuffmanNode)
        (number : option Z).

Definition symbol (t : HuffmanNode) : option Z :=
  match t with HNode s _ _ _ => s end.
Definition left (t : HuffmanNode) : option HuffmanNode :=
  match t with HNode _ l _ _ => l end.
Definition right (t : HuffmanNode) : option HuffmanNode :=
  match t with HNode _ _ r _ => r end.
Definition number (t : HuffmanNode) : option Z :=
  match t with HNode _ _ _ n => n end.

(** [HuffmanNode(symbol, left, right)] *)
Definition mk_node (s : option Z) (l r : option HuffmanNode) : HuffmanNode :=
  HNode s l r None.

(** [HuffmanNode(symbol)] *)
Definition mk_leaf (s : option Z) : HuffmanNode := mk_node s None None.

(** [t.is_leaf()] *)
Definition is_leaf (t : HuffmanNode) : bool :=
  match left t, right t with
  | None, None => true
  | _, _ => false
  end.

Definition opt_eqb {A} (eqb : A -> A -> bool) (a b : option A) : bool :=
  match a, b with
  | Some x, Some y => eqb x y
  | None, None => true
  | _, _ => false
  end.

(** [a == b] on nodes *)
Fixpoint node_eqb (a b : HuffmanNode) : bool :=
  match a, b with
  | HNode s1 l1 r1 _, HNode s2 l2 r2 _ =>
      opt_eqb Z.eqb s1 s2
      && match l1, l2 with
         | Some x, Some y => node_eqb x y
         | None, None => true
         | _, _ => false
         end
      && match r1, r2 with
         | Some x, Some y => node_eqb x y
         | None, None => true
         | _, _ => false
         end
  end.

Record ReadNode : Type := mkReadNode
  { l_type : Z; l_data : Z; r_type : Z; r_data : Z }.

(** ** Functions for compression *)

(** [make_freq_dict]: the loop body is [freq[byte] = freq.get(byte, 0) + 1]. *)
Definition count_byte (freq : dict Z Z) (byte : Z) : dict Z Z :=
  dict_set Z.eqb freq byte
    (match dict_find Z.eqb freq byte with Some n => n | None => 0 end + 1).

Definition make_freq_dict (text : list Z) : dict Z Z :=
  fold_left count_byte text [].

(** An entry of the working list of [huffman_tree] pairs a weight with a
    symbol (the entries taken from the dictionary) or with a node (the
    merged entries). *)
Inductive key : Type :=
| KSym (s : Z)
| KNode (t : HuffmanNode).

(** [==] on the first components of two entries. *)
Definition key_eqb (a b : key) : bool :=
  match a, b with
  | KSym x, KSym y => Z.eqb x y
  | KNode x, KNode y => node_eqb x y
  | _, _ => false
  end.

Definition entry_eqb (a b : key * Z) : bool :=
  key_eqb (fst a) (fst b) && Z.eqb (snd a) (snd b).

(** [lst.remove(x)]: drops the first element equal to [x], raises
    [ValueError] when there is none. *)
Fixpoint list_remove {A} (eqb : A -> A -> bool) (l : list A) (x : A)
  : result (list A) :=
  match l with
  | [] => Raise ValueError
  | a :: l' =>
      if eqb a x then Ok l'
      else r <- list_remove eqb l' x ;; Ok (a :: r)
  end.

(** The [for] loop of [take_min]. *)
Definition min_step (best : key * Z) (kv : key * Z) : key * Z :=
  if snd kv <? snd best then kv else best.

(** [take_min(lst)]: the list is changed in place, so the call returns
    the entry taken together with the list it leaves. *)
Definition take_min (lst : list (key * Z)) : result ((key * Z) * list (key * Z)) :=
  first <- py_index lst 0 ;;
  let smallest := fold_left min_step lst first in
  rest <- list_remove entry_eqb lst smallest ;;
  Ok (smallest, rest).

(** [x[0] if isinstance(x[0], HuffmanNode) else HuffmanNode(x[0])] *)
Definition as_node (k : key) : HuffmanNode :=
  match k with
  | KNode t => t
  | KSym s => mk_leaf (Some s)
  end.

(** The [while len(freq) != 1] loop of [huffman_tree].  [root] is [None]
    as long as the variable [root] is unbound.  Every round that does not
    raise shortens [freq] by one entry, so the loop is unrolled
    [length freq + 1] times. *)
Fixpoint huffman_loop (fuel : nat) (freq : list (key * Z))
         (root : option HuffmanNode) : result HuffmanNode :=
  if len freq =? 1 then
    match root with
    | Some t => Ok t
    | None => Raise UnboundLocalError
    end
  else
    match fuel with
    | O => NoFuel
    | S fuel' =>
        '(x, freq1) <- take_min freq ;;
        '(y, freq2) <- take_min freq1 ;;
        let total := snd x + snd y in
        let root' := mk_node None (Some (as_node (fst x))) (Some (as_node (fst y))) in
        huffman_loop fuel' (freq2 ++ [(KNode root', total)]) (Some root')
    end.

Definition huffman_tree (freq_dict : dict Z Z) : result HuffmanNode :=
  let freq := map (fun kv => (KSym (fst kv), snd kv)) freq_dict in
  if len freq =? 1 then
    first <- py_index freq 0 ;;
    Ok (mk_node None (Some (as_node (fst first))) None)
  else huffman_loop (S (length freq)) freq None.

(** Keys of a code table are the [symbol] fields of leaves. *)
Definition sym_eqb : option Z -> option Z -> bool := opt_eqb Z.eqb.

Abbreviation codes_t := (dict (option Z) str) (only parsing).

(** [for key in d.keys(): d[key] = b + d[key]] *)
Definition prefix_codes (b : str) (d : codes_t) : codes_t :=
  map (fun kv => (fst kv, b ++ snd kv)) d.

(** One of the two [if]/[else] blocks of [get_codes], for the child
    [child] and the bit [b]; [rec] is the recursive call.  A missing
    child has no [is_leaf], so the test raises [AttributeError]. *)
Definition codes_of_child (rec : HuffmanNode -> result codes_t)
           (codes : codes_t) (child : option HuffmanNode) (b : str)
  : result codes_t :=
  match child with
  | None => Raise AttributeError
  | Some c =>
      if is_leaf c then Ok (dict_set sym_eqb codes (symbol c) b)
      else sub <- rec c ;;
           Ok (dict_update sym_eqb codes (prefix_codes b sub))
  end.

(** [get_codes(tree)] for a tree that is a node; [codes] starts as [{}]. *)
Fixpoint get_codes_node (tree : HuffmanNode) : result codes_t :=
  match tree with
  | HNode _ l r _ =>
      codes <- codes_of_child get_codes_node [] l (bits "0") ;;
      codes_of_child get_codes_node codes r (bits "1")
  end.

(** [get_codes(tree)]; the argument may be [None]. *)
Definition get_codes (tree : option HuffmanNode) : result codes_t :=
  match tree with
  | None => Ok []
  | Some t => get_codes_node t
  end.

(** [numbering(tree, n)]: the numbers are written into the tree, so the
    call returns the numbered tree together with the next free number. *)
Fixpoint numbering (tree : HuffmanNode) (n : Z) : result (HuffmanNode * Z) :=
  match tree with
  | HNode s l r num =>
      if negb (is_leaf tree) then
        '(l', n1) <- match l with
                     | None => Raise AttributeError
                     | Some c => '(c', m) <- numbering c n ;; Ok (Some c', m)
                     end ;;
        '(r', n2) <- match r with
                     | None => Raise AttributeError
                     | Some c => '(c', m) <- numbering c n1 ;; Ok (Some c', m)
                     end ;;
        Ok (HNode s l' r' (Some n2), n2 + 1)
      else Ok (tree, n)
  end.

Definition number_nodes (tree : HuffmanNode) : result HuffmanNode :=
  '(t, _) <- numbering tree 0 ;; Ok t.

(** The loop of [avg_length] over the keys of [codes]. *)
Fixpoint avg_loop (freq_dict : dict Z Z) (codes : codes_t) (keys : list (option Z))
         (total avg : Z) : result (Z * Z) :=
  match keys with
  | [] => Ok (total, avg)
  | k :: keys' =>
      f <- match k with
           | Some b => dict_get Z.eqb freq_dict b
           | None => Raise KeyError
           end ;;
      c <- dict_get sym_eqb codes k ;;
      avg_loop freq_dict codes keys' (total + f) (avg + len c * f)
  end.

(** [avg_length(tree, freq_dict)] returns the float [avg / total]; the
    embedding returns the two integers of that quotient, [(avg, total)]. *)
Definition avg_length (tree : HuffmanNode) (freq_dict : dict Z Z) : result (Z * Z) :=
  codes <- get_codes (Some tree) ;;
  '(total, avg) <- avg_loop freq_dict codes (map fst codes) 0 0 ;;
  if total =? 0 then Raise ZeroDivisionError else Ok (avg, total).

(** The [for] loop of [generate_compressed]: [y] is the list of bytes
    emitted so far, [byte] the string of pending bits. *)
Fixpoint pack_loop (codes : codes_t) (text : list Z) (y : list Z) (byte : str)
  : result (list Z * str) :=
  match text with
  | [] => Ok (y, byte)
  | i :: text' =>
      c <- dict_get sym_eqb codes (Some i) ;;
      if len byte + len c >? 8 then
        let byte1 := byte ++ c in
        let extra := skipn 8 byte1 in
        b <- bits_to_byte (firstn 8 byte1) ;;
        pack_loop codes text' (y ++ [b]) extra
      else pack_loop codes text' y (byte ++ c)
  end.

Definition generate_compressed (text : list Z) (codes : codes_t) : result (list Z) :=
  '(y, byte) <- pack_loop codes text [] [] ;;
  b <- bits_to_byte byte ;;
  to_bytes (map Some (y ++ [b])).

(** The two fields a child contributes to its parent's record. *)
Definition child_fields (child : option HuffmanNode) : result (list (option Z)) :=
  match child with
  | None => Raise AttributeError
  | Some c =>
      if is_leaf c then Ok [Some 0; symbol c] else Ok [Some 1; number c]
  end.

(** [tree_to_bytes(tree)] *)
Fixpoint tree_to_bytes (tree : HuffmanNode) : result (list Z) :=
  match tree with
  | HNode _ l r _ =>
      lst1 <- match l with
              | None => Raise AttributeError
              | Some c => if negb (is_leaf c) then tree_to_bytes c else Ok []
              end ;;
      lst2 <- match r with
              | None => Raise AttributeError
              | Some c => if negb (is_leaf c) then tree_to_bytes c else Ok []
              end ;;
      fl <- child_fields l ;;
      fr <- child_fields r ;;
      to_bytes (map Some lst1 ++ map Some lst2 ++ fl ++ fr)
  end.

(** [bytes([tree.number + 1])] *)
Definition num_nodes_to_bytes (tree : HuffmanNode) : result (list Z) :=
  match number tree with
  | None => Raise TypeError
  | Some n => to_bytes [Some (n + 1)]
  end.

(** [n.to_bytes(k, "little")] for [0 <= n < 256 ** k] *)
Fixpoint le_bytes (k : nat) (n : Z) : list Z :=
  match k with
  | O => []
  | S k' => (n mod 256) :: le_bytes k' (n / 256)
  end.

(** [size.to_bytes(4, "little")] *)
Definition size_to_bytes (size : Z) : result (list Z) :=
  if (size <? 0) || (2 ^ 32 <=? size) then Raise OverflowError
  else Ok (le_bytes 4 size).

(** [compress], from the bytes read from [in_file] to the bytes written
    to [out_file]. *)
Definition compress (text : list Z) : result (list Z) :=
  let freq := make_freq_dict text in
  tree <- huffman_tree freq ;;
  codes <- get_codes (Some tree) ;;
  tree <- number_nodes tree ;;
  _ <- avg_length tree freq ;;
  a <- num_nodes_to_bytes tree ;;
  b <- tree_to_bytes tree ;;
  c <- size_to_bytes (len text) ;;
  d <- generate_compressed text codes ;;
  Ok (a ++ b ++ c ++ d).

(** ** Functions for decompression *)

(** [generate_tree_general(node_lst, root_index)].  A test [if x.l_type:]
    holds for every non-zero integer.  [depth] bounds the nesting of the
    recursive calls. *)
Fixpoint generate_tree_general (depth : nat) (node_lst : list ReadNode)
         (root_index : Z) : result HuffmanNode :=
  match depth with
  | O => NoFuel
  | S depth' =>
      x <- py_index node_lst root_index ;;
      l <- (if negb (l_type x =? 0)
            then generate_tree_general depth' node_lst (l_data x)
            else Ok (mk_leaf (Some (l_data x)))) ;;
      r <- (if negb (r_type x =? 0)
            then generate_tree_general depth' node_lst (r_data x)
            else Ok (mk_leaf (Some (r_data x)))) ;;
      Ok (mk_node None (Some l) (Some r))
  end.

(** [q.pop(0)] *)
Definition pop_front {A} (q : list A) : result (A * list A) :=
  match q with
  | [] => Raise IndexError
  | a :: q' => Ok (a, q')
  end.

(** The [for] loop of [generate_tree_postorder] with its queue [q]. *)
Fixpoint postorder_loop (node_lst : list ReadNode) (q : list HuffmanNode)
  : result (list HuffmanNode) :=
  match node_lst with
  | [] => Ok q
  | x :: rest =>
      '(l, q1) <- (if l_type x =? 1 then pop_front q
                   else Ok (mk_leaf (Some (l_data x)), q)) ;;
      '(r, q2) <- (if r_type x =? 1 then pop_front q1
                   else Ok (mk_leaf (Some (r_data x)), q1)) ;;
      postorder_loop rest (q2 ++ [mk_node None (Some l) (Some r)])
  end.

(** [generate_tree_postorder(node_lst, root_index)] *)
Definition generate_tree_postorder (node_lst : list ReadNode) (root_index : Z)
  : result HuffmanNode :=
  q <- postorder_loop node_lst [] ;;
  py_index q 0.

(** [a == b] on strings *)
Definition str_eqb (a b : str) : bool :=
  if list_eq_dec ascii_dec a b then true else false.

Abbreviation reverse_t := (dict str (option Z)) (only parsing).

(** [for key, value in freq.items(): reverse[value] = key] *)
Definition make_reverse (codes : codes_t) : reverse_t :=
  fold_left (fun rev kv => dict_set str_eqb rev (snd kv) (fst kv)) codes [].

(** The variables of [generate_uncompressed] that its loops change. *)
Record dstate : Type := mkDstate
  { d_code : str;
    d_decode : list (option Z);
    d_index : nat;
    d_start : nat;
    d_counter : nat;
    d_short : bool }.

(** The innermost loop:
    [while not short and code[start:counter] not in reverse]. *)
Fixpoint scan_loop (fuel : nat) (reverse : reverse_t) (code : str)
         (start counter : nat) (short : bool) : result (nat * bool) :=
  if negb short && negb (dict_mem str_eqb reverse (slice code start counter)) then
    match fuel with
    | O => NoFuel
    | S fuel' =>
        let counter := (counter + 1)%nat in
        let short := if (length code <? counter)%nat then true else short in
        scan_loop fuel' reverse code start counter short
    end
  else Ok (counter, short).

(** The middle loop: [while not short and len(decode) < size].  The
    innermost loop moves [counter] past the end of [code] in at most
    [length code + 1] rounds. *)
Fixpoint symbol_loop (fuel : nat) (reverse : reverse_t) (size : Z) (code : str)
         (decode : list (option Z)) (start counter : nat) (short : bool)
  : result (list (option Z) * nat * nat * bool) :=
  if negb short && (len decode <? size) then
    match fuel with
    | O => NoFuel
    | S fuel' =>
        '(counter, short) <- scan_loop (S (length code)) reverse code start counter short ;;
        if negb short then
          s <- dict_get str_eqb reverse (slice code start counter) ;;
          symbol_loop fuel' reverse size code (decode ++ [s]) counter counter short
        else symbol_loop fuel' reverse size code decode start counter short
    end
  else Ok (decode, start, counter, short).

(** The outer loop: [while len(decode) < size and index < len(text)].
    A round of the middle loop appends a symbol or sets [short], so the
    middle loop makes at most [size + 1] rounds. *)
Fixpoint byte_loop (fuel : nat) (reverse : reverse_t) (text : list Z) (size : Z)
         (st : dstate) : result dstate :=
  if (len (d_decode st) <? size) && (Z.of_nat (d_index st) <? len text) then
    match fuel with
    | O => NoFuel
    | S fuel' =>
        b <- py_index text (Z.of_nat (d_index st)) ;;
        bs <- byte_to_bits b ;;
        let code := d_code st ++ bs in
        '(decode, start, counter, short) <-
          symbol_loop (S (Z.to_nat size)) reverse size code (d_decode st)
                      (d_start st) (d_counter st) false ;;
        byte_loop fuel' reverse text size
                  (mkDstate code decode (d_index st + 1) start counter short)
    end
  else Ok st.

(** [generate_uncompressed(tree, text, size)]; the outer loop reads one
    byte of [text] per round. *)
Definition generate_uncompressed (tree : HuffmanNode) (text : list Z) (size : Z)
  : result (list Z) :=
  freq <- get_codes (Some tree) ;;
  let reverse := make_reverse freq in
  st <- byte_loop (length text) reverse text size (mkDstate [] [] 0 0 1 false) ;;
  to_bytes (d_decode st).

(** The body of the loop of [bytes_to_nodes] for the offsets in [offs]. *)
Fixpoint nodes_at (buf : list Z) (offs : list Z) : result (list ReadNode) :=
  match offs with
  | [] => Ok []
  | i :: offs' =>
      lt <- py_index buf i ;;
      ld <- py_index buf (i + 1) ;;
      rt <- py_index buf (i + 2) ;;
      rd <- py_index buf (i + 3) ;;
      rest <- nodes_at buf offs' ;;
      Ok (mkReadNode lt ld rt rd :: rest)
  end.

(** [range(0, n, 4)] *)
Definition range_by_4 (n : nat) : list Z :=
  map (fun k => 4 * Z.of_nat k) (seq 0 ((n + 3) / 4)).

Definition bytes_to_nodes (buf : list Z) : result (list ReadNode) :=
  nodes_at buf (range_by_4 (length buf)).

(** [int.from_bytes(buf, "little")] *)
Fixpoint bytes_to_size (buf : list Z) : Z :=
  match buf with
  | [] => 0
  | b :: buf' => b + 256 * bytes_to_size buf'
  end.

(** [f.read(n)] on the unread part of a file: the bytes read and the
    bytes left. *)
Definition read {A} (n : Z) (f : list A) : list A * list A :=
  (firstn (Z.to_nat n) f, skipn (Z.to_nat n) f).

(** [generate_tree_general] as [uncompress] calls it.  A chain of more
    references than the table has records comes back to a record, and
    the recursion of the source then never returns: Python stops it with
    [RecursionError]. *)
Definition generate_tree_general_call (node_lst : list ReadNode) (root_index : Z)
  : result HuffmanNode :=
  match generate_tree_general (S (length node_lst)) node_lst root_index with
  | NoFuel => Raise RecursionError
  | r => r
  end.

(** [uncompress], from the bytes of [in_file] to the bytes written to
    [out_file]. *)
Definition uncompress (f : list Z) : result (list Z) :=
  let '(b1, f) := read 1 f in
  num_nodes <- py_index b1 0 ;;
  let '(buf, f) := read (num_nodes * 4) f in
  node_lst <- bytes_to_nodes buf ;;
  tree <- generate_tree_general_call node_lst (num_nodes - 1) ;;
  let '(b4, f) := read 4 f in
  let size := bytes_to_size b4 in
  generate_uncompressed tree f size.

(** ** Definitions used to state the properties *)

Definition is_bit_char (c : ascii) : Prop := c = "0"%char \/ c = "1"%char.

Definition is_bit_charb (c : ascii) : bool :=
  if ascii_dec c "0"%char then true
  else if ascii_dec c "1"%char then true else false.

(** The 256 byte values, for properties checked value by value. *)
Definition all_bytes : list Z := map Z.of_nat (seq 0 256).

Definition byte_bits_check (b : Z) : bool :=
  match byte_to_bits b with
  | Ok s =>
      (length s =? 8)%nat && forallb is_bit_charb s
      && match bits_to_byte s with
         | Ok v => v =? b
         | _ => false
         end
  | _ => false
  end.

(** The tree [huffman_tree] builds for a table with the one symbol [s]. *)
Definition one_symbol_tree (s : Z) : HuffmanNode :=
  mk_node None (Some (mk_leaf (Some s))) None.


(** A bit string: a string of the characters ['0'] and ['1']. *)
Definition is_bits (s : str) : Prop := Forall is_bit_char s.
Definition is_bitsb (s : str) : bool := forallb is_bit_charb s.

(** The code table of the doctest of [generate_compressed]. *)
Definition doctest_codes : codes_t :=
  [(Some 0, bits "0"); (Some 1, bits "10"); (Some 2, bits "11")].

(** The bits a text is packed from: the codes of its bytes, one after
    the other. *)
Definition code_of (codes : codes_t) (i : Z) : str :=
  match dict_find sym_eqb codes (Some i) with
  | Some c => c
  | None => []
  end.

Definition code_stream (codes : codes_t) (text : list Z) : str :=
  concat (map (code_of codes) text).

(** Every byte of [text] has a code in [codes], a bit string of at most
    [n] bits. *)
Definition covered (n : nat) (codes : codes_t) (text : list Z) : bool :=
  forallb (fun i => match dict_find sym_eqb codes (Some i) with
                    | Some c => is_bitsb c && (length c <=? n)%nat
                    | None => false
                    end) text.

(** The value of a bit string read as a byte, first bit most
    significant, missing bits on the right taken as zero. *)
Definition bit_value (c : ascii) : Z :=
  if ascii_dec c "1"%char then 1 else 0.

Fixpoint byte_value_from (w : Z) (s : str) : Z :=
  match s with
  | [] => 0
  | c :: s' => bit_value c * w + byte_value_from (w / 2) s'
  end.

Definition byte_value (s : str) : Z := byte_value_from 128 s.

(** The packer in the words of the specification: the bits are cut into
    bytes of 8, and 1 to 7 bits left at the end make a last byte, padded
    with zero bits on the right. *)
Fixpoint pack_spec (s : str) : list Z :=
  match s with
  | [] => []
  | b0 :: b1 :: b2 :: b3 :: b4 :: b5 :: b6 :: b7 :: rest =>
      byte_value [b0; b1; b2; b3; b4; b5; b6; b7] :: pack_spec rest
  | _ => [byte_value s]
  end.

(** What [generate_compressed] returns when it returns: it always ends
    with a byte for the pending bits, also when there is none. *)
Definition packed (s : str) : list Z :=
  match s with
  | [] => [0]
  | _ => pack_spec s
  end.

(** An index that [l[i]] rejects. *)
Definition out_of_range {A} (l : list A) (i : Z) : Prop :=
  i < - len l \/ len l <= i.

(** The symbols of a code table are byte values. *)
Definition byte_symbols (codes : codes_t) : Prop :=
  forall s, In s (map fst codes) -> exists b, s = Some b /\ is_byte b.

(** A container for the tree with the leaves 65 and 66 that declares 9
    symbols and holds one packed byte, enough for 8 symbols. *)
Definition short_container : list Z := [1; 0; 65; 0; 66; 9; 0; 0; 0; 0].

(** A container of two records; record 0 refers to a record 200 and is
    not reached from the root, record 1. *)
Definition stray_container : list Z :=
  [2; 1; 200; 0; 1; 0; 65; 0; 66; 3; 0; 0; 0; 64].

(** The tree with the two leaves 65 and 66. *)
Definition tree_65_66 : HuffmanNode :=
  mk_node None (Some (mk_leaf (Some 65))) (Some (mk_leaf (Some 66))).

(** *** Full binary trees

    The trees the builder returns for two symbols or more have a symbol
    at each leaf and two children at each inner node.  [ftree] is that
    shape, and [embed_opt] the [HuffmanNode] it stands for: unnumbered
    for [None], numbered in postorder from [n] on for [Some n]. *)
Inductive ftree : Type :=
| FLeaf (s : Z)
| FNode (l r : ftree).

Fixpoint internal (t : ftree) : nat :=
  match t with
  | FLeaf _ => 0
  | FNode l r => internal l + internal r + 1
  end.

Fixpoint leaves (t : ftree) : list Z :=
  match t with
  | FLeaf s => [s]
  | FNode l r => leaves l ++ leaves r
  end.

Fixpoint height (t : ftree) : nat :=
  match t with
  | FLeaf _ => 0
  | FNode l r => S (Nat.max (height l) (height r))
  end.

Definition is_fnode (t : ftree) : bool :=
  match t with FLeaf _ => false | FNode _ _ => true end.

Definition shift (n : option Z) (k : nat) : option Z :=
  option_map (fun m => m + Z.of_nat k) n.

Fixpoint embed_opt (t : ftree) (n : option Z) : HuffmanNode :=
  match t with
  | FLeaf s => mk_leaf (Some s)
  | FNode l r =>
      HNode None (Some (embed_opt l n))
            (Some (embed_opt r (shift n (internal l))))
            (shift n (internal l + internal r))
  end.

Definition embed (t : ftree) : HuffmanNode := embed_opt t None.
Definition embed_num (t : ftree) (n : Z) : HuffmanNode := embed_opt t (Some n).

(** The code table of a full tree: the path to each leaf, left to
    right, ['0'] for left and ['1'] for right. *)
Fixpoint paths (t : ftree) : codes_t :=
  match t with
  | FLeaf s => [(Some s, [])]
  | FNode l r => prefix_codes (bits "0") (paths l) ++ prefix_codes (bits "1") (paths r)
  end.

(** The record table of a full tree numbered from [n] on. *)
Definition child_flag (t : ftree) : Z :=
  match t with FLeaf _ => 0 | FNode _ _ => 1 end.

Definition child_data (t : ftree) (n : Z) : Z :=
  match t with
  | FLeaf s => s
  | FNode _ _ => n + Z.of_nat (internal t) - 1
  end.

Fixpoint records (t : ftree) (n : Z) : list ReadNode :=
  match t with
  | FLeaf _ => []
  | FNode l r =>
      records l n ++ records r (n + Z.of_nat (internal l))
      ++ [mkReadNode (child_flag l) (child_data l n)
                     (child_flag r) (child_data r (n + Z.of_nat (internal l)))]
  end.

Definition flat (recs : list ReadNode) : list Z :=
  concat (map (fun x => [l_type x; l_data x; r_type x; r_data x]) recs).

(** *** The builder on full trees

    The working list of [huffman_tree] with a full tree for each entry:
    a leaf for an entry that is still a symbol. *)
Abbreviation forest := (list (ftree * Z)) (only parsing).

Definition key_of (t : ftree) : key :=
  match t with
  | FLeaf s => KSym s
  | FNode _ _ => KNode (embed t)
  end.

Definition entry_of (e : ftree * Z) : key * Z := (key_of (fst e), snd e).

Fixpoint ftree_eqb (a b : ftree) : bool :=
  match a, b with
  | FLeaf x, FLeaf y => x =? y
  | FNode l1 r1, FNode l2 r2 => ftree_eqb l1 l2 && ftree_eqb r1 r2
  | _, _ => false
  end.

Definition fentry_eqb (a b : ftree * Z) : bool :=
  ftree_eqb (fst a) (fst b) && (snd a =? snd b).

Definition fmin_step (best e : ftree * Z) : ftree * Z :=
  if snd e <? snd best then e else best.

Fixpoint remove_first (x : ftree * Z) (w : forest) : forest :=
  match w with
  | [] => []
  | e :: w' => if fentry_eqb e x then w' else e :: remove_first x w'
  end.

Definition pick_min (w : forest) : option ((ftree * Z) * forest) :=
  match w with
  | [] => None
  | first :: _ =>
      let smallest := fold_left fmin_step w first in
      Some (smallest, remove_first smallest w)
  end.

Fixpoint build (fuel : nat) (w : forest) : option ftree :=
  match w with
  | [(t, _)] => Some t
  | _ =>
      match fuel with
      | O => None
      | S fuel' =>
          match pick_min w with
          | None => None
          | Some (x, w1) =>
              match pick_min w1 with
              | None => None
              | Some (y, w2) =>
                  build fuel' (w2 ++ [(FNode (fst x) (fst y), snd x + snd y)])
              end
          end
      end
  end.

(** The forest [huffman_tree] starts from. *)
Definition leaf_forest (freq_dict : dict Z Z) : forest :=
  map (fun kv => (FLeaf (fst kv), snd kv)) freq_dict.

(** The text whose six bytes occur once each. *)
Definition six_bytes : list Z := [97; 98; 99; 100; 101; 102].

(** Comparisons decided by [<?] and the like, handed to [lia]. *)
Ltac blia :=
  repeat match goal with
         | H : (_ <? _) = true |- _ => apply Z.ltb_lt in H
         | H : (_ <? _) = false |- _ => apply Z.ltb_ge in H
         | H : (_ <=? _) = true |- _ => apply Z.leb_le in H
         | H : (_ <=? _) = false |- _ => apply Z.leb_gt in H
         | H : (_ >? _) = true |- _ => rewrite Z.gtb_ltb in H
         | H : (_ >? _) = false |- _ => rewrite Z.gtb_ltb in H
         | H : (_ =? _) = true |- _ => apply Z.eqb_eq in H
         | H : (_ =? _) = false |- _ => apply Z.eqb_neq in H
         end;
  lia.

(** The symbols of a forest, tree by tree. *)
Definition forest_leaves (w : forest) : list Z :=
  concat (map (fun e => leaves (fst e)) w).

(** The 8 bits [byte_to_bits] returns for a byte. *)
Definition byte_bits (b : Z) : str :=
  match byte_to_bits b with
  | Ok s => s
  | _ => []
  end.

(** The bits of a packed text, byte after byte. *)
Definition unpacked (text : list Z) : str := concat (map byte_bits text).

(** A table of code words in which no word is a prefix of another one,
    as the unpacker needs it. *)
Definition prefix_free (reverse : reverse_t) : Prop :=
  forall p q a b,
    dict_find str_eqb reverse p = Some a ->
    dict_find str_eqb reverse (p ++ q) = Some b ->
    q = [].

(** The symbols of a text with their code words. *)
Definition words_of (codes : codes_t) (text : list Z) : list (option Z * str) :=
  map (fun b => (Some b, code_of codes b)) text.

Definition words_bits (ws : list (option Z * str)) : str :=
  concat (map snd ws).

(** All the codes of the text's own table have at most 8 bits. *)
Definition short_codes (text : list Z) : bool :=
  match huffman_tree (make_freq_dict text) with
  | Ok t =>
      match get_codes (Some t) with
      | Ok codes => forallb (fun kv => (length (snd kv) <=? 8)%nat) codes
      | _ => false
      end
  | _ => false
  end.

(** The number of bits the loop of [generate_compressed] leaves pending
    after [text] when it starts with [p] pending bits: a code that
    brings the buffer above 8 bits has the first 8 bits flushed, once. *)
Fixpoint pending_bits (codes : codes_t) (text : list Z) (p : nat) : nat :=
  match text with
  | [] => p
  | i :: text' =>
      let q := (p + length (code_of codes i))%nat in
      pending_bits codes text' (if (8 <? q)%nat then (q - 8)%nat else q)
  end.

(** The bits pending at the end of the loop when [text] is packed with
    the codes of its own tree. *)
Definition final_pending (text : list Z) : nat :=
  match huffman_tree (make_freq_dict text) with
  | Ok t =>
      match get_codes (Some t) with
      | Ok codes => pending_bits codes text 0
      | _ => 0%nat
      end
  | _ => 0%nat
  end.

(** A text of 149 bytes over ten byte values: the byte 1, then 61 times
    the byte 9, 34 times 8, 21 times 7, 13 times 6, 8 times 5, 5 times
    4, 3 times 3, twice 2, and the byte 0.  Its codes have 1 to 9 bits,
    9 bits for the bytes 1 and 0. *)
Definition long_code_text : list Z :=
  [1] ++ repeat 9 61 ++ repeat 8 34 ++ repeat 7 21 ++ repeat 6 13
  ++ repeat 5 8 ++ repeat 4 5 ++ repeat 3 3 ++ repeat 2 2 ++ [0].

(** The weights 5, 9, 12, 13, 16, 45 of the specification's example, as
    the frequency table of the symbols 0 to 5. *)
Definition textbook_freq : list (Z * Z) :=
  [(0, 5); (1, 9); (2, 12); (3, 13); (4, 16); (5, 45)].

(** *** Weighted length of a code

    A code gives each symbol a bit string; its weighted length under a
    frequency table is the sum of [freq(s) * len(code(s))]. *)
Definition zsum (l : list Z) : Z := fold_right Z.add 0 l.

Definition weighted_length (freq_dict : dict Z Z) (code : Z -> str) : Z :=
  zsum (map (fun e => snd e * len (code (fst e))) freq_dict).

Definition is_prefix (p w : str) : Prop := exists q, w = p ++ q.

(** A binary prefix code on the symbols [keys]: bit strings, none of
    them a prefix of the code of another symbol. *)
Definition prefix_code (keys : list Z) (code : Z -> str) : Prop :=
  (forall k, In k keys -> is_bits (code k))
  /\ (forall a b, In a keys -> In b keys -> a <> b ->
                  ~ is_prefix (code a) (code b)).

(** The words of a list, taken two by two, are not prefixes of each
    other. *)
Fixpoint pairwise_pf (L : list str) : Prop :=
  match L with
  | [] => True
  | w :: r => (forall v, In v r -> ~ is_prefix w v /\ ~ is_prefix v w)
              /\ pairwise_pf r
  end.

(** The words of [L] that start with [c], without that first
    character. *)
Fixpoint tails (c : ascii) (L : list str) : list str :=
  match L with
  | [] => []
  | [] :: r => tails c r
  | (x :: w) :: r => if ascii_dec x c then w :: tails c r else tails c r
  end.

(** Kraft's sum of a list of code lengths, scaled by [2 ^ H]. *)
Fixpoint ksum (H : nat) (ds : list nat) : Z :=
  match ds with
  | [] => 0
  | d :: r => 2 ^ Z.of_nat (H - d) + ksum H r
  end.

Definition kraft (ds : list nat) : Prop :=
  exists H, Forall (fun d => (d <= H)%nat) ds /\ ksum H ds <= 2 ^ Z.of_nat H.

(** The cost of giving the weights of [P] the code lengths paired with
    them. *)
Fixpoint pcost (P : list (Z * nat)) : Z :=
  match P with
  | [] => 0
  | (w, d) :: r => w * Z.of_nat d + pcost r
  end.

(** The weights the builder adds up: at each round, the weights of the
    two entries it merges. *)
Fixpoint bcost (fuel : nat) (w : forest) : Z :=
  match w with
  | [_] => 0
  | _ =>
      match fuel with
      | O => 0
      | S fuel' =>
          match pick_min w with
          | None => 0
          | Some (x, w1) =>
              match pick_min w1 with
              | None => 0
              | Some (y, w2) =>
                  snd x + snd y
                  + bcost fuel' (w2 ++ [(FNode (fst x) (fst y), snd x + snd y)])
              end
          end
      end
  end.

(** The frequency of a symbol, 0 when the table does not have it. *)
Definition freq_of (freq_dict : dict Z Z) (s : Z) : Z :=
  match dict_find Z.eqb freq_dict s with
  | Some f => f
  | None => 0
  end.

Section TreeCost.
Variable wt : Z -> Z.

(** The weight of a tree is the sum of the weights of its symbols; its
    cost is the sum of weight times depth over its leaves. *)
Fixpoint tweight (t : ftree) : Z :=
  match t with
  | FLeaf s => wt s
  | FNode l r => tweight l + tweight r
  end.

Fixpoint tcost (t : ftree) : Z :=
  match t with
  | FLeaf _ => 0
  | FNode l r => tcost l + tcost r + tweight l + tweight r
  end.

Definition fcost (w : forest) : Z := zsum (map (fun e => tcost (fst e)) w).

(** The weight of the symbol of a table entry. *)
Definition key_weight (k : option Z) : Z :=
  match k with
  | Some s => wt s
  | None => 0
  end.

(** The weighted length of a code table, and the weight of its
    symbols. *)
Definition table_cost (d : codes_t) : Z :=
  zsum (map (fun e => key_weight (fst e) * len (snd e)) d).

Definition table_weight (d : codes_t) : Z :=
  zsum (map (fun e => key_weight (fst e)) d).
End TreeCost.
(** * Properties *)

(** ** Bytes and bit strings *)

Lemma is_bit_charb_spec c : is_bit_charb c = true <-> is_bit_char c.
Proof.
  unfold is_bit_charb, is_bit_char.
  destruct (ascii_dec c "0"); [tauto|].
  destruct (ascii_dec c "1"); [tauto|].
  split; [discriminate | tauto].
Qed.

Lemma is_byteb_spec b : is_byteb b = true <-> is_byte b.
Proof. unfold is_byteb, is_byte. lia. Qed.

Lemma all_bytes_complete b : is_byte b -> In b all_bytes.
Proof.
  intros [H0 H1]. unfold all_bytes.
  apply in_map_iff. exists (Z.to_nat b). split; [lia|].
  apply in_seq. lia.
Qed.

Lemma forall_bytes (P : Z -> bool) :
  forallb P all_bytes = true -> forall b, is_byte b -> P b = true.
Proof.
  intros H b Hb. rewrite forallb_forall in H. apply H, all_bytes_complete, Hb.
Qed.

(** C10: for every byte value [b] in 0..255, [byte_to_bits b] returns a
    string of exactly 8 characters, each ['0'] or ['1'], and
    [bits_to_byte] maps that string back to [b]. *)
Theorem byte_to_bits_roundtrip (b : Z) :
  is_byte b ->
  exists s, byte_to_bits b = Ok s
            /\ length s = 8%nat
            /\ Forall is_bit_char s
            /\ bits_to_byte s = Ok b.
Proof.
  intros Hb.
  assert (H : byte_bits_check b = true).
  { revert b Hb. apply forall_bytes. vm_compute. reflexivity. }
  unfold byte_bits_check in H.
  destruct (byte_to_bits b) as [s| |]; try discriminate.
  exists s. apply andb_prop in H as [H H3]. apply andb_prop in H as [H1 H2].
  split; [reflexivity|]. split; [apply Nat.eqb_eq, H1|]. split.
  - apply Forall_forall. intros c Hc. apply is_bit_charb_spec.
    rewrite forallb_forall in H2. auto.
  - destruct (bits_to_byte s) as [v| |]; try discriminate.
    apply Z.eqb_eq in H3. now subst.
Qed.

Lemma byte_to_bits_roundtrip_witness :
  exists s, byte_to_bits 14 = Ok s
            /\ length s = 8%nat
            /\ Forall is_bit_char s
            /\ bits_to_byte s = Ok 14.
Proof. apply (byte_to_bits_roundtrip 14). unfold is_byte. lia. Defined.

(** ** The postorder reconstruction and its index argument *)

(** C8: [generate_tree_postorder] never reads [root_index]: on every
    record list, any two index values give the same outcome. *)
Theorem generate_tree_postorder_ignores_index
        (node_lst : list ReadNode) (i j : Z) :
  generate_tree_postorder node_lst i = generate_tree_postorder node_lst j.
Proof. reflexivity. Qed.

(** ** Degenerate inputs *)

Lemma take_min_empty : take_min [] = Raise IndexError.
Proof. reflexivity. Qed.

Lemma huffman_tree_empty : huffman_tree [] = Raise IndexError.
Proof. reflexivity. Qed.

(** C3, as the code has it: compressing a zero-length buffer fails.  The
    frequency table is empty, the loop of [huffman_tree] starts because
    the length of its working list is not 1, and the first [take_min]
    reads [lst[0]] of the empty list, which raises [IndexError]; no
    container is produced. *)
Theorem compress_empty_raises :
  make_freq_dict [] = []
  /\ huffman_tree (make_freq_dict []) = Raise IndexError
  /\ compress [] = Raise IndexError.
Proof. repeat split. Qed.

(** C3 as stated does not hold: there is no container, in particular not
    the empty one (count 0, size 0, no packed byte), that [compress]
    returns for the empty buffer. *)
Lemma compress_empty_no_container :
  compress [] <> Ok [0; 0; 0; 0; 0] /\ forall c, compress [] <> Ok c.
Proof. split; [|intros c]; discriminate. Qed.

(** C4, evaluated on the code: for a table with exactly one symbol the
    builder returns a root with a left leaf for that symbol and no right
    child; [get_codes] then records the code "0" for the symbol and goes
    on to call [is_leaf] on the missing right child, which raises
    [AttributeError], so no code table is returned. *)
Theorem one_symbol_tree_has_no_codes (s n : Z) :
  huffman_tree [(s, n)] = Ok (one_symbol_tree s)
  /\ left (one_symbol_tree s) = Some (mk_leaf (Some s))
  /\ right (one_symbol_tree s) = None
  /\ codes_of_child get_codes_node [] (left (one_symbol_tree s)) (bits "0")
     = Ok [(Some s, bits "0")]
  /\ get_codes (Some (one_symbol_tree s)) = Raise AttributeError.
Proof. repeat split. Qed.


(** ** The packer *)

Lemma bind_ok {A B} (c : result A) (k : A -> result B) (b : B) :
  bind c k = Ok b -> exists a, c = Ok a /\ k a = Ok b.
Proof. destruct c; simpl; intros H; try discriminate. eauto. Qed.

Lemma is_bitsb_spec s : is_bitsb s = true <-> is_bits s.
Proof.
  unfold is_bitsb, is_bits. rewrite forallb_forall, Forall_forall.
  split; intros H c Hc; apply is_bit_charb_spec; auto.
Qed.

Lemma is_bits_app s t : is_bits (s ++ t) <-> is_bits s /\ is_bits t.
Proof. apply Forall_app. Qed.

Lemma int_of_bit_char c : is_bit_char c -> int_of_char c = Ok (bit_value c).
Proof. intros [-> | ->]; reflexivity. Qed.

Lemma bit_value_range c : 0 <= bit_value c <= 1.
Proof. unfold bit_value. destruct (ascii_dec c "1"); lia. Qed.

(** [bits_to_byte] on at most 8 bits is the value of the padded byte. *)
Lemma bits_to_byte_from_ok s : forall k : nat,
  is_bits s -> (k + length s <= 8)%nat ->
  exists xs, bits_to_byte_from (Z.of_nat k) s = Ok xs
             /\ forall a, fold_left Z.add xs a = a + byte_value_from (2 ^ (7 - Z.of_nat k)) s.
Proof.
  induction s as [|c s IH]; intros k Hs Hk.
  - exists []. split; [reflexivity|]. intros a. cbn. lia.
  - inversion Hs as [|? ? Hc Hs']; subst. cbn [length] in Hk.
    destruct (IH (S k) Hs' ltac:(lia)) as [xs [E F]].
    cbn [bits_to_byte_from]. rewrite (int_of_bit_char _ Hc). cbn [bind].
    unfold shl. destruct (7 - Z.of_nat k <? 0) eqn:Hlt; [lia|]. cbn [bind].
    replace (Z.of_nat k + 1) with (Z.of_nat (S k)) by lia.
    rewrite E. cbn [bind]. eexists. split; [reflexivity|].
    intros a. cbn [fold_left byte_value_from]. rewrite F.
    rewrite Z.shiftl_mul_pow2 by lia.
    replace (2 ^ (7 - Z.of_nat k) / 2) with (2 ^ (7 - Z.of_nat (S k))).
    + lia.
    + destruct (Nat.eq_dec k 7) as [-> | Hk7]; [reflexivity|].
      replace (7 - Z.of_nat k) with (Z.succ (7 - Z.of_nat (S k))) by lia.
      rewrite Z.pow_succ_r by lia.
      rewrite Z.mul_comm, Z.div_mul by lia. reflexivity.
Qed.

Lemma bits_to_byte_value s :
  is_bits s -> (length s <= 8)%nat -> bits_to_byte s = Ok (byte_value s).
Proof.
  intros Hs Hl. destruct (bits_to_byte_from_ok s 0 Hs ltac:(lia)) as [xs [E F]].
  unfold bits_to_byte. change (Z.of_nat 0) with 0 in E. rewrite E. cbn [bind].
  rewrite F. reflexivity.
Qed.

(** On more than 8 bits the shift count [7 - pos] gets negative. *)
Lemma bits_to_byte_from_long s : forall k : nat,
  is_bits s -> (k <= 8)%nat -> (8 < k + length s)%nat ->
  bits_to_byte_from (Z.of_nat k) s = Raise ValueError.
Proof.
  induction s as [|c s IH]; intros k Hs Hk Hl; cbn [length] in Hl; [lia|].
  inversion Hs as [|? ? Hc Hs']; subst.
  cbn [bits_to_byte_from]. rewrite (int_of_bit_char _ Hc). cbn [bind]. unfold shl.
  destruct (7 - Z.of_nat k <? 0) eqn:Hlt; [reflexivity|]. cbn [bind].
  replace (Z.of_nat k + 1) with (Z.of_nat (S k)) by lia.
  rewrite IH; auto; lia.
Qed.

Lemma bits_to_byte_long s :
  is_bits s -> (8 < length s)%nat -> bits_to_byte s = Raise ValueError.
Proof.
  intros Hs Hl. unfold bits_to_byte.
  change 0 with (Z.of_nat 0). rewrite bits_to_byte_from_long; auto; lia.
Qed.

Lemma byte_value_from_range s : forall w, 0 <= w ->
  0 <= byte_value_from w s <= Z.max 0 (2 * w - 1).
Proof.
  induction s as [|c s IH]; intros w Hw; cbn [byte_value_from]; [lia|].
  pose proof (bit_value_range c).
  assert (0 <= w / 2) by (apply Z.div_pos; lia).
  specialize (IH (w / 2) ltac:(assumption)).
  assert (2 * (w / 2) <= w) by (apply Z.mul_div_le; lia).
  nia.
Qed.

Lemma byte_value_is_byte s : is_byte (byte_value s).
Proof.
  unfold is_byte, byte_value.
  pose proof (byte_value_from_range s 128 ltac:(lia)). lia.
Qed.

Lemma to_bytes_some l : Forall is_byte l -> to_bytes (map Some l) = Ok l.
Proof.
  induction 1 as [|b l Hb _ IH]; [reflexivity|].
  cbn [map to_bytes]. apply is_byteb_spec in Hb. rewrite Hb, IH. reflexivity.
Qed.

Lemma to_bytes_some_inv l out :
  to_bytes (map Some l) = Ok out -> out = l /\ Forall is_byte l.
Proof.
  revert out. induction l as [|b l IH]; intros out H.
  - cbn in H. inversion H. auto.
  - cbn [map to_bytes] in H. destruct (is_byteb b) eqn:Hb; [|discriminate].
    apply bind_ok in H as [bs [E H]]. inversion H; subst.
    destruct (IH _ E) as [-> Hl]. split; [reflexivity|].
    constructor; [apply is_byteb_spec, Hb | exact Hl].
Qed.

Lemma pack_spec_chunk b8 rest :
  length b8 = 8%nat -> pack_spec (b8 ++ rest) = byte_value b8 :: pack_spec rest.
Proof.
  intros H. do 8 (destruct b8 as [|? b8]; [discriminate|]).
  destruct b8; [reflexivity | discriminate].
Qed.

Lemma pack_spec_short s :
  (1 <= length s <= 8)%nat -> pack_spec s = [byte_value s].
Proof.
  intros H. do 8 (destruct s as [|? s]; [cbn in H; try lia; reflexivity|]).
  destruct s; [reflexivity | cbn in H; lia].
Qed.

Lemma pack_spec_nil_inv s : pack_spec s = [] -> s = [].
Proof.
  do 8 (destruct s as [|? s]; [first [reflexivity | discriminate]|]).
  discriminate.
Qed.

Lemma covered_cons n codes i text :
  covered n codes (i :: text) = true ->
  exists c, dict_find sym_eqb codes (Some i) = Some c
            /\ is_bits c /\ (length c <= n)%nat
            /\ covered n codes text = true.
Proof.
  unfold covered. cbn [forallb]. intros H. apply andb_prop in H as [H1 H2].
  destruct (dict_find sym_eqb codes (Some i)) as [c|]; [|discriminate].
  apply andb_prop in H1 as [Hb Hl]. exists c.
  repeat split; auto. - now apply is_bitsb_spec. - now apply Nat.leb_le.
Qed.

Lemma code_stream_cons codes i text c :
  dict_find sym_eqb codes (Some i) = Some c ->
  code_stream codes (i :: text) = c ++ code_stream codes text.
Proof.
  intros H. unfold code_stream. cbn [map concat]. unfold code_of at 1.
  rewrite H. reflexivity.
Qed.

Lemma len_app {A} (l m : list A) : len (l ++ m) = len l + len m.
Proof. unfold len. rewrite length_app. lia. Qed.

(** The loop of the packer: the bytes it appends to [y] are the full
    bytes of the pending bits followed by the codes of [text], and the
    bits it leaves pending are the rest. *)
Lemma pack_loop_spec n codes text : forall y byte y' byte',
  covered n codes text = true -> is_bits byte ->
  pack_loop codes text y byte = Ok (y', byte') ->
  exists e, y' = y ++ e
            /\ Forall is_byte e
            /\ pack_spec (byte ++ code_stream codes text) = e ++ pack_spec byte'
            /\ is_bits byte'
            /\ (byte' = [] -> byte ++ code_stream codes text = []).
Proof.
  induction text as [|i text IH]; intros y byte y' byte' Hc Hb H.
  - cbn in H. inversion H; subst. exists []. rewrite !app_nil_r.
    repeat split; auto.
  - destruct (covered_cons _ _ _ _ Hc) as [c [Hf [Hcb [_ Hc']]]].
    rewrite (code_stream_cons _ _ _ _ Hf).
    cbn [pack_loop] in H. unfold dict_get in H. rewrite Hf in H. cbn [bind] in H.
    destruct (len byte + len c >? 8) eqn:Hgt.
    + assert (Hlen : (8 < length (byte ++ c))%nat).
      { rewrite length_app. unfold len in Hgt. lia. }
      assert (Hf8 : length (firstn 8 (byte ++ c)) = 8%nat).
      { rewrite length_firstn. lia. }
      assert (Hbc : is_bits (byte ++ c)) by (apply is_bits_app; auto).
      assert (Hb8 : is_bits (firstn 8 (byte ++ c))).
      { rewrite <- (firstn_skipn 8 (byte ++ c)) in Hbc.
        apply is_bits_app in Hbc. tauto. }
      assert (Hex : is_bits (skipn 8 (byte ++ c))).
      { rewrite <- (firstn_skipn 8 (byte ++ c)) in Hbc.
        apply is_bits_app in Hbc. tauto. }
      rewrite (bits_to_byte_value _ Hb8 ltac:(lia)) in H. cbn [bind] in H.
      destruct (IH _ _ _ _ Hc' Hex H) as [e [-> [He [Hp [Hb' Hnil]]]]].
      exists (byte_value (firstn 8 (byte ++ c)) :: e).
      rewrite <- app_assoc. split; [reflexivity|].
      split; [constructor; [apply byte_value_is_byte | exact He]|].
      split; [|split; [exact Hb'|]].
      * transitivity (pack_spec (firstn 8 (byte ++ c)
                                 ++ skipn 8 (byte ++ c) ++ code_stream codes text)).
        { rewrite (app_assoc (firstn _ _)), firstn_skipn, app_assoc. reflexivity. }
        rewrite pack_spec_chunk by exact Hf8. rewrite Hp. reflexivity.
      * intros E. specialize (Hnil E). apply app_eq_nil in Hnil as [Hnil _].
        apply (f_equal (@length _)) in Hnil. rewrite length_skipn in Hnil.
        cbn in Hnil. lia.
    + assert (Hbc : is_bits (byte ++ c)) by (apply is_bits_app; auto).
      destruct (IH _ _ _ _ Hc' Hbc H) as [e [-> [He [Hp [Hb' Hnil]]]]].
      exists e. rewrite app_assoc. repeat split; auto.
Qed.

(** With codes of at most 8 bits the packer never holds more than 8
    pending bits, and does not raise. *)
Lemma pack_loop_total codes text : forall y byte,
  covered 8 codes text = true -> is_bits byte -> (length byte <= 8)%nat ->
  exists y' byte', pack_loop codes text y byte = Ok (y', byte')
                   /\ (length byte' <= 8)%nat.
Proof.
  induction text as [|i text IH]; intros y byte Hc Hb Hl.
  - exists y, byte. split; [reflexivity | exact Hl].
  - destruct (covered_cons _ _ _ _ Hc) as [c [Hf [Hcb [Hcl Hc']]]].
    cbn [pack_loop]. unfold dict_get. rewrite Hf. cbn [bind].
    assert (Hbc : is_bits (byte ++ c)) by (apply is_bits_app; auto).
    destruct (len byte + len c >? 8) eqn:Hgt.
    + assert (Hb8 : is_bits (firstn 8 (byte ++ c))).
      { rewrite <- (firstn_skipn 8 (byte ++ c)) in Hbc.
        apply is_bits_app in Hbc. tauto. }
      assert (Hex : is_bits (skipn 8 (byte ++ c))).
      { rewrite <- (firstn_skipn 8 (byte ++ c)) in Hbc.
        apply is_bits_app in Hbc. tauto. }
      rewrite (bits_to_byte_value _ Hb8) by (rewrite length_firstn; lia).
      cbn [bind]. apply IH; auto.
      rewrite length_skipn, length_app. lia.
    + apply IH; auto. rewrite length_app. unfold len in Hgt. lia.
Qed.

(** Whenever [generate_compressed] returns, it returns the packed code
    stream. *)
Lemma generate_compressed_spec n codes text out :
  covered n codes text = true ->
  generate_compressed text codes = Ok out ->
  out = packed (code_stream codes text).
Proof.
  intros Hc H. unfold generate_compressed in H.
  apply bind_ok in H as [[y' byte'] [Hp H]]. cbn beta iota in H.
  apply bind_ok in H as [b [Hb H]].
  destruct (pack_loop_spec _ _ _ _ _ _ _ Hc (Forall_nil _) Hp)
    as [e [-> [He [Hs [Hb' Hnil]]]]].
  cbn [app] in *.
  assert (Hl : (length byte' <= 8)%nat).
  { destruct (le_lt_dec (length byte') 8) as [|Hgt]; [assumption|].
    rewrite (bits_to_byte_long _ Hb' Hgt) in Hb. discriminate. }
  rewrite (bits_to_byte_value _ Hb' Hl) in Hb. inversion Hb; subst b.
  apply to_bytes_some_inv in H as [-> _].
  destruct byte' as [|c0 byte'].
  - rewrite (Hnil eq_refl) in *. cbn in Hs.
    destruct e; [reflexivity | discriminate].
  - rewrite (pack_spec_short (c0 :: byte')) in Hs by (cbn [length] in *; lia).
    rewrite <- Hs. unfold packed.
    destruct (code_stream codes text) eqn:E; [|reflexivity].
    cbn in Hs. destruct e; discriminate.
Qed.

Lemma generate_compressed_total codes text :
  covered 8 codes text = true ->
  exists out, generate_compressed text codes = Ok out.
Proof.
  intros Hc.
  destruct (pack_loop_total codes text [] [] Hc (Forall_nil _) ltac:(cbn; lia))
    as [y' [byte' [Hp Hl]]].
  destruct (pack_loop_spec _ _ _ _ _ _ _ Hc (Forall_nil _) Hp)
    as [e [-> [He [Hs [Hb' Hnil]]]]].
  unfold generate_compressed. rewrite Hp. cbn [bind app].
  rewrite (bits_to_byte_value _ Hb' Hl). cbn [bind].
  rewrite to_bytes_some; [eauto|].
  apply Forall_app. split; [exact He|].
  constructor; [apply byte_value_is_byte | constructor].
Qed.

(** The loop of the packer does not raise, whatever the length of the
    codes: each byte it emits is made of 8 bits.  It leaves
    [pending_bits] bits pending. *)
Lemma pack_loop_pending n codes text : forall y byte,
  covered n codes text = true -> is_bits byte ->
  exists y' byte', pack_loop codes text y byte = Ok (y', byte')
                   /\ length byte' = pending_bits codes text (length byte).
Proof.
  induction text as [|i text IH]; intros y byte Hc Hb.
  - exists y, byte. split; reflexivity.
  - destruct (covered_cons _ _ _ _ Hc) as [c [Hf [Hcb [Hcl Hc']]]].
    cbn [pack_loop pending_bits]. unfold dict_get, code_of. rewrite Hf.
    cbn [bind].
    assert (Hbc : is_bits (byte ++ c)) by (apply is_bits_app; auto).
    destruct (len byte + len c >? 8) eqn:Hgt.
    + assert (Hb8 : is_bits (firstn 8 (byte ++ c))).
      { rewrite <- (firstn_skipn 8 (byte ++ c)) in Hbc.
        apply is_bits_app in Hbc. tauto. }
      assert (Hex : is_bits (skipn 8 (byte ++ c))).
      { rewrite <- (firstn_skipn 8 (byte ++ c)) in Hbc.
        apply is_bits_app in Hbc. tauto. }
      rewrite (bits_to_byte_value _ Hb8) by (rewrite length_firstn; lia).
      cbn [bind].
      destruct (IH (y ++ [byte_value (firstn 8 (byte ++ c))])
                   (skipn 8 (byte ++ c)) Hc' Hex) as [y' [byte' [E El]]].
      exists y', byte'. split; [exact E|]. rewrite El.
      rewrite length_skipn, length_app.
      replace (8 <? length byte + length c)%nat with true; [reflexivity|].
      symmetry. apply Nat.ltb_lt. unfold len in Hgt. lia.
    + destruct (IH y (byte ++ c) Hc' Hbc) as [y' [byte' [E El]]].
      exists y', byte'. split; [exact E|]. rewrite El, length_app.
      replace (8 <? length byte + length c)%nat with false; [reflexivity|].
      symmetry. apply Nat.ltb_ge. unfold len in Hgt. lia.
Qed.

(** With codes of at most 8 bits no more than 8 bits are ever pending. *)
Lemma pending_bits_short codes text : forall p,
  covered 8 codes text = true -> (p <= 8)%nat ->
  (pending_bits codes text p <= 8)%nat.
Proof.
  induction text as [|i text IH]; intros p Hc Hp; [exact Hp|].
  destruct (covered_cons _ _ _ _ Hc) as [c [Hf [_ [Hcl Hc']]]].
  cbn [pending_bits]. unfold code_of. rewrite Hf.
  apply IH; [exact Hc'|].
  destruct (8 <? p + length c)%nat eqn:E; [lia|].
  apply Nat.ltb_ge in E. exact E.
Qed.

(** What [generate_compressed] does on a text whose bytes all have a
    code: it returns the packed code stream when the loop leaves at
    most 8 bits pending, and raises [ValueError] in the last
    [bits_to_byte] when it leaves more. *)
Lemma generate_compressed_exact n codes text :
  covered n codes text = true ->
  generate_compressed text codes
  = if (pending_bits codes text 0 <=? 8)%nat
    then Ok (packed (code_stream codes text))
    else Raise ValueError.
Proof.
  intros Hc.
  destruct (pack_loop_pending n codes text [] [] Hc (Forall_nil _))
    as [y' [byte' [Hp Hl]]].
  destruct (pack_loop_spec _ _ _ _ _ _ _ Hc (Forall_nil _) Hp)
    as [e [-> [He [Hs [Hb' Hnil]]]]].
  cbn [length] in Hl. rewrite <- Hl.
  destruct (length byte' <=? 8)%nat eqn:E.
  - apply Nat.leb_le in E.
    assert (Hout : generate_compressed text codes
                   = Ok (e ++ [byte_value byte'])).
    { unfold generate_compressed. rewrite Hp. cbn [bind app].
      rewrite (bits_to_byte_value _ Hb' E). cbn [bind].
      apply to_bytes_some. apply Forall_app. split; [exact He|].
      constructor; [apply byte_value_is_byte | constructor]. }
    rewrite Hout. f_equal.
    apply (generate_compressed_spec n codes text _ Hc Hout).
  - apply Nat.leb_gt in E.
    unfold generate_compressed. rewrite Hp. cbn [bind app].
    rewrite (bits_to_byte_long _ Hb' E). reflexivity.
Qed.

(** C6 on the code.  For every text and every code table that gives
    each byte of the text a bit string (of whatever length), the packer
    returns the codes concatenated first bit first and cut into bytes
    of 8 bits, the last byte padded with zero bits on the right (and
    the single byte 0 for an empty bit stream), provided its loop ends
    with at most 8 bits pending.  The loop flushes one byte per symbol
    at most, so codes of more than 8 bits can leave more than 8 bits
    pending at the end, and then the last [bits_to_byte] raises
    [ValueError]; with codes of at most 8 bits this does not happen.
    With the codes 0:"0", 1:"10", 2:"11" the text [1,2,1,0] packs to
    10111000 and [1,2,1,0,2] to 10111001, 10000000. *)
Theorem generate_compressed_packs (n : nat) (codes : codes_t) (text : list Z) :
  covered n codes text = true ->
  ((pending_bits codes text 0 <= 8)%nat ->
   generate_compressed text codes = Ok (packed (code_stream codes text)))
  /\ ((8 < pending_bits codes text 0)%nat ->
      generate_compressed text codes = Raise ValueError)
  /\ (covered 8 codes text = true -> (pending_bits codes text 0 <= 8)%nat)
  /\ (code_stream codes text <> [] ->
      packed (code_stream codes text) = pack_spec (code_stream codes text))
  /\ (code_stream codes text = [] -> packed (code_stream codes text) = [0])
  /\ generate_compressed [1; 2; 1; 0] doctest_codes
     = Ok [byte_value (bits "10111000")]
  /\ generate_compressed [1; 2; 1; 0; 2] doctest_codes
     = Ok [byte_value (bits "10111001"); byte_value (bits "10000000")].
Proof.
  intros Hc. pose proof (generate_compressed_exact n codes text Hc) as H.
  split; [|split; [|split; [|split; [|split; [|split]]]]].
  - intros Hp. rewrite H.
    replace (pending_bits codes text 0 <=? 8)%nat with true; [reflexivity|].
    symmetry. now apply Nat.leb_le.
  - intros Hp. rewrite H.
    replace (pending_bits codes text 0 <=? 8)%nat with false; [reflexivity|].
    symmetry. now apply Nat.leb_gt.
  - intros H8. apply pending_bits_short; [exact H8 | lia].
  - destruct (code_stream codes text); [congruence | reflexivity].
  - intros ->. reflexivity.
  - reflexivity.
  - reflexivity.
Qed.

Lemma generate_compressed_packs_witness :
  generate_compressed [1; 2; 1; 0; 2] doctest_codes
  = Ok (packed (code_stream doctest_codes [1; 2; 1; 0; 2]))
  /\ generate_compressed [0] [(Some 0, bits "00000000000000000")]
     = Raise ValueError.
Proof.
  split.
  - destruct (generate_compressed_packs 8 doctest_codes [1; 2; 1; 0; 2] eq_refl)
      as [H _].
    apply H. vm_compute. lia.
  - destruct (generate_compressed_packs
                17 [(Some 0, bits "00000000000000000")] [0] eq_refl)
      as [_ [H _]].
    apply H. vm_compute. lia.
Defined.

(** ** The unpacker: termination and the bound on its output *)

Lemma get_bit_ok b k : 0 <= k -> exists v, get_bit b k = Ok v /\ (v = 0 \/ v = 1).
Proof.
  intros Hk. unfold get_bit, shl, shr.
  destruct (k <? 0) eqn:E; [lia|]. cbn [bind].
  eexists. split; [reflexivity|].
  rewrite Z.shiftl_1_l.
  destruct (Z.testbit b k) eqn:T.
  - right. apply Z.bits_inj'. intros i Hi.
    rewrite Z.shiftr_spec, Z.land_spec, Z.pow2_bits_eqb by lia.
    destruct (Z.eq_dec i 0) as [-> | Hne].
    + rewrite Z.add_0_l, T, Z.eqb_refl. reflexivity.
    + replace (Z.testbit 1 i) with false.
      * destruct (Z.eqb_spec k (i + k)); [lia|]. apply andb_false_r.
      * symmetry. apply (Z.pow2_bits_false 0). lia.
  - left. apply Z.bits_inj'. intros i Hi.
    rewrite Z.shiftr_spec, Z.land_spec, Z.pow2_bits_eqb, Z.bits_0 by lia.
    destruct (Z.eqb_spec k (i + k)) as [E' | _]; [|apply andb_false_r].
    assert (i = 0) by lia. subst i. rewrite Z.add_0_l, T. reflexivity.
Qed.

Lemma str_of_bit v : v = 0 \/ v = 1 ->
  exists c, str_of_int v = [c] /\ is_bit_char c.
Proof.
  intros [-> | ->]; eexists; (split; [reflexivity|]); [left | right]; reflexivity.
Qed.

(** [byte_to_bits] returns 8 bits for every integer. *)
Lemma byte_to_bits_total b :
  exists s, byte_to_bits b = Ok s /\ length s = 8%nat /\ is_bits s.
Proof.
  unfold byte_to_bits, range_7_down. cbn [mapM].
  repeat match goal with
  | |- context [get_bit b ?k] =>
      let v := fresh "v" in let E := fresh "E" in let Hv := fresh "Hv" in
      let c := fresh "c" in let Ec := fresh "Ec" in let Hc := fresh "Hc" in
      destruct (get_bit_ok b k ltac:(lia)) as [v [E Hv]];
      destruct (str_of_bit v Hv) as [c [Ec Hc]];
      rewrite E; cbn [bind]; rewrite Ec; clear E Ec Hv; cbn [bind]
  end.
  eexists. split; [reflexivity|]. split; [reflexivity|].
  cbn [concat app]. repeat (apply Forall_cons; [assumption|]). apply Forall_nil.
Qed.

Lemma dict_mem_get {K V} (eqb : K -> K -> bool) (d : dict K V) k :
  dict_mem eqb d k = true -> exists v, dict_find eqb d k = Some v /\ dict_get eqb d k = Ok v.
Proof.
  unfold dict_mem, dict_get. destruct (dict_find eqb d k); [eauto | discriminate].
Qed.

(** The innermost loop returns within [length code + 1] rounds. *)
Lemma scan_loop_total reverse code start : forall fuel counter short,
  (S (length code) - counter < fuel)%nat ->
  exists counter' short',
    scan_loop fuel reverse code start counter short = Ok (counter', short')
    /\ (counter <= counter')%nat
    /\ (short' = false ->
        dict_mem str_eqb reverse (slice code start counter') = true).
Proof.
  induction fuel as [|fuel IH]; intros counter short Hf; [lia|].
  cbn [scan_loop].
  destruct short.
  { cbn [negb andb]. exists counter, true. repeat split; auto. discriminate. }
  destruct (dict_mem str_eqb reverse (slice code start counter)) eqn:Hm.
  { cbn [negb andb]. exists counter, false. repeat split; auto. }
  cbn [negb andb].
  destruct (length code <? counter + 1)%nat eqn:Hlt.
  - destruct fuel; cbn [scan_loop negb andb];
      exists (counter + 1)%nat, true; repeat split; try lia; discriminate.
  - apply Nat.ltb_ge in Hlt.
    destruct (IH (counter + 1)%nat false ltac:(lia)) as [c' [s' [E [Hle Hs]]]].
    exists c', s'. repeat split; auto. lia.
Qed.

(** The middle loop returns within [size + 1] rounds, and appends
    symbols only while fewer than [size] are decoded. *)
Lemma symbol_loop_total reverse size code : forall fuel decode start counter short,
  (1 <= counter)%nat ->
  (Z.to_nat (size - len decode) < fuel)%nat ->
  exists decode' start' counter' short',
    symbol_loop fuel reverse size code decode start counter short
    = Ok (decode', start', counter', short')
    /\ (1 <= counter')%nat
    /\ (len decode <= size -> len decode' <= size)
    /\ (forall s, In s decode' ->
                  In s decode \/ exists k, dict_find str_eqb reverse k = Some s).
Proof.
  induction fuel as [|fuel IH]; intros decode start counter short Hc Hf; [lia|].
  cbn [symbol_loop].
  destruct (negb short && (len decode <? size)) eqn:Hcond.
  2:{ exists decode, start, counter, short. repeat split; auto. }
  apply andb_prop in Hcond as [Hs Hlt]. apply Z.ltb_lt in Hlt.
  destruct (scan_loop_total reverse code start (S (length code)) counter short
              ltac:(lia)) as [c' [s' [E [Hle Hm]]]].
  rewrite E. cbn [bind].
  destruct s'.
  - cbn [negb].
    destruct fuel; cbn [symbol_loop negb andb];
      exists decode, start, c', true; repeat split; auto; lia.
  - cbn [negb]. destruct (dict_mem_get _ _ _ (Hm eq_refl)) as [v [Hfind Hget]].
    rewrite Hget. cbn [bind].
    destruct (IH (decode ++ [v]) c' c' false ltac:(lia)) as [d' [st' [ct' [sh' [E' [H1 [H2 H3]]]]]]].
    { rewrite len_app. unfold len at 2. cbn [length]. lia. }
    exists d', st', ct', sh'. split; [exact E'|]. split; [exact H1|]. split.
    + intros _. apply H2. rewrite len_app. unfold len at 2. cbn [length]. lia.
    + intros s Hin. destruct (H3 s Hin) as [Hin' | Hk]; [|auto].
      apply in_app_or in Hin' as [Hin' | [<- | []]]; eauto.
Qed.

Lemma py_index_nat {A} (l : list A) (i : nat) :
  (i < length l)%nat -> exists a, nth_error l i = Some a /\ py_index l (Z.of_nat i) = Ok a.
Proof.
  intros Hi. unfold py_index.
  destruct (Z.of_nat i <? 0) eqn:E; [lia|]. rewrite E.
  rewrite Nat2Z.id. destruct (nth_error l i) eqn:N; [eauto|].
  apply nth_error_None in N. lia.
Qed.

(** The outer loop returns after at most one round per byte of [text]. *)
Lemma byte_loop_total reverse text size : forall fuel st,
  (1 <= d_counter st)%nat ->
  (length text - d_index st <= fuel)%nat ->
  exists st', byte_loop fuel reverse text size st = Ok st'
              /\ (len (d_decode st) <= size -> len (d_decode st') <= size)
              /\ (forall s, In s (d_decode st') ->
                    In s (d_decode st) \/ exists k, dict_find str_eqb reverse k = Some s).
Proof.
  induction fuel as [|fuel IH]; intros st Hc Hf.
  - cbn [byte_loop].
    destruct ((len (d_decode st) <? size) && (Z.of_nat (d_index st) <? len text)) eqn:Hcond.
    + apply andb_prop in Hcond as [_ Hlt]. apply Z.ltb_lt in Hlt. unfold len in Hlt. lia.
    + exists st. auto.
  - cbn [byte_loop].
    destruct ((len (d_decode st) <? size) && (Z.of_nat (d_index st) <? len text)) eqn:Hcond.
    2:{ exists st. auto. }
    apply andb_prop in Hcond as [_ Hlt]. apply Z.ltb_lt in Hlt. unfold len in Hlt.
    destruct (py_index_nat text (d_index st) ltac:(lia)) as [b [_ Hb]].
    rewrite Hb. cbn [bind].
    destruct (byte_to_bits_total b) as [bs [Hbs _]]. rewrite Hbs. cbn [bind].
    destruct (symbol_loop_total reverse size (d_code st ++ bs) (S (Z.to_nat size))
                (d_decode st) (d_start st) (d_counter st) false Hc)
      as [d' [st' [ct' [sh' [E [H1 [H2 H3]]]]]]].
    { assert (0 <= len (d_decode st)) by (unfold len; lia). lia. }
    rewrite E. cbn [bind].
    destruct (IH (mkDstate (d_code st ++ bs) d' (d_index st + 1) st' ct' sh'))
      as [st2 [E2 [H4 H5]]]; cbn [d_counter d_index d_decode] in *; auto; try lia.
    exists st2. split; [exact E2|]. split; [auto|].
    intros s Hin. destruct (H5 s Hin) as [Hin' | Hk]; auto.
Qed.

Lemma to_bytes_length l out : to_bytes l = Ok out -> length out = length l.
Proof.
  revert out. induction l as [|[b|] l IH]; intros out H; cbn [to_bytes] in H.
  - inversion H. reflexivity.
  - destruct (is_byteb b); [|discriminate].
    apply bind_ok in H as [bs [E H]]. inversion H; subst.
    cbn [length]. f_equal. auto.
  - discriminate.
Qed.

Lemma to_bytes_total l :
  (forall s, In s l -> exists b, s = Some b /\ is_byte b) ->
  exists out, to_bytes l = Ok out.
Proof.
  induction l as [|s l IH]; intros H; [eexists; reflexivity|].
  destruct (H s (or_introl eq_refl)) as [b [-> Hb]].
  destruct IH as [out E]; [intros; apply H; now right|].
  cbn [to_bytes]. apply is_byteb_spec in Hb. rewrite Hb, E. cbn [bind]. eauto.
Qed.

(** Every value of the reversed table is a key of the code table. *)
Lemma dict_find_set_inv {K V} (eqb : K -> K -> bool) (d : dict K V) k v k' v' :
  dict_find eqb (dict_set eqb d k v) k' = Some v' ->
  v' = v \/ dict_find eqb d k' = Some v'.
Proof.
  induction d as [|[k0 v0] d IH]; cbn [dict_set dict_find].
  - destruct (eqb k k'); [|discriminate]. intros H; inversion H; auto.
  - destruct (eqb k0 k) eqn:E; cbn [dict_find].
    + destruct (eqb k0 k'); [intros H; inversion H; auto | auto].
    + destruct (eqb k0 k'); auto.
Qed.

Lemma make_reverse_values codes k s :
  dict_find str_eqb (make_reverse codes) k = Some s -> In s (map fst codes).
Proof.
  unfold make_reverse.
  assert (G : forall rev,
             dict_find str_eqb
               (fold_left (fun rev kv => dict_set str_eqb rev (snd kv) (fst kv)) codes rev) k
             = Some s ->
             In s (map fst codes) \/ dict_find str_eqb rev k = Some s).
  { induction codes as [|[a c] codes IH]; intros rev H; cbn [fold_left] in H; [auto|].
    destruct (IH _ H) as [Hin | Hf]; [left; now right|].
    cbn [fst snd] in Hf. apply dict_find_set_inv in Hf as [-> | Hf]; [|auto].
    left. now left. }
  intros H. destruct (G [] H) as [Hin | Hf]; [exact Hin | discriminate].
Qed.

(** [generate_uncompressed] returns whenever the code table of the tree
    can be computed and its symbols are bytes, and then with at most
    [size] symbols. *)
Lemma generate_uncompressed_total tree text size codes :
  get_codes (Some tree) = Ok codes -> byte_symbols codes -> 0 <= size ->
  exists out, generate_uncompressed tree text size = Ok out /\ len out <= size.
Proof.
  intros Hc Hs Hsize. unfold generate_uncompressed. rewrite Hc. cbn [bind].
  destruct (byte_loop_total (make_reverse codes) text size (length text)
              (mkDstate [] [] 0 0 1 false)) as [st [E [Hb Hin]]];
    cbn [d_counter d_index]; try lia.
  rewrite E. cbn [bind].
  destruct (to_bytes_total (d_decode st)) as [out Hout].
  - intros s H. destruct (Hin s H) as [[] | [k Hk]].
    apply Hs. eapply make_reverse_values; eauto.
  - exists out. split; [exact Hout|].
    apply to_bytes_length in Hout. unfold len in *. rewrite Hout.
    apply Hb. cbn. exact Hsize.
Qed.

(** Induction on a node through its optional children. *)
Lemma HuffmanNode_induction (P : HuffmanNode -> Prop) :
  (forall s l r n,
      (forall c, l = Some c -> P c) -> (forall c, r = Some c -> P c) ->
      P (HNode s l r n)) ->
  forall t, P t.
Proof.
  intros H. fix IH 1. intros [s l r n]. apply H.
  - destruct l as [c'|]; intros c E; [|discriminate].
    injection E as <-. apply IH.
  - destruct r as [c'|]; intros c E; [|discriminate].
    injection E as <-. apply IH.
Qed.

(** [get_codes] has no loop of its own. *)
Lemma get_codes_node_fuel tree : get_codes_node tree <> NoFuel.
Proof.
  induction tree as [s l r n IHl IHr] using HuffmanNode_induction.
  cbn [get_codes_node]. unfold codes_of_child.
  destruct l as [l|]; [|discriminate].
  specialize (IHl l eq_refl).
  destruct (is_leaf l); cbn [bind].
  - destruct r as [r|]; [|discriminate]. specialize (IHr r eq_refl).
    destruct (is_leaf r); [discriminate|].
    destruct (get_codes_node r); cbn [bind]; congruence.
  - destruct (get_codes_node l); cbn [bind]; try congruence.
    destruct r as [r|]; [|discriminate]. specialize (IHr r eq_refl).
    destruct (is_leaf r); [discriminate|].
    destruct (get_codes_node r); cbn [bind]; congruence.
Qed.

Lemma to_bytes_fuel l : to_bytes l <> NoFuel.
Proof.
  induction l as [|[b|] l IH]; cbn [to_bytes]; try discriminate.
  destruct (is_byteb b); [|discriminate].
  destruct (to_bytes l); cbn [bind]; congruence.
Qed.

(** C9: for every tree, packed byte sequence and non-negative size, the
    unpacker returns at most [size] symbols: a symbol is appended only
    under the test [len(decode) < size], whatever the bit stream still
    holds.  The loops of the embedding are unrolled often enough for
    every input. *)
Theorem generate_uncompressed_at_most_size
        (tree : HuffmanNode) (text : list Z) (size : Z) :
  0 <= size ->
  generate_uncompressed tree text size <> NoFuel
  /\ forall out, generate_uncompressed tree text size = Ok out -> len out <= size.
Proof.
  intros Hsize. unfold generate_uncompressed.
  destruct (get_codes (Some tree)) as [codes| |] eqn:Hc; cbn [bind].
  - destruct (byte_loop_total (make_reverse codes) text size (length text)
                (mkDstate [] [] 0 0 1 false)) as [st [E [Hb _]]];
      cbn [d_counter d_index]; try lia.
    rewrite E. cbn [bind]. split; [apply to_bytes_fuel|].
    intros out H. apply to_bytes_length in H. unfold len in *. rewrite H.
      apply Hb. cbn. exact Hsize.
  - split; [discriminate | intros; discriminate].
  - exfalso. exact (get_codes_node_fuel _ Hc).
Qed.

Lemma generate_uncompressed_at_most_size_witness :
  generate_uncompressed tree_65_66 [0] 3 <> NoFuel
  /\ forall out, generate_uncompressed tree_65_66 [0] 3 = Ok out -> len out <= 3.
Proof. apply (generate_uncompressed_at_most_size tree_65_66 [0] 3). lia. Defined.

(** ** Malformed containers *)

Lemma py_index_out_of_range {A} (l : list A) i :
  out_of_range l i -> py_index l i = Raise IndexError.
Proof.
  unfold out_of_range, py_index. intros H.
  destruct (i <? 0) eqn:E.
  - destruct (len l + i <? 0) eqn:E'; [reflexivity|]. unfold len in *. lia.
  - rewrite E. destruct (nth_error l (Z.to_nat i)) eqn:N; [|reflexivity].
    assert (Z.to_nat i < length l)%nat by (apply nth_error_Some; congruence).
    unfold len in *. lia.
Qed.

(** C7, as the code has it.  A reference to a record outside the table
    makes [generate_tree_general] raise [IndexError] when the recursion
    reaches it: at the root index, at the left reference of a visited
    record, and at its right reference when the left child is a leaf.
    There is no separate malformed-container condition.  A bit stream
    that ends before the declared count is no error at all: whatever the
    packed bytes are, [generate_uncompressed] returns the symbols it has
    decoded, at most [size] of them; for a container that declares 9
    symbols and packs 8, [uncompress] returns the 8. *)
Theorem malformed_container_outcomes :
  (forall node_lst i depth,
      out_of_range node_lst i ->
      generate_tree_general (S depth) node_lst i = Raise IndexError)
  /\ (forall node_lst i x depth,
         py_index node_lst i = Ok x -> l_type x <> 0 ->
         out_of_range node_lst (l_data x) ->
         generate_tree_general (S (S depth)) node_lst i = Raise IndexError)
  /\ (forall node_lst i x depth,
         py_index node_lst i = Ok x -> l_type x = 0 -> r_type x <> 0 ->
         out_of_range node_lst (r_data x) ->
         generate_tree_general (S (S depth)) node_lst i = Raise IndexError)
  /\ (forall tree codes text size,
         get_codes (Some tree) = Ok codes -> byte_symbols codes -> 0 <= size ->
         exists out, generate_uncompressed tree text size = Ok out
                     /\ len out <= size)
  /\ uncompress short_container = Ok [65; 65; 65; 65; 65; 65; 65; 65].
Proof.
  split; [|split; [|split; [|split]]].
  - intros node_lst i depth H. cbn [generate_tree_general].
    rewrite (py_index_out_of_range _ _ H). reflexivity.
  - intros node_lst i x depth Hx Hl H.
    cbn [generate_tree_general]. rewrite Hx. cbn [bind].
    destruct (l_type x =? 0) eqn:E; [lia|]. cbn [negb].
    rewrite (py_index_out_of_range _ _ H). reflexivity.
  - intros node_lst i x depth Hx Hl Hr H.
    cbn [generate_tree_general]. rewrite Hx. cbn [bind].
    rewrite Hl. cbn [Z.eqb negb bind].
    destruct (r_type x =? 0) eqn:E; [lia|]. cbn [negb].
    rewrite (py_index_out_of_range _ _ H). reflexivity.
  - intros tree codes text size Hc Hs Hsize.
    apply (generate_uncompressed_total tree text size codes Hc Hs Hsize).
  - reflexivity.
Qed.

Lemma malformed_container_outcomes_witness :
  generate_tree_general 2 [mkReadNode 1 200 0 1] 0 = Raise IndexError.
Proof.
  destruct malformed_container_outcomes as [_ [H _]].
  apply (H [mkReadNode 1 200 0 1] 0 (mkReadNode 1 200 0 1) 0%nat).
  - reflexivity.
  - cbn. lia.
  - unfold out_of_range. cbn. lia.
Defined.

(** C7 as stated does not hold.  The container [short_container]
    declares 9 symbols and its bit stream ends after 8: [uncompress]
    returns those 8 symbols and reports nothing.  In [stray_container]
    record 0 refers to a record 200 of a table of 2: the record is not
    reached from the root and [uncompress] returns a result. *)
Lemma malformed_container_accepted :
  bytes_to_size (fst (read 4 (snd (read 4 (snd (read 1 short_container)))))) = 9
  /\ uncompress short_container = Ok [65; 65; 65; 65; 65; 65; 65; 65]
  /\ bytes_to_nodes (fst (read 8 (snd (read 1 stray_container))))
     = Ok [mkReadNode 1 200 0 1; mkReadNode 0 65 0 66]
  /\ uncompress stray_container = Ok [65; 66; 65].
Proof. repeat split. Qed.

(** ** Full trees: code table and numbering *)

Lemma sym_eqb_eq a b : sym_eqb a b = true <-> a = b.
Proof.
  unfold sym_eqb, opt_eqb. destruct a, b; split; intros H;
    try discriminate; try reflexivity.
  - apply Z.eqb_eq in H. now subst.
  - inversion H. apply Z.eqb_refl.
Qed.

Lemma str_eqb_eq a b : str_eqb a b = true <-> a = b.
Proof.
  unfold str_eqb. destruct (list_eq_dec ascii_dec a b); split;
    intros; auto; discriminate.
Qed.

Section DictFacts.
Context {K V : Type} (eqb : K -> K -> bool).
Hypothesis eqb_eq : forall a b, eqb a b = true <-> a = b.

Lemma eqb_neq a b : a <> b -> eqb a b = false.
Proof.
  intros H. destruct (eqb a b) eqn:E; [|reflexivity].
  apply eqb_eq in E. contradiction.
Qed.

Lemma dict_find_not_in (d : dict K V) k :
  ~ In k (map fst d) -> dict_find eqb d k = None.
Proof.
  induction d as [|[k' v] d IH]; cbn [map fst dict_find In]; intros H; [reflexivity|].
  rewrite eqb_neq by tauto. apply IH. tauto.
Qed.

Lemma dict_find_in (d : dict K V) k v :
  NoDup (map fst d) -> In (k, v) d -> dict_find eqb d k = Some v.
Proof.
  induction d as [|[k' v'] d IH]; cbn [map fst dict_find In]; intros Hn Hin; [tauto|].
  inversion Hn as [|? ? Hk Hn']; subst.
  destruct Hin as [E | Hin].
  - inversion E; subst. replace (eqb k k) with true; [reflexivity|].
    symmetry. now apply eqb_eq.
  - rewrite eqb_neq; [auto|]. intros ->. apply Hk.
    apply in_map_iff. exists (k, v). auto.
Qed.

Lemma dict_find_some_in (d : dict K V) k v :
  dict_find eqb d k = Some v -> In (k, v) d.
Proof.
  induction d as [|[k' v'] d IH]; cbn [dict_find]; [discriminate|].
  destruct (eqb k' k) eqn:E.
  - apply eqb_eq in E. subst. intros H. inversion H. now left.
  - intros H. right. auto.
Qed.

Lemma dict_set_new (d : dict K V) k v :
  ~ In k (map fst d) -> dict_set eqb d k v = d ++ [(k, v)].
Proof.
  induction d as [|[k' v'] d IH]; cbn [map fst dict_set In app]; intros H; [reflexivity|].
  rewrite eqb_neq by tauto. rewrite IH by tauto. reflexivity.
Qed.

Lemma dict_update_new (e : dict K V) : forall d,
  NoDup (map fst e) -> (forall k, In k (map fst e) -> ~ In k (map fst d)) ->
  dict_update eqb d e = d ++ e.
Proof.
  unfold dict_update.
  induction e as [|[k v] e IH]; intros d Hn Hd; cbn [fold_left fst snd].
  - now rewrite app_nil_r.
  - inversion Hn as [|? ? Hk Hn']; subst.
    rewrite dict_set_new by (apply Hd; now left).
    rewrite IH; [now rewrite <- app_assoc|exact Hn'|].
    intros k' Hk' Hin. rewrite map_app, in_app_iff in Hin.
    destruct Hin as [Hin | [<- | []]].
    + apply (Hd k'); [now right | exact Hin].
    + contradiction.
Qed.
End DictFacts.

Lemma is_leaf_embed_opt t n : is_leaf (embed_opt t n) = negb (is_fnode t).
Proof. destruct t; reflexivity. Qed.

Lemma symbol_embed_leaf s n : symbol (embed_opt (FLeaf s) n) = Some s.
Proof. reflexivity. Qed.

Lemma prefix_codes_keys b d : map fst (prefix_codes b d) = map fst d.
Proof. unfold prefix_codes. rewrite map_map. now apply map_ext. Qed.

Lemma paths_keys t : map fst (paths t) = map Some (leaves t).
Proof.
  induction t as [s|l IHl r IHr]; [reflexivity|].
  cbn [paths leaves].
  now rewrite !map_app, !prefix_codes_keys, IHl, IHr.
Qed.

Lemma NoDup_map_Some (l : list Z) : NoDup l -> NoDup (map Some l).
Proof.
  induction 1 as [|a l Ha _ IH]; cbn [map]; constructor; [|exact IH].
  rewrite in_map_iff. intros [b [E Hb]]. inversion E; subst. contradiction.
Qed.

Lemma NoDup_app_l {A} (l m : list A) : NoDup (l ++ m) -> NoDup l.
Proof.
  induction l as [|a l IH]; cbn [app]; intros H; [constructor|].
  inversion H as [|? ? Ha Hn]; subst. constructor; [|auto].
  intros Hin. apply Ha. apply in_or_app. now left.
Qed.

Lemma NoDup_app_r {A} (l m : list A) : NoDup (l ++ m) -> NoDup m.
Proof.
  induction l as [|a l IH]; cbn [app]; intros H; [exact H|].
  inversion H; subst. auto.
Qed.

Lemma NoDup_app_disjoint {A} (l m : list A) a :
  NoDup (l ++ m) -> In a l -> In a m -> False.
Proof.
  induction l as [|b l IH]; cbn [app In]; intros H Hl Hm; [tauto|].
  inversion H as [|? ? Hb Hn]; subst. destruct Hl as [-> | Hl].
  - apply Hb. apply in_or_app. now right.
  - eauto.
Qed.

(** One child of a full tree adds the paths through it to the table. *)
Lemma codes_of_child_embed codes c n b :
  (is_fnode c = true -> get_codes_node (embed_opt c n) = Ok (paths c)) ->
  NoDup (leaves c) ->
  (forall s, In s (leaves c) -> ~ In (Some s) (map fst codes)) ->
  codes_of_child get_codes_node codes (Some (embed_opt c n)) b
  = Ok (codes ++ prefix_codes b (paths c)).
Proof.
  intros IH Hn Hd. unfold codes_of_child. rewrite is_leaf_embed_opt.
  destruct c as [s|c1 c2]; cbn [is_fnode negb].
  - cbn [embed_opt mk_leaf mk_node symbol paths prefix_codes map fst snd].
    rewrite (dict_set_new sym_eqb sym_eqb_eq), app_nil_r; [reflexivity|].
    apply Hd. now left.
  - rewrite IH by reflexivity. cbn [bind].
    rewrite (dict_update_new sym_eqb sym_eqb_eq); [reflexivity| |].
    + rewrite prefix_codes_keys, paths_keys. now apply NoDup_map_Some.
    + intros k. rewrite prefix_codes_keys, paths_keys, in_map_iff.
      intros [a [<- Ha]]. now apply Hd.
Qed.

(** The code table of a full tree with distinct symbols lists the paths
    to its leaves; the numbers of the nodes play no part. *)
Lemma get_codes_node_paths t : forall n,
  is_fnode t = true -> NoDup (leaves t) ->
  get_codes_node (embed_opt t n) = Ok (paths t).
Proof.
  induction t as [s|l IHl r IHr]; intros n Hf Hn; [discriminate|].
  cbn [leaves] in Hn.
  pose proof (NoDup_app_l _ _ Hn) as Hnl.
  pose proof (NoDup_app_r _ _ Hn) as Hnr.
  cbn [embed_opt get_codes_node paths].
  rewrite codes_of_child_embed; auto. cbn [bind app].
  rewrite codes_of_child_embed; auto.
  intros s Hs. rewrite prefix_codes_keys, paths_keys, in_map_iff.
  intros [a [E Ha]]. inversion E; subst.
  eapply NoDup_app_disjoint; eauto.
Qed.

(** Numbering a full tree from [n] on. *)
Lemma numbering_embed t : forall n,
  numbering (embed t) n = Ok (embed_num t n, n + Z.of_nat (internal t)).
Proof.
  unfold embed, embed_num.
  induction t as [s|l IHl r IHr]; intros n.
  - cbn. now rewrite Z.add_0_r.
  - cbn [embed_opt shift option_map numbering is_leaf left right negb internal].
    rewrite IHl. cbn [bind]. rewrite IHr. cbn [bind].
    rewrite !Nat2Z.inj_add, !Z.add_assoc. reflexivity.
Qed.

Lemma number_nodes_embed t : number_nodes (embed t) = Ok (embed_num t 0).
Proof. unfold number_nodes. now rewrite numbering_embed. Qed.

(** ** Full trees: the record table and its reconstruction *)

Lemma records_length t n : length (records t n) = internal t.
Proof.
  revert n. induction t as [s|l IHl r IHr]; intros n; [reflexivity|].
  cbn [records internal]. rewrite !length_app, IHl, IHr. cbn [length]. lia.
Qed.

Lemma flat_app a b : flat (a ++ b) = flat a ++ flat b.
Proof. unfold flat. now rewrite map_app, concat_app. Qed.

Lemma flat_length l : length (flat l) = (4 * length l)%nat.
Proof.
  induction l as [|x l IH]; [reflexivity|].
  change (flat (x :: l)) with ([l_type x; l_data x; r_type x; r_data x] ++ flat l).
  rewrite length_app, IH. cbn [length]. lia.
Qed.

Lemma internal_pos t : is_fnode t = true -> (1 <= internal t)%nat.
Proof. destruct t; [discriminate|]. cbn [internal]. lia. Qed.

Lemma child_flag_byte t : is_byte (child_flag t).
Proof. destruct t; unfold is_byte; cbn; lia. Qed.

Lemma child_data_byte t n :
  Forall is_byte (leaves t) -> 0 <= n -> n + Z.of_nat (internal t) <= 256 ->
  is_byte (child_data t n).
Proof.
  intros Hl Hn Hi. destruct t as [s|l r].
  - now inversion Hl.
  - unfold child_data. pose proof (internal_pos (FNode l r) eq_refl).
    unfold is_byte. lia.
Qed.

Lemma records_bytes t : forall n,
  Forall is_byte (leaves t) -> 0 <= n -> n + Z.of_nat (internal t) <= 256 ->
  Forall is_byte (flat (records t n)).
Proof.
  induction t as [s|l IHl r IHr]; intros n Hl Hn Hi; [constructor|].
  cbn [leaves] in Hl. apply Forall_app in Hl as [Hll Hlr].
  cbn [internal] in Hi. cbn [records]. rewrite !flat_app.
  apply Forall_app. split; [apply IHl; auto; lia|].
  apply Forall_app. split; [apply IHr; auto; lia|].
  unfold flat. cbn [map concat app l_type l_data r_type r_data].
  repeat (apply Forall_cons); try apply child_flag_byte;
    try (apply child_data_byte; auto; lia).
  constructor.
Qed.

Lemma child_fields_embed c m :
  child_fields (Some (embed_num c m)) = Ok [Some (child_flag c); Some (child_data c m)].
Proof.
  unfold child_fields, embed_num. rewrite is_leaf_embed_opt.
  destruct c as [s|c1 c2]; [reflexivity|].
  cbn [is_fnode negb embed_opt number shift option_map child_flag child_data internal].
  do 4 f_equal. lia.
Qed.

Lemma subtree_bytes c m :
  (is_fnode c = true -> tree_to_bytes (embed_num c m) = Ok (flat (records c m))) ->
  (if negb (is_leaf (embed_num c m)) then tree_to_bytes (embed_num c m) else Ok [])
  = Ok (flat (records c m)).
Proof.
  intros IH. unfold embed_num in *. rewrite is_leaf_embed_opt.
  destruct c as [s|c1 c2]; [reflexivity|]. cbn [is_fnode negb]. now apply IH.
Qed.

(** [tree_to_bytes] on a numbered full tree writes its record table. *)
Lemma tree_to_bytes_embed t : forall n,
  is_fnode t = true -> Forall is_byte (leaves t) ->
  0 <= n -> n + Z.of_nat (internal t) <= 256 ->
  tree_to_bytes (embed_num t n) = Ok (flat (records t n)).
Proof.
  induction t as [s|l IHl r IHr]; intros n Hf Hl Hn Hi; [discriminate|].
  pose proof (records_bytes _ _ Hl Hn Hi) as Hb.
  cbn [leaves] in Hl. apply Forall_app in Hl as [Hll Hlr].
  cbn [internal] in Hi.
  unfold embed_num. cbn [embed_opt shift option_map tree_to_bytes].
  change (embed_opt l (Some n)) with (embed_num l n).
  change (embed_opt r (Some (n + Z.of_nat (internal l))))
    with (embed_num r (n + Z.of_nat (internal l))).
  rewrite (subtree_bytes l) by (intros; apply IHl; auto; lia). cbn [bind].
  rewrite (subtree_bytes r) by (intros; apply IHr; auto; lia). cbn [bind].
  rewrite !child_fields_embed. cbn [bind].
  cbn [records] in Hb |- *. rewrite !flat_app in Hb |- *.
  set (last := flat [_]) in *.
  replace (map Some (flat (records l n))
           ++ map Some (flat (records r (n + Z.of_nat (internal l))))
           ++ [Some (child_flag l); Some (child_data l n)]
           ++ [Some (child_flag r); Some (child_data r (n + Z.of_nat (internal l)))])
    with (map Some (flat (records l n)
                    ++ flat (records r (n + Z.of_nat (internal l))) ++ last)).
  - now apply to_bytes_some.
  - rewrite !map_app. reflexivity.
Qed.

Lemma py_index_app_r {A} (a b : list A) j :
  0 <= j -> py_index (a ++ b) (len a + j) = py_index b j.
Proof.
  intros Hj. unfold py_index, len.
  destruct (Z.of_nat (length a) + j <? 0) eqn:E; [blia|]. rewrite E.
  destruct (j <? 0) eqn:E'; [blia|]. rewrite E'.
  replace (Z.to_nat (Z.of_nat (length a) + j)) with (length a + Z.to_nat j)%nat by lia.
  now rewrite nth_error_app2, Nat.add_comm, Nat.add_sub by lia.
Qed.

Lemma nodes_at_flat recs : forall pre,
  nodes_at (flat (pre ++ recs))
           (map (fun k => 4 * Z.of_nat k) (seq (length pre) (length recs)))
  = Ok recs.
Proof.
  induction recs as [|x recs IH]; intros pre; [reflexivity|].
  cbn [length seq map nodes_at].
  assert (E : forall j, 0 <= j ->
                        py_index (flat (pre ++ x :: recs)) (4 * Z.of_nat (length pre) + j)
                        = py_index ([l_type x; l_data x; r_type x; r_data x] ++ flat recs) j).
  { intros j Hj. rewrite flat_app.
    replace (4 * Z.of_nat (length pre)) with (len (flat pre))
      by (unfold len; rewrite flat_length; lia).
    now apply py_index_app_r. }
  rewrite <- (Z.add_0_r (4 * Z.of_nat (length pre))) at 1.
  rewrite !E by lia. destruct x as [a b c d].
  cbn [l_type l_data r_type r_data]. 
  change (py_index ([a; b; c; d] ++ flat recs) 0) with (Ok a).
  change (py_index ([a; b; c; d] ++ flat recs) 1) with (Ok b).
  change (py_index ([a; b; c; d] ++ flat recs) 2) with (Ok c).
  change (py_index ([a; b; c; d] ++ flat recs) 3) with (Ok d).
  cbn [bind].
  specialize (IH (pre ++ [mkReadNode a b c d])).
  rewrite <- app_assoc, length_app in IH. cbn [app length] in IH.
  rewrite Nat.add_1_r in IH. rewrite IH. reflexivity.
Qed.

(** Reading back the bytes of a record table gives the table. *)
Lemma bytes_to_nodes_flat recs : bytes_to_nodes (flat recs) = Ok recs.
Proof.
  unfold bytes_to_nodes, range_by_4. rewrite flat_length.
  replace ((4 * length recs + 3) / 4)%nat with (length recs).
  - apply (nodes_at_flat recs []).
  - rewrite (Nat.mul_comm 4), Nat.div_add_l by lia. cbn. lia.
Qed.

Lemma py_index_middle {A} (a : list A) x b :
  py_index (a ++ x :: b) (len a) = Ok x.
Proof.
  rewrite <- (Z.add_0_r (len a)). rewrite py_index_app_r by lia. reflexivity.
Qed.

(** [generate_tree_general] rooted at the last record of the table of a
    full tree rebuilds the tree, wherever the table sits in the list. *)
Lemma generate_tree_general_records t : forall pre post depth,
  is_fnode t = true -> (internal t <= depth)%nat ->
  generate_tree_general depth (pre ++ records t (len pre) ++ post)
                        (len pre + Z.of_nat (internal t) - 1)
  = Ok (embed t).
Proof.
  induction t as [s|l IHl r IHr]; intros pre post depth Hf Hd; [discriminate|].
  cbn [internal] in Hd. destruct depth as [|depth]; [lia|].
  cbn [generate_tree_general records].
  set (x := mkReadNode _ _ _ _).
  assert (Hx : py_index (pre ++ (records l (len pre)
                                 ++ records r (len pre + Z.of_nat (internal l)) ++ [x]) ++ post)
                        (len pre + Z.of_nat (internal (FNode l r)) - 1) = Ok x).
  { replace (pre ++ (records l (len pre)
                     ++ records r (len pre + Z.of_nat (internal l)) ++ [x]) ++ post)
      with ((pre ++ records l (len pre) ++ records r (len pre + Z.of_nat (internal l)))
            ++ x :: post)
      by (rewrite <- !app_assoc; reflexivity).
    replace (len pre + Z.of_nat (internal (FNode l r)) - 1)
      with (len (pre ++ records l (len pre) ++ records r (len pre + Z.of_nat (internal l)))).
    - apply py_index_middle.
    - unfold len. rewrite !length_app, !records_length. cbn [internal]. lia. }
  rewrite Hx. cbn [bind]. subst x. cbn [l_type l_data r_type r_data].
  assert (El : (if negb (child_flag l =? 0)
                then generate_tree_general depth
                       (pre ++ (records l (len pre)
                                ++ records r (len pre + Z.of_nat (internal l))
                                ++ [mkReadNode (child_flag l) (child_data l (len pre))
                                      (child_flag r)
                                      (child_data r (len pre + Z.of_nat (internal l)))])
                            ++ post)
                       (child_data l (len pre))
                else Ok (mk_leaf (Some (child_data l (len pre)))))
               = Ok (embed l)).
  { destruct l as [s|l1 l2]; [reflexivity|].
    cbn [child_flag Z.eqb negb child_data].
    rewrite <- !app_assoc. apply IHl; [reflexivity|lia]. }
  rewrite El. cbn [bind].
  assert (Er : (if negb (child_flag r =? 0)
                then generate_tree_general depth
                       (pre ++ (records l (len pre)
                                ++ records r (len pre + Z.of_nat (internal l))
                                ++ [mkReadNode (child_flag l) (child_data l (len pre))
                                      (child_flag r)
                                      (child_data r (len pre + Z.of_nat (internal l)))])
                            ++ post)
                       (child_data r (len pre + Z.of_nat (internal l)))
                else Ok (mk_leaf (Some (child_data r (len pre + Z.of_nat (internal l))))))
               = Ok (embed r)).
  { destruct r as [s|r1 r2]; [reflexivity|].
    cbn [child_flag Z.eqb negb child_data].
    replace (len pre + Z.of_nat (internal l)) with (len (pre ++ records l (len pre)))
      by (unfold len; rewrite length_app, records_length; lia).
    rewrite <- !app_assoc. rewrite (app_assoc pre (records l (len pre))).
    apply IHr; [reflexivity|lia]. }
  rewrite Er. reflexivity.
Qed.

(** ** The frequency table *)

Lemma dict_set_keys_old {K V} (eqb : K -> K -> bool)
      (eqb_eq : forall a b, eqb a b = true <-> a = b) (d : dict K V) k v :
  In k (map fst d) -> map fst (dict_set eqb d k v) = map fst d.
Proof.
  induction d as [|[k' v'] d IH]; cbn [map fst dict_set In]; intros H; [tauto|].
  destruct (eqb k' k) eqn:E; [reflexivity|].
  cbn [map fst]. f_equal. apply IH. destruct H as [-> | H]; [|exact H].
  assert (eqb k k = true) by now apply eqb_eq. congruence.
Qed.

Lemma dict_set_entries {K V} (eqb : K -> K -> bool) (d : dict K V) k v e :
  In e (dict_set eqb d k v) -> snd e = v \/ In e d.
Proof.
  induction d as [|[k' v'] d IH]; cbn [dict_set In].
  - intros [<- | []]. now left.
  - destruct (eqb k' k); cbn [In].
    + intros [<- | H]; [now left | right; now right].
    + intros [<- | H]; [right; now left|].
      destruct (IH H); [now left | right; now right].
Qed.

Lemma count_byte_keys freq b :
  map fst (count_byte freq b)
  = if in_dec Z.eq_dec b (map fst freq) then map fst freq else map fst freq ++ [b].
Proof.
  unfold count_byte. destruct (in_dec Z.eq_dec b (map fst freq)) as [H | H].
  - apply dict_set_keys_old; [apply Z.eqb_eq | exact H].
  - rewrite dict_set_new; [|apply Z.eqb_eq | exact H].
    now rewrite map_app.
Qed.

Lemma fold_count_byte text : forall freq,
  NoDup (map fst freq) -> (forall e, In e freq -> 1 <= snd e) ->
  let d := fold_left count_byte text freq in
  NoDup (map fst d)
  /\ (forall b, In b (map fst d) <-> In b (map fst freq) \/ In b text)
  /\ (forall e, In e d -> 1 <= snd e).
Proof.
  induction text as [|b text IH]; intros freq Hn Hv; cbn [fold_left].
  - cbn zeta. split; [exact Hn|]. split; [|exact Hv].
    intros b. cbn [In]. tauto.
  - assert (Hn' : NoDup (map fst (count_byte freq b))).
    { rewrite count_byte_keys. destruct (in_dec Z.eq_dec b (map fst freq)); [exact Hn|].
      clear - Hn n. induction (map fst freq) as [|a l IHl]; cbn [app].
      - constructor; [tauto | constructor].
      - inversion Hn; subst. constructor.
        + rewrite in_app_iff. cbn [In] in *. intros [H | [H | []]]; [tauto|].
          apply n. left. now symmetry.
        + apply IHl; auto. cbn [In] in n. tauto. }
    assert (Hv' : forall e, In e (count_byte freq b) -> 1 <= snd e).
    { intros e He. unfold count_byte in He.
      apply dict_set_entries in He as [-> | He]; [|auto].
      destruct (dict_find Z.eqb freq b) as [n|] eqn:F; [|lia].
      assert (In (b, n) freq).
      { apply (dict_find_some_in Z.eqb); [apply Z.eqb_eq | exact F]. }
      specialize (Hv _ H). cbn [snd] in Hv. lia. }
    destruct (IH _ Hn' Hv') as [H1 [H2 H3]]. cbn zeta in *.
    split; [exact H1|]. split; [|exact H3].
    intros c. rewrite H2, count_byte_keys. cbn [In].
    destruct (in_dec Z.eq_dec b (map fst freq)) as [H | H].
    + split; [intros [?|?]; auto|]. intros [? | [<- | ?]]; auto.
    + rewrite in_app_iff. cbn [In]. tauto.
Qed.

(** The table has one entry for each distinct byte of the text, with a
    positive count. *)
Lemma make_freq_dict_spec text :
  NoDup (map fst (make_freq_dict text))
  /\ (forall b, In b (map fst (make_freq_dict text)) <-> In b text)
  /\ (forall e, In e (make_freq_dict text) -> 1 <= snd e).
Proof.
  destruct (fold_count_byte text [] (NoDup_nil _) ltac:(intros ? [])) as [H1 [H2 H3]].
  cbn zeta in *. repeat split; auto.
  - intros H. apply H2 in H. cbn [map In] in H. tauto.
  - intros H. apply H2. now right.
Qed.

(** ** The builder *)

Lemma ftree_eqb_eq a : forall b, ftree_eqb a b = true <-> a = b.
Proof.
  induction a as [x|l IHl r IHr]; intros [y|l' r']; cbn [ftree_eqb];
    try (split; discriminate).
  - rewrite Z.eqb_eq. split; [now intros -> | now inversion 1].
  - rewrite andb_true_iff, IHl, IHr. split; [now intros [-> ->] | now inversion 1].
Qed.

Lemma fentry_eqb_eq a b : fentry_eqb a b = true <-> a = b.
Proof.
  unfold fentry_eqb. destruct a as [t1 w1], b as [t2 w2]. cbn [fst snd].
  rewrite andb_true_iff, ftree_eqb_eq, Z.eqb_eq.
  split; [now intros [-> ->] | now inversion 1].
Qed.

Lemma node_eqb_embed a : forall b, node_eqb (embed a) (embed b) = ftree_eqb a b.
Proof.
  unfold embed.
  induction a as [x|l IHl r IHr]; intros [y|l' r']; cbn [embed_opt ftree_eqb];
    try reflexivity.
  - cbn. now rewrite !andb_true_r.
  - cbn [shift option_map node_eqb opt_eqb andb]. now rewrite IHl, IHr.
Qed.

Lemma entry_eqb_entry_of a b : entry_eqb (entry_of a) (entry_of b) = fentry_eqb a b.
Proof.
  unfold entry_eqb, fentry_eqb, entry_of. cbn [fst snd]. f_equal.
  destruct (fst a) as [x|l r], (fst b) as [y|l' r']; try reflexivity.
  cbn [key_of key_eqb]. apply node_eqb_embed.
Qed.

Lemma as_node_key_of t : as_node (key_of t) = embed t.
Proof. destruct t; reflexivity. Qed.

Lemma fold_min_step_entry_of w : forall best,
  fold_left min_step (map entry_of w) (entry_of best)
  = entry_of (fold_left fmin_step w best).
Proof.
  induction w as [|e w IH]; intros best; [reflexivity|].
  cbn [map fold_left]. rewrite <- IH. f_equal.
  unfold min_step, fmin_step, entry_of. cbn [snd].
  now destruct (snd e <? snd best).
Qed.

Lemma list_remove_entry_of w x :
  In x w ->
  list_remove entry_eqb (map entry_of w) (entry_of x)
  = Ok (map entry_of (remove_first x w)).
Proof.
  induction w as [|e w IH]; intros Hin; [destruct Hin|].
  cbn [map list_remove remove_first]. rewrite entry_eqb_entry_of.
  destruct (fentry_eqb e x) eqn:E; [reflexivity|].
  destruct Hin as [-> | Hin].
  - assert (fentry_eqb x x = true) by now apply fentry_eqb_eq. congruence.
  - rewrite IH by exact Hin. reflexivity.
Qed.

(** The minimum found by the loop of [take_min]: an entry of the list,
    not heavier than any other. *)
Lemma fold_fmin_step w : forall best,
  let m := fold_left fmin_step w best in
  (m = best \/ In m w)
  /\ snd m <= snd best
  /\ (forall e, In e w -> snd m <= snd e).
Proof.
  induction w as [|e w IH]; intros best; cbn [fold_left].
  - cbn zeta. repeat split; auto; try lia. intros ? [].
  - destruct (IH (fmin_step best e)) as [H1 [H2 H3]]. cbn zeta in *.
    unfold fmin_step in *. destruct (snd e <? snd best) eqn:E.
    + apply Z.ltb_lt in E. split; [|split].
      * right. destruct H1 as [-> | H1]; [now left | now right].
      * lia.
      * intros e' [<- | H]; [exact H2 | auto].
    + apply Z.ltb_ge in E. split; [|split].
      * destruct H1 as [-> | H1]; [now left | right; now right].
      * exact H2.
      * intros e' [<- | H]; [lia | auto].
Qed.

Lemma remove_first_perm x w :
  In x w -> Permutation w (x :: remove_first x w).
Proof.
  induction w as [|e w IH]; intros Hin; [destruct Hin|].
  cbn [remove_first]. destruct (fentry_eqb e x) eqn:E.
  - apply fentry_eqb_eq in E. subst. apply Permutation_refl.
  - destruct Hin as [-> | Hin].
    + assert (fentry_eqb x x = true) by now apply fentry_eqb_eq. congruence.
    + eapply perm_trans; [|apply perm_swap].
      apply perm_skip. now apply IH.
Qed.

(** [pick_min] takes an entry of least weight out of a non-empty list. *)
Lemma pick_min_spec w :
  w <> [] ->
  exists x rest, pick_min w = Some (x, rest)
                 /\ Permutation w (x :: rest)
                 /\ (forall e, In e w -> snd x <= snd e).
Proof.
  destruct w as [|first w]; [congruence|]. intros _.
  unfold pick_min.
  destruct (fold_fmin_step (first :: w) first) as [H1 [H2 H3]]. cbn zeta in *.
  set (m := fold_left fmin_step (first :: w) first) in *.
  exists m, (remove_first m (first :: w)). split; [reflexivity|].
  split; [|exact H3].
  apply remove_first_perm. destruct H1 as [-> | H1]; [now left | exact H1].
Qed.

(** [take_min] on the working list is [pick_min] on the forest. *)
Lemma take_min_entry_of w :
  take_min (map entry_of w)
  = match pick_min w with
    | Some (x, rest) => Ok (entry_of x, map entry_of rest)
    | None => Raise IndexError
    end.
Proof.
  destruct w as [|first w]; [reflexivity|].
  unfold take_min, pick_min.
  change (py_index (map entry_of (first :: w)) 0) with (Ok (entry_of first)).
  cbn [bind]. rewrite fold_min_step_entry_of.
  rewrite list_remove_entry_of; [reflexivity|].
  destruct (fold_fmin_step (first :: w) first) as [[-> | H] _]; [now left | exact H].
Qed.

Lemma forest_leaves_perm w w' :
  Permutation w w' -> Permutation (forest_leaves w) (forest_leaves w').
Proof.
  unfold forest_leaves. induction 1; cbn [map concat].
  - constructor.
  - now apply Permutation_app_head.
  - rewrite !app_assoc. apply Permutation_app_tail, Permutation_app_comm.
  - eapply perm_trans; eauto.
Qed.

Lemma forest_leaves_app w w' :
  forest_leaves (w ++ w') = forest_leaves w ++ forest_leaves w'.
Proof. unfold forest_leaves. now rewrite map_app, concat_app. Qed.

Lemma forest_leaves_cons e w :
  forest_leaves (e :: w) = leaves (fst e) ++ forest_leaves w.
Proof. reflexivity. Qed.

(** One round of the builder: two entries of least weight leave the
    forest and their union enters it at the end. *)
Lemma build_step w :
  (2 <= length w)%nat ->
  exists x w1 y w2,
    pick_min w = Some (x, w1) /\ pick_min w1 = Some (y, w2)
    /\ Permutation w (x :: y :: w2)
    /\ (forall e, In e w -> snd x <= snd e)
    /\ (forall e, In e w1 -> snd y <= snd e)
    /\ Permutation w (x :: w1)
    /\ length w2 = (length w - 2)%nat.
Proof.
  intros Hl.
  destruct (pick_min_spec w) as [x [w1 [E1 [P1 M1]]]].
  { destruct w; cbn in Hl; [lia | discriminate]. }
  assert (L1 : length w = S (length w1)) by (apply Permutation_length in P1; exact P1).
  destruct (pick_min_spec w1) as [y [w2 [E2 [P2 M2]]]].
  { destruct w1; cbn in L1; [lia | discriminate]. }
  assert (L2 : length w1 = S (length w2)) by (apply Permutation_length in P2; exact P2).
  exists x, w1, y, w2. repeat split; auto.
  - eapply perm_trans; [exact P1|]. now apply perm_skip.
  - lia.
Qed.

Lemma build_singleton fuel t wt : build fuel [(t, wt)] = Some t.
Proof. destruct fuel; reflexivity. Qed.

Lemma build_unfold fuel w x w1 y w2 :
  (2 <= length w)%nat ->
  pick_min w = Some (x, w1) -> pick_min w1 = Some (y, w2) ->
  build (S fuel) w = build fuel (w2 ++ [(FNode (fst x) (fst y), snd x + snd y)]).
Proof.
  intros Hl E1 E2. destruct w as [|e1 [|e2 w]]; cbn [length] in Hl; try lia.
  cbn [build]. destruct e1. rewrite E1, E2. reflexivity.
Qed.

(** The builder returns a tree when it has as many rounds as entries. *)
Lemma build_total : forall fuel w,
  w <> [] -> (length w <= fuel)%nat ->
  exists t, build fuel w = Some t.
Proof.
  induction fuel as [|fuel IH]; intros w Hne Hl.
  - destruct w; [congruence | cbn in Hl; lia].
  - destruct w as [|[t wt] [|e2 w]]; [congruence | eexists; reflexivity |].
    assert (Hl2 : (2 <= length ((t, wt) :: e2 :: w))%nat) by (cbn [length]; lia).
    destruct (build_step _ Hl2) as [x [w1 [y [w2 [E1 [E2 [_ [_ [_ [_ L]]]]]]]]]].
    rewrite (build_unfold _ _ _ _ _ _ Hl2 E1 E2).
    apply IH.
    + destruct w2; discriminate.
    + rewrite length_app. cbn [length] in *. lia.
Qed.

(** The tree has the symbols of the forest, and is not a leaf when the
    forest had two entries or more. *)
Lemma build_leaves : forall fuel w t,
  build fuel w = Some t ->
  Permutation (leaves t) (forest_leaves w)
  /\ ((2 <= length w)%nat \/ Forall (fun e => is_fnode (fst e) = true) w ->
      is_fnode t = true).
Proof.
  induction fuel as [|fuel IH]; intros w t H.
  - destruct w as [|[t0 wt] [|e2 w]]; try discriminate.
    cbn in H. inversion H; subst. split.
    + unfold forest_leaves. cbn. now rewrite app_nil_r.
    + intros [Hl | Hf]; [cbn in Hl; lia | now inversion Hf].
  - destruct w as [|[t0 wt] [|e2 w]]; [discriminate | |].
    + cbn in H. inversion H; subst. split.
      * unfold forest_leaves. cbn. now rewrite app_nil_r.
      * intros [Hl | Hf]; [cbn in Hl; lia | now inversion Hf].
    + assert (Hl2 : (2 <= length ((t0, wt) :: e2 :: w))%nat) by (cbn [length]; lia).
      destruct (build_step _ Hl2) as [x [w1 [y [w2 [E1 [E2 [P [_ [_ [_ L]]]]]]]]]].
      rewrite (build_unfold _ _ _ _ _ _ Hl2 E1 E2) in H.
      destruct (IH _ _ H) as [Hp Hf]. split.
      * eapply perm_trans; [exact Hp|].
        rewrite forest_leaves_app. symmetry.
        eapply perm_trans; [apply (forest_leaves_perm _ _ P)|].
        rewrite !forest_leaves_cons. cbn [fst leaves].
        change (forest_leaves []) with (@nil Z).
        rewrite app_nil_r, app_assoc. apply Permutation_app_comm.
      * intros _. apply Hf.
        destruct w2 as [|e w2]; [right; repeat constructor|].
        left. rewrite length_app. cbn [length]. lia.
Qed.

(** The loop of [huffman_tree] on the working list of a forest returns
    the node of the tree the builder makes of the forest. *)
Lemma huffman_loop_build : forall fuel w root,
  w <> [] -> (length w <= fuel)%nat ->
  (forall t wt, w = [(t, wt)] -> root = Some (embed t)) ->
  exists t, build fuel w = Some t
            /\ huffman_loop fuel (map entry_of w) root = Ok (embed t).
Proof.
  induction fuel as [|fuel IH]; intros w root Hne Hl Hroot.
  - destruct w; [congruence | cbn in Hl; lia].
  - destruct w as [|[t wt] [|e2 w]]; [congruence | |].
    + exists t. split; [reflexivity|].
      cbn [huffman_loop map]. unfold len. cbn [length Z.of_nat Z.eqb Pos.eqb].
      now rewrite (Hroot t wt eq_refl).
    + set (w0 := (t, wt) :: e2 :: w) in *.
      assert (Hl2 : (2 <= length w0)%nat) by (subst w0; cbn [length]; lia).
      destruct (build_step w0 Hl2) as [x [w1 [y [w2 [E1 [E2 [_ [_ [_ [_ L]]]]]]]]]].
      rewrite (build_unfold _ _ _ _ _ _ Hl2 E1 E2).
      cbn [huffman_loop].
      replace (len (map entry_of w0) =? 1) with false.
      2:{ symmetry. apply Z.eqb_neq. unfold len. rewrite length_map. lia. }
      rewrite take_min_entry_of, E1. cbn [bind].
      rewrite take_min_entry_of, E2. cbn [bind].
      change (fst (entry_of x)) with (key_of (fst x)).
      change (fst (entry_of y)) with (key_of (fst y)).
      change (snd (entry_of x)) with (snd x).
      change (snd (entry_of y)) with (snd y).
      rewrite !as_node_key_of.
      set (new := (FNode (fst x) (fst y), snd x + snd y)).
      destruct (IH (w2 ++ [new]) (Some (mk_node None (Some (embed (fst x))) (Some (embed (fst y))))))
        as [t' [B H]].
      * destruct w2; discriminate.
      * rewrite length_app. cbn [length]. lia.
      * intros t1 wt1 E. destruct w2 as [|? [|? ?]]; try discriminate.
        inversion E; subst. reflexivity.
      * exists t'. split; [exact B|].
        rewrite map_app in H. exact H.
Qed.

(** [huffman_tree] on a table of two symbols or more. *)
Lemma huffman_tree_build freq_dict :
  (2 <= length freq_dict)%nat ->
  exists t, build (S (length freq_dict)) (leaf_forest freq_dict) = Some t
            /\ huffman_tree freq_dict = Ok (embed t)
            /\ is_fnode t = true
            /\ Permutation (leaves t) (map fst freq_dict).
Proof.
  intros Hl. unfold huffman_tree.
  set (freq := map (fun kv => (KSym (fst kv), snd kv)) freq_dict).
  assert (Ef : freq = map entry_of (leaf_forest freq_dict)).
  { unfold freq, leaf_forest. rewrite map_map. reflexivity. }
  assert (Hlen : length freq = length freq_dict) by (unfold freq; now rewrite length_map).
  replace (len freq =? 1) with false.
  2:{ symmetry. apply Z.eqb_neq. unfold len. lia. }
  rewrite Hlen, Ef.
  destruct (huffman_loop_build (S (length freq_dict)) (leaf_forest freq_dict) None)
    as [t [B H]].
  - destruct freq_dict; [cbn in Hl; lia | discriminate].
  - unfold leaf_forest. rewrite length_map. lia.
  - intros t wt E. apply (f_equal (@length _)) in E.
    unfold leaf_forest in E. rewrite length_map in E. cbn in E. lia.
  - exists t. split; [exact B|]. split; [exact H|].
    destruct (build_leaves _ _ _ B) as [Hp Hf]. split.
    + apply Hf. left. unfold leaf_forest. now rewrite length_map.
    + eapply perm_trans; [exact Hp|].
      unfold forest_leaves, leaf_forest. rewrite map_map. cbn [fst leaves].
      clear. induction freq_dict as [|[k v] d IH]; cbn [map concat app fst]; auto.
Qed.

(** ** The code table of a full tree is a prefix code *)

Lemma paths_bits t : forall e, In e (paths t) -> is_bits (snd e).
Proof.
  induction t as [s|l IHl r IHr]; intros e He.
  - destruct He as [<- | []]. constructor.
  - cbn [paths] in He. unfold prefix_codes in He.
    apply in_app_or in He as [He | He]; apply in_map_iff in He as [e' [<- He']];
      cbn [snd bits list_ascii_of_string app];
      (apply Forall_cons; [|first [now apply IHl | now apply IHr]]);
      [left | right]; reflexivity.
Qed.

Lemma paths_length t : forall e, In e (paths t) -> (length (snd e) <= height t)%nat.
Proof.
  induction t as [s|l IHl r IHr]; intros e He.
  - destruct He as [<- | []]. cbn. lia.
  - cbn [paths] in He. unfold prefix_codes in He. cbn [height].
    apply in_app_or in He as [He | He]; apply in_map_iff in He as [e' [<- He']];
      cbn [snd bits list_ascii_of_string app length].
    + specialize (IHl _ He'). lia.
    + specialize (IHr _ He'). lia.
Qed.

(** No path is a prefix of another one. *)
Lemma paths_prefix_free t : forall a b p q,
  In (a, p) (paths t) -> In (b, p ++ q) (paths t) -> q = [] /\ a = b.
Proof.
  induction t as [s|l IHl r IHr]; intros a b p q Ha Hb.
  - destruct Ha as [Ha | []], Hb as [Hb | []].
    inversion Ha; subst. cbn [app] in Hb. inversion Hb; subst. auto.
  - cbn [paths] in Ha, Hb. unfold prefix_codes in Ha, Hb.
    apply in_app_or in Ha as [Ha | Ha]; apply in_map_iff in Ha as [[a' p'] [Ea Ha]];
      apply in_app_or in Hb as [Hb | Hb]; apply in_map_iff in Hb as [[b' p''] [Eb Hb]];
      cbn [fst snd bits list_ascii_of_string app] in Ea, Eb;
      inversion Ea; subst; cbn [app] in Eb; inversion Eb; subst.
    + eapply IHl; eauto.
    + eapply IHr; eauto.
Qed.

Lemma paths_codes_nodup t : NoDup (leaves t) -> NoDup (map snd (paths t)).
Proof.
  induction t as [s|l IHl r IHr]; intros Hn.
  - repeat constructor. intros [].
  - cbn [leaves] in Hn. cbn [paths]. unfold prefix_codes.
    rewrite map_app, !map_map. cbn [snd].
    assert (Hinj : forall (c : ascii) (m : list str),
               NoDup m -> NoDup (map (fun x => c :: x) m)).
    { intros c m Hm. induction Hm as [|x m Hx _ IH]; cbn [map]; constructor; auto.
      rewrite in_map_iff. intros [y [E Hy]]. inversion E; subst. contradiction. }
    assert (El : map (fun x : option Z * str => bits "0" ++ snd x) (paths l)
                 = map (fun x => "0"%char :: x) (map snd (paths l))).
    { rewrite map_map. reflexivity. }
    assert (Er : map (fun x : option Z * str => bits "1" ++ snd x) (paths r)
                 = map (fun x => "1"%char :: x) (map snd (paths r))).
    { rewrite map_map. reflexivity. }
    rewrite El, Er. clear El Er.
    pose proof (Hinj "0"%char _ (IHl (NoDup_app_l _ _ Hn))) as H0.
    pose proof (Hinj "1"%char _ (IHr (NoDup_app_r _ _ Hn))) as H1.
    clear - H0 H1. revert H0.
    induction (map snd (paths l)) as [|x m IH]; cbn [map app]; intros H0; [exact H1|].
    inversion H0; subst. constructor; [|auto].
    rewrite in_app_iff. intros [H | H]; [contradiction|].
    apply in_map_iff in H as [y [E _]]. discriminate.
Qed.

(** ** The reversed code table *)

Lemma make_reverse_swap codes :
  NoDup (map snd codes) ->
  make_reverse codes = map (fun kv => (snd kv, fst kv)) codes.
Proof.
  unfold make_reverse. intros Hn.
  assert (G : forall rev,
             (forall k, In k (map snd codes) -> ~ In k (map fst rev)) ->
             fold_left (fun rev kv => dict_set str_eqb rev (snd kv) (fst kv)) codes rev
             = rev ++ map (fun kv => (snd kv, fst kv)) codes).
  { induction codes as [|[a c] codes IH]; intros rev Hd; cbn [fold_left map fst snd].
    - now rewrite app_nil_r.
    - cbn [map snd] in Hn. inversion Hn as [|? ? Hc Hn']; subst.
      rewrite (dict_set_new str_eqb str_eqb_eq) by (apply Hd; now left).
      rewrite IH; [now rewrite <- app_assoc | exact Hn' |].
      intros k Hk. rewrite map_app, in_app_iff. cbn [map fst In].
      intros [H | [<- | []]]; [|contradiction].
      apply (Hd k); [now right | exact H]. }
  apply (G []). intros k _ [].
Qed.

Lemma make_reverse_find codes a c :
  NoDup (map snd codes) ->
  (dict_find str_eqb (make_reverse codes) c = Some a <-> In (a, c) codes).
Proof.
  intros Hn. rewrite (make_reverse_swap _ Hn). split.
  - intros H. apply (dict_find_some_in str_eqb str_eqb_eq) in H.
    apply in_map_iff in H as [[a' c'] [E H]]. now inversion E; subst.
  - intros H. apply (dict_find_in str_eqb str_eqb_eq).
    + rewrite map_map. cbn [fst]. exact Hn.
    + apply in_map_iff. exists (a, c). auto.
Qed.

Lemma make_reverse_paths_prefix_free t :
  NoDup (leaves t) -> prefix_free (make_reverse (paths t)).
Proof.
  intros Hn p q a b Ha Hb.
  pose proof (paths_codes_nodup _ Hn) as Hc.
  apply (make_reverse_find _ _ _ Hc) in Ha, Hb.
  now destruct (paths_prefix_free _ _ _ _ _ Ha Hb).
Qed.

(** ** The unpacker on a stream of code words *)

Lemma slice_spec {A} (code future pre X : list A) c :
  code ++ future = pre ++ X ->
  (length pre <= c <= length code)%nat ->
  slice code (length pre) c = firstn (c - length pre) X.
Proof.
  intros E Hc. unfold slice.
  assert (Hs : skipn (length pre) code ++ future = X).
  { apply (f_equal (skipn (length pre))) in E.
    rewrite !skipn_app, skipn_all, Nat.sub_diag in E.
    replace (length pre - length code)%nat with 0%nat in E by lia.
    exact E. }
  rewrite <- Hs. rewrite firstn_app.
  replace (c - length pre - length (skipn (length pre) code))%nat with 0%nat
    by (rewrite length_skipn; lia).
  cbn [firstn]. now rewrite app_nil_r.
Qed.

Lemma words_bits_app a b : words_bits (a ++ b) = words_bits a ++ words_bits b.
Proof. unfold words_bits. now rewrite map_app, concat_app. Qed.

Lemma words_bits_cons w ws : words_bits (w :: ws) = snd w ++ words_bits ws.
Proof. reflexivity. Qed.

Section Unpack.
Variable reverse : list (list ascii * option Z).
Hypothesis Hpf : prefix_free reverse.

Lemma proper_prefix_not_code w a k :
  dict_find str_eqb reverse w = Some a -> (k < length w)%nat ->
  dict_mem str_eqb reverse (firstn k w) = false.
Proof.
  intros Hw Hk. unfold dict_mem.
  destruct (dict_find str_eqb reverse (firstn k w)) as [b|] eqn:E; [|reflexivity].
  rewrite <- (firstn_skipn k w) in Hw.
  pose proof (Hpf _ _ _ _ E Hw) as Hq.
  apply (f_equal (@length _)) in Hq. rewrite length_skipn in Hq. cbn in Hq. lia.
Qed.

(** The innermost loop in front of a code word [w]: it stops at the end
    of [w] when [code] holds all of it, and runs out of bits otherwise. *)
Lemma scan_word code future pre w a rest : forall fuel counter,
  code ++ future = pre ++ w ++ rest ->
  dict_find str_eqb reverse w = Some a ->
  (length pre <= counter <= length pre + length w)%nat ->
  (counter <= length code)%nat ->
  (length code + 1 - counter < fuel)%nat ->
  scan_loop fuel reverse code (length pre) counter false
  = if (length pre + length w <=? length code)%nat
    then Ok ((length pre + length w)%nat, false)
    else Ok ((length code + 1)%nat, true).
Proof.
  induction fuel as [|fuel IH]; intros counter E Hw Hc Hcl Hf; [lia|].
  cbn [scan_loop negb andb].
  rewrite (slice_spec _ _ _ _ _ E) by lia.
  destruct (Nat.eq_dec counter (length pre + length w)) as [-> | Hne].
  - replace (length pre + length w - length pre)%nat with (length w) by lia.
    rewrite firstn_app, firstn_all, Nat.sub_diag. cbn [firstn]. rewrite app_nil_r.
    unfold dict_mem. rewrite Hw. cbn [negb].
    destruct (Nat.leb_spec (length pre + length w) (length code)); [reflexivity | lia].
  - rewrite firstn_app.
    replace (counter - length pre - length w)%nat with 0%nat by lia.
    cbn [firstn]. rewrite app_nil_r.
    rewrite (proper_prefix_not_code _ _ _ Hw) by lia. cbn [negb].
    destruct (Nat.ltb_spec (length code) (counter + 1)) as [Hlt | Hge].
    + destruct fuel; cbn [scan_loop negb andb];
        (destruct (Nat.leb_spec (length pre + length w) (length code)); [lia|]);
        do 2 f_equal; lia.
    + apply IH; auto; lia.
Qed.

(** The middle loop decodes the code words that [code] holds in full,
    and stops in front of the first one it does not hold. *)
Lemma symbol_loop_words size code future pad :
  forall ws fuel pre decode counter,
    (forall e, In e ws -> dict_find str_eqb reverse (snd e) = Some (fst e)) ->
    code ++ future = pre ++ words_bits ws ++ pad ->
    len decode + len ws = size ->
    (length pre <= counter <= length code)%nat -> (1 <= counter)%nat ->
    (forall w ws', ws = w :: ws' -> (counter <= length pre + length (snd w))%nat) ->
    (length ws < fuel)%nat ->
    exists ws1 ws2 counter' short',
      ws = ws1 ++ ws2
      /\ symbol_loop fuel reverse size code decode (length pre) counter false
         = Ok (decode ++ map fst ws1,
               (length pre + length (words_bits ws1))%nat, counter', short')
      /\ (length pre + length (words_bits ws1) <= length code)%nat
      /\ (ws2 = []
          \/ exists w ws2', ws2 = w :: ws2'
               /\ (length code < length pre + length (words_bits ws1) + length (snd w))%nat
               /\ counter' = (length code + 1)%nat).
Proof.
  induction ws as [|w ws IH]; intros fuel pre decode counter Hws E Hsize Hc H1 Hw Hf.
  - exists [], [], counter, false. split; [reflexivity|].
    destruct fuel; [cbn in Hf; lia|].
    cbn [symbol_loop negb andb map words_bits concat length].
    unfold len in *. cbn [length] in Hsize.
    replace (Z.of_nat (length decode) <? size) with false
      by (symmetry; apply Z.ltb_ge; lia).
    rewrite app_nil_r, Nat.add_0_r. split; [reflexivity|]. split; [lia | now left].
  - destruct fuel as [|fuel]; [lia|]. cbn [length] in Hf.
    cbn [symbol_loop negb andb].
    replace (len decode <? size) with true.
    2:{ symmetry. apply Z.ltb_lt. unfold len in *. cbn [length] in Hsize. lia. }
    rewrite words_bits_cons, <- app_assoc in E.
    assert (Hfw : dict_find str_eqb reverse (snd w) = Some (fst w))
      by (apply Hws; now left).
    specialize (Hw w ws eq_refl).
    rewrite (scan_word _ _ _ _ _ _ (S (length code)) counter E Hfw) by lia.
    destruct (Nat.leb_spec (length pre + length (snd w)) (length code)) as [Hfit | Hshort].
    + cbn [bind negb].
      rewrite (slice_spec _ _ _ _ _ E) by lia.
      replace (length pre + length (snd w) - length pre)%nat with (length (snd w)) by lia.
      rewrite firstn_app, firstn_all, Nat.sub_diag. cbn [firstn]. rewrite app_nil_r.
      unfold dict_get. rewrite Hfw. cbn [bind].
      destruct (IH fuel (pre ++ snd w) (decode ++ [fst w]) (length pre + length (snd w))%nat)
        as [ws1 [ws2 [c' [s' [Hsplit [Hrun [Hle Hrest]]]]]]].
      * intros e He. apply Hws. now right.
      * rewrite <- app_assoc. exact E.
      * rewrite len_app. unfold len in *. cbn [length] in *. lia.
      * rewrite length_app. lia.
      * lia.
      * intros w' ws' _. rewrite length_app. lia.
      * lia.
      * rewrite length_app in Hrun, Hle, Hrest.
        exists (w :: ws1), ws2, c', s'. split; [cbn [app]; now rewrite Hsplit|].
        split; [|split].
        -- rewrite Hrun. cbn [map]. rewrite words_bits_cons, length_app.
           rewrite <- app_assoc. cbn [app]. do 4 f_equal. lia.
        -- rewrite words_bits_cons, length_app. lia.
        -- destruct Hrest as [-> | [w' [ws2' [-> [Hlt ->]]]]]; [now left|].
           right. exists w', ws2'. split; [reflexivity|]. split; [|reflexivity].
           rewrite words_bits_cons, length_app. lia.
    + cbn [bind negb].
      exists [], (w :: ws), (length code + 1)%nat, true.
      split; [reflexivity|].
      cbn [map words_bits concat length]. rewrite app_nil_r, Nat.add_0_r.
      split; [|split; [lia|]].
      * destruct fuel; reflexivity.
      * right. exists w, ws. repeat split. lia.
Qed.
End Unpack.

Lemma byte_to_bits_byte_bits b :
  byte_to_bits b = Ok (byte_bits b) /\ length (byte_bits b) = 8%nat
  /\ is_bits (byte_bits b).
Proof.
  unfold byte_bits. destruct (byte_to_bits_total b) as [s [-> [Hl Hb]]]. auto.
Qed.

Lemma firstn_snoc {A} (l : list A) i b :
  nth_error l i = Some b -> firstn (S i) l = firstn i l ++ [b].
Proof.
  revert i. induction l as [|a l IH]; intros [|i] H; try discriminate.
  - cbn in H. inversion H. reflexivity.
  - cbn [nth_error] in H.
    change (firstn (S (S i)) (a :: l)) with (a :: firstn (S i) l).
    now rewrite (IH _ H).
Qed.

Lemma unpacked_app a b : unpacked (a ++ b) = unpacked a ++ unpacked b.
Proof. unfold unpacked. now rewrite map_app, concat_app. Qed.

Lemma unpacked_length text : length (unpacked text) = (8 * length text)%nat.
Proof.
  induction text as [|b text IH]; [reflexivity|].
  change (unpacked (b :: text)) with (byte_bits b ++ unpacked text).
  destruct (byte_to_bits_byte_bits b) as [_ [Hl _]].
  rewrite length_app, Hl, IH. cbn [length]. lia.
Qed.

Section UnpackText.
Variable reverse : list (list ascii * option Z).
Hypothesis Hpf : prefix_free reverse.
Variable text : list Z.
Variable ws_all : list (option Z * list ascii).
Variable pad : list ascii.
Variable size : Z.
Hypothesis Hall : forall e, In e ws_all -> dict_find str_eqb reverse (snd e) = Some (fst e).
Hypothesis Hstream : unpacked text = words_bits ws_all ++ pad.
Hypothesis Hsize : size = len ws_all.

(** The outer loop, started anywhere between two bytes of the packed
    text, ends with all the symbols decoded. *)
Lemma byte_loop_words : forall fuel i done rem counter short,
  ws_all = done ++ rem ->
  (i <= length text)%nat ->
  (length (words_bits done) <= length (unpacked (firstn i text)))%nat ->
  (rem = []
   \/ exists w rem', rem = w :: rem'
        /\ (length (unpacked (firstn i text))
            < length (words_bits done) + length (snd w))%nat
        /\ counter = (length (unpacked (firstn i text)) + 1)%nat) ->
  (length text - i <= fuel)%nat ->
  exists st',
    byte_loop fuel reverse text size
              (mkDstate (unpacked (firstn i text)) (map fst done) i
                        (length (words_bits done)) counter short)
    = Ok st'
    /\ d_decode st' = map fst ws_all.
Proof.
  induction fuel as [|fuel IH]; intros i done rem counter short Hsplit Hi Hstart Hrem Hf.
  - destruct Hrem as [-> | [w [rem' [-> [Hlt _]]]]].
    + rewrite app_nil_r in Hsplit. subst done.
      eexists. split.
      { cbn [byte_loop d_decode d_index].
        replace (len (map fst ws_all) <? size) with false; [reflexivity|].
        symmetry. apply Z.ltb_ge. unfold len. rewrite length_map.
        unfold len in Hsize. lia. }
      reflexivity.
    + exfalso. assert (i = length text) by lia. subst i.
      rewrite firstn_all, Hstream, Hsplit in Hlt.
      rewrite words_bits_app, words_bits_cons, !length_app in Hlt. lia.
  - destruct Hrem as [-> | [w [rem' [-> [Hlt Hcnt]]]]].
    + rewrite app_nil_r in Hsplit. subst done.
      eexists. split.
      { cbn [byte_loop d_decode d_index].
        replace (len (map fst ws_all) <? size) with false; [reflexivity|].
        symmetry. apply Z.ltb_ge. unfold len. rewrite length_map.
        unfold len in Hsize. lia. }
      reflexivity.
    + destruct (Nat.eq_dec i (length text)) as [-> | Hne].
      { exfalso. rewrite firstn_all, Hstream, Hsplit in Hlt.
        rewrite words_bits_app, words_bits_cons, !length_app in Hlt. lia. }
      cbn [byte_loop d_decode d_index d_code d_start d_counter].
      replace (len (map fst done) <? size) with true.
      2:{ symmetry. apply Z.ltb_lt. unfold len. rewrite length_map, Hsize, Hsplit.
          unfold len. rewrite length_app. cbn [length]. lia. }
      replace (Z.of_nat i <? len text) with true
        by (symmetry; apply Z.ltb_lt; unfold len; lia).
      cbn [andb].
      destruct (py_index_nat text i ltac:(lia)) as [b [Hnth Hb]].
      rewrite Hb. cbn [bind].
      destruct (byte_to_bits_byte_bits b) as [Hbits [Hl8 _]].
      rewrite Hbits. cbn [bind].
      assert (Hcode : unpacked (firstn i text) ++ byte_bits b = unpacked (firstn (S i) text)).
      { rewrite (firstn_snoc _ _ _ Hnth), unpacked_app.
        unfold unpacked at 3. cbn [map concat]. now rewrite app_nil_r. }
      rewrite Hcode.
      assert (E : unpacked (firstn (S i) text) ++ unpacked (skipn (S i) text)
                  = words_bits done ++ words_bits (w :: rem') ++ pad).
      { rewrite <- unpacked_app, firstn_skipn, Hstream, Hsplit, words_bits_app.
        now rewrite <- app_assoc. }
      destruct (symbol_loop_words reverse Hpf size (unpacked (firstn (S i) text))
                  (unpacked (skipn (S i) text)) pad (w :: rem')
                  (S (Z.to_nat size)) (words_bits done) (map fst done) counter)
        as [ws1 [ws2 [c' [s' [Hsp [Hrun [Hle Hrest]]]]]]]; try exact E.
      * intros e He. apply Hall. rewrite Hsplit. apply in_or_app. now right.
      * rewrite Hsize, Hsplit. unfold len. rewrite length_map, length_app. lia.
      * rewrite <- Hcode, length_app, Hl8. lia.
      * lia.
      * intros w0 ws' Ew. inversion Ew; subst. lia.
      * rewrite Hsize, Hsplit. unfold len. rewrite length_app. lia.
      * rewrite Hrun. cbn [bind].
        rewrite <- map_app, <- length_app, <- words_bits_app.
        replace (i + 1)%nat with (S i) by lia.
        apply (IH (S i) (done ++ ws1) ws2 c' s').
        -- rewrite Hsplit, Hsp. now rewrite app_assoc.
        -- lia.
        -- rewrite words_bits_app, length_app. exact Hle.
        -- destruct Hrest as [-> | [w' [ws2' [-> [Hlt' ->]]]]]; [now left|].
           right. exists w', ws2'. split; [reflexivity|].
           rewrite words_bits_app, length_app. split; [exact Hlt' | reflexivity].
        -- lia.
Qed.
End UnpackText.

(** The unpacker on the bits of a text coded with the table of the
    tree, followed by any padding, returns the text. *)
Lemma generate_uncompressed_words tree codes packed_text text pad :
  get_codes (Some tree) = Ok codes ->
  NoDup (map snd codes) ->
  prefix_free (make_reverse codes) ->
  (forall b, In b text -> is_byte b /\ In (Some b, code_of codes b) codes
                          /\ code_of codes b <> []) ->
  unpacked packed_text = code_stream codes text ++ pad ->
  generate_uncompressed tree packed_text (len text) = Ok text.
Proof.
  intros Hc Hn Hpf Htext Hs.
  unfold generate_uncompressed. rewrite Hc. cbn [bind].
  destruct (byte_loop_words (make_reverse codes) Hpf packed_text
              (words_of codes text) pad (len text)) with
      (fuel := length packed_text) (i := 0%nat) (done := @nil (option Z * list ascii))
      (rem := words_of codes text) (counter := 1%nat) (short := false)
    as [st' [Hrun Hdec]].
  - intros e He. unfold words_of in He. apply in_map_iff in He as [b [<- Hb]].
    cbn [fst snd]. apply make_reverse_find; [exact Hn|]. now apply Htext.
  - rewrite Hs. f_equal. unfold words_bits, words_of, code_stream.
    now rewrite map_map.
  - unfold words_of, len. now rewrite length_map.
  - reflexivity.
  - lia.
  - cbn. lia.
  - destruct text as [|b text]; [now left|].
    right. exists (Some b, code_of codes b), (words_of codes text).
    split; [reflexivity|]. cbn [firstn unpacked map concat length words_bits snd].
    split; [|reflexivity].
    destruct (Htext b (or_introl eq_refl)) as [_ [_ Hne]].
    destruct (code_of codes b); [congruence | cbn [length]; lia].
  - lia.
  - cbn [firstn map words_bits concat length] in Hrun.
    change (unpacked []) with (@nil ascii) in Hrun.
    rewrite Hrun. cbn [bind]. rewrite Hdec.
    unfold words_of. rewrite map_map. cbn [fst].
    apply to_bytes_some. apply Forall_forall. intros b Hb. now apply Htext.
Qed.

(** ** Packed bytes read back as bits *)

Lemma byte_bits_value s :
  is_bits s -> (length s <= 8)%nat ->
  byte_bits (byte_value s) = s ++ repeat "0"%char (8 - length s).
Proof.
  intros Hs Hl.
  do 9 (destruct s as [|? s];
        [ repeat match goal with
                 | H : is_bits (_ :: _) |- _ => inversion H; subst; clear H
                 | H : Forall is_bit_char (_ :: _) |- _ => inversion H; subst; clear H
                 end;
          repeat match goal with
                 | H : is_bit_char _ |- _ => destruct H; subst
                 end;
          vm_compute; reflexivity
        | ]).
  cbn [length] in Hl. lia.
Qed.

Lemma unpacked_pack_spec : forall n s,
  (length s <= n)%nat -> is_bits s -> exists pad, unpacked (pack_spec s) = s ++ pad.
Proof.
  induction n as [|n IH]; intros s Hl Hs.
  - destruct s; [|cbn in Hl; lia]. exists []. reflexivity.
  - destruct (le_lt_dec 8 (length s)) as [H8 | H8].
    + rewrite <- (firstn_skipn 8 s) in Hs |- *. apply is_bits_app in Hs as [Hf Hr].
      assert (Hlf : length (firstn 8 s) = 8%nat) by (rewrite length_firstn; lia).
      destruct (IH (skipn 8 s)) as [pad Hp]; [rewrite length_skipn; lia | exact Hr |].
      exists pad. rewrite pack_spec_chunk by exact Hlf.
      change (unpacked (?b :: ?l)) with (byte_bits b ++ unpacked l).
      rewrite byte_bits_value, Hp, Hlf by (auto; lia).
      cbn [Nat.sub repeat]. now rewrite app_nil_r, <- app_assoc.
    + destruct s as [|c s]; [exists []; reflexivity|].
      rewrite pack_spec_short by (cbn [length] in *; lia).
      exists (repeat "0"%char (8 - length (c :: s))).
      change (unpacked [?b]) with (byte_bits b ++ []).
      rewrite app_nil_r. apply byte_bits_value; [exact Hs | lia].
Qed.

Lemma unpacked_packed s :
  is_bits s -> exists pad, unpacked (packed s) = s ++ pad.
Proof.
  intros Hs. destruct s as [|c s].
  - eexists. cbn [packed app]. reflexivity.
  - apply (unpacked_pack_spec (length (c :: s))); auto.
Qed.

(** ** The container *)

Lemma leaves_length t : length (leaves t) = S (internal t).
Proof.
  induction t as [s|l IHl r IHr]; [reflexivity|].
  cbn [leaves internal]. rewrite length_app, IHl, IHr. lia.
Qed.

Lemma height_le_internal t : (height t <= internal t)%nat.
Proof. induction t as [s|l IHl r IHr]; cbn [height internal]; lia. Qed.

Lemma all_bytes_length : length all_bytes = 256%nat.
Proof. unfold all_bytes. now rewrite length_map, length_seq. Qed.

Lemma distinct_bytes_length l :
  NoDup l -> Forall is_byte l -> (length l <= 256)%nat.
Proof.
  intros Hn Hb. rewrite <- all_bytes_length. apply NoDup_incl_length; [exact Hn|].
  intros b Hin. apply all_bytes_complete. rewrite Forall_forall in Hb. auto.
Qed.

Lemma dict_find_key {K V} (eqb : K -> K -> bool)
      (eqb_eq : forall a b, eqb a b = true <-> a = b) (d : list (K * V)) k :
  In k (map fst d) -> exists v, dict_find eqb d k = Some v /\ In (k, v) d.
Proof.
  induction d as [|[k' v'] d IH]; cbn [map fst In dict_find]; intros H; [tauto|].
  destruct (eqb k' k) eqn:E.
  - apply eqb_eq in E. subst. exists v'. split; [reflexivity | now left].
  - destruct H as [-> | H].
    + assert (eqb k k = true) by now apply eqb_eq. congruence.
    + destruct (IH H) as [v [Hf Hin]]. exists v. split; [exact Hf | now right].
Qed.

Lemma paths_nonempty t e : is_fnode t = true -> In e (paths t) -> snd e <> [].
Proof.
  destruct t as [s|l r]; [discriminate|]. intros _ He.
  cbn [paths] in He. unfold prefix_codes in He.
  apply in_app_or in He as [He | He]; apply in_map_iff in He as [e' [<- _]];
    discriminate.
Qed.

(** Every byte with a leaf in the tree has a code in its table. *)
Lemma paths_code_of t b :
  In b (leaves t) ->
  In (Some b, code_of (paths t) b) (paths t)
  /\ dict_find sym_eqb (paths t) (Some b) = Some (code_of (paths t) b).
Proof.
  intros Hb. unfold code_of.
  destruct (dict_find_key sym_eqb sym_eqb_eq (paths t) (Some b)) as [c [Hf Hin]].
  - rewrite paths_keys. now apply in_map.
  - rewrite Hf. auto.
Qed.

Lemma paths_covered t text :
  (forall b, In b text -> In b (leaves t)) ->
  covered (height t) (paths t) text = true.
Proof.
  intros H. unfold covered. apply forallb_forall. intros b Hb.
  destruct (paths_code_of t b (H b Hb)) as [Hin Hf]. rewrite Hf.
  apply andb_true_intro. split.
  - apply is_bitsb_spec. apply (paths_bits t _ Hin).
  - apply Nat.leb_le. apply (paths_length t _ Hin).
Qed.

Lemma covered_weaken n m codes text :
  (forall e, In e codes -> (length (snd e) <= m)%nat) ->
  covered n codes text = true -> covered m codes text = true.
Proof.
  unfold covered. rewrite !forallb_forall. intros Hm H b Hb.
  specialize (H b Hb).
  destruct (dict_find sym_eqb codes (Some b)) as [c|] eqn:F; [|discriminate].
  apply andb_prop in H as [H1 _]. rewrite H1. cbn [andb].
  apply Nat.leb_le.
  apply (Hm (Some b, c)). apply (dict_find_some_in sym_eqb sym_eqb_eq). exact F.
Qed.

(** [avg_length] finds the count and the code of every symbol of the
    tree and divides by a positive total. *)
Lemma avg_loop_total freq_dict codes : forall keys total avg,
  (forall k, In k keys ->
             exists b f c, k = Some b /\ dict_find Z.eqb freq_dict b = Some f /\ 1 <= f
                           /\ dict_find sym_eqb codes k = Some c) ->
  exists total' avg',
    avg_loop freq_dict codes keys total avg = Ok (total', avg')
    /\ total + len keys <= total'.
Proof.
  induction keys as [|k keys IH]; intros total avg H.
  - exists total, avg. split; [reflexivity|]. unfold len. cbn [length]. lia.
  - destruct (H k (or_introl eq_refl)) as [b [f [c [-> [Hf [H1 Hc]]]]]].
    cbn [avg_loop]. unfold dict_get. rewrite Hf, Hc. cbn [bind].
    destruct (IH (total + f) (avg + len c * f)) as [t' [a' [E Hle]]].
    { intros k' Hk'. apply H. now right. }
    exists t', a'. split; [exact E|]. unfold len in *. cbn [length]. lia.
Qed.

Lemma avg_length_total t n freq_dict :
  is_fnode t = true -> NoDup (leaves t) ->
  (forall b, In b (leaves t) -> In b (map fst freq_dict)) ->
  (forall e, In e freq_dict -> 1 <= snd e) ->
  exists r, avg_length (embed_opt t n) freq_dict = Ok r.
Proof.
  intros Hf Hn Hin Hpos. unfold avg_length. cbn [get_codes].
  rewrite get_codes_node_paths by auto. cbn [bind].
  destruct (avg_loop_total freq_dict (paths t) (map fst (paths t)) 0 0)
    as [total [avg [E Hle]]].
  - intros k Hk. rewrite paths_keys in Hk. apply in_map_iff in Hk as [b [<- Hb]].
    destruct (dict_find_key Z.eqb Z.eqb_eq freq_dict b (Hin b Hb)) as [f [Hff Hfin]].
    destruct (paths_code_of t b Hb) as [_ Hc].
    exists b, f, (code_of (paths t) b). repeat split; auto.
    apply (Hpos (b, f) Hfin).
  - rewrite E. cbn [bind].
    assert (1 <= total).
    { unfold len in Hle. rewrite length_map in Hle.
      assert (In (Some 0, @nil ascii) (paths t) -> False) by
        (intros Hx; now apply (paths_nonempty t _ Hf) in Hx).
      pose proof (leaves_length t). pose proof (paths_keys t) as Hk.
      apply (f_equal (@length _)) in Hk. rewrite !length_map in Hk. lia. }
    destruct (total =? 0) eqn:Z0; [blia|]. eauto.
Qed.

Lemma le_bytes_spec k : forall n,
  0 <= n < 256 ^ Z.of_nat k ->
  Forall is_byte (le_bytes k n) /\ length (le_bytes k n) = k
  /\ bytes_to_size (le_bytes k n) = n.
Proof.
  induction k as [|k IH]; intros n Hn.
  - cbn in *. repeat split; [constructor | lia].
  - rewrite Nat2Z.inj_succ, Z.pow_succ_r in Hn by lia.
    destruct (IH (n / 256)) as [Hb [Hl Hv]].
    { split; [apply Z.div_pos; lia | apply Z.div_lt_upper_bound; lia]. }
    cbn [le_bytes bytes_to_size length]. split; [|split].
    + constructor; [|exact Hb]. unfold is_byte. apply Z.mod_pos_bound. lia.
    + now rewrite Hl.
    + rewrite Hv. rewrite (Z.div_mod n 256) at 3 by lia. lia.
Qed.

Lemma size_to_bytes_ok size c :
  size_to_bytes size = Ok c ->
  0 <= size < 2 ^ 32 /\ c = le_bytes 4 size.
Proof.
  unfold size_to_bytes.
  destruct (size <? 0) eqn:E1; [discriminate|].
  destruct (2 ^ 32 <=? size) eqn:E2; [discriminate|].
  cbn [orb]. intros H. inversion H. split; [blia | reflexivity].
Qed.

Lemma read_app {A} (a b : list A) n :
  n = len a -> read n (a ++ b) = (a, b).
Proof.
  intros ->. unfold read, len. rewrite Nat2Z.id.
  rewrite firstn_app, skipn_app, firstn_all, skipn_all, Nat.sub_diag.
  cbn [firstn skipn app]. now rewrite app_nil_r.
Qed.

(** [compress] on a text with two distinct bytes or more: the tree is a
    full tree over the bytes of the text, and only the size field and
    the packer can still raise. *)
Lemma compress_two text :
  is_bytes text -> (2 <= length (make_freq_dict text))%nat ->
  exists t,
    is_fnode t = true /\ NoDup (leaves t) /\ Forall is_byte (leaves t)
    /\ (forall b, In b (leaves t) <-> In b text)
    /\ (internal t <= 255)%nat
    /\ (S (internal t) = length (make_freq_dict text))
    /\ huffman_tree (make_freq_dict text) = Ok (embed t)
    /\ compress text
       = (c <- size_to_bytes (len text) ;;
          d <- generate_compressed text (paths t) ;;
          Ok ([Z.of_nat (internal t)] ++ flat (records t 0) ++ c ++ d)).
Proof.
  intros Hb Hl.
  destruct (make_freq_dict_spec text) as [Hn [Hk Hpos]].
  destruct (huffman_tree_build _ Hl) as [t [_ [Ht [Hf Hp]]]].
  assert (Hnl : NoDup (leaves t)).
  { eapply Permutation_NoDup; [symmetry; exact Hp | exact Hn]. }
  assert (Hin : forall b, In b (leaves t) <-> In b text).
  { intros b. rewrite <- Hk. split; apply Permutation_in; [exact Hp | symmetry; exact Hp]. }
  assert (Hbl : Forall is_byte (leaves t)).
  { apply Forall_forall. intros b Hbt. apply Hin in Hbt.
    unfold is_bytes in Hb. rewrite Forall_forall in Hb. auto. }
  assert (Hi : (internal t <= 255)%nat).
  { pose proof (distinct_bytes_length _ Hnl Hbl). rewrite leaves_length in H. lia. }
  exists t. repeat (split; [assumption|]).
  split.
  { rewrite <- leaves_length. apply Permutation_length in Hp.
    now rewrite Hp, length_map. }
  split; [exact Ht|].
  unfold compress. rewrite Ht. cbn [bind get_codes].
  unfold embed at 1. rewrite get_codes_node_paths by auto. cbn [bind].
  rewrite number_nodes_embed. cbn [bind].
  destruct (avg_length_total t (Some 0) (make_freq_dict text) Hf Hnl) as [r Hr].
  { intros b Hbt. apply Hk. now apply Hin. }
  { exact Hpos. }
  unfold embed_num at 1. rewrite Hr. cbn [bind].
  rewrite tree_to_bytes_embed by (auto; lia).
  assert (Hnum : num_nodes_to_bytes (embed_num t 0) = Ok [Z.of_nat (internal t)]).
  { destruct t as [s|l r']; [discriminate|].
    unfold num_nodes_to_bytes, embed_num.
    cbn [embed_opt number shift option_map to_bytes internal] in *.
    replace (0 + Z.of_nat (internal l + internal r') + 1)
      with (Z.of_nat (internal l + internal r' + 1)) by lia.
    replace (is_byteb (Z.of_nat (internal l + internal r' + 1))) with true; [reflexivity|].
    symmetry. apply is_byteb_spec. unfold is_byte. lia. }
  rewrite Hnum. cbn [bind]. reflexivity.
Qed.

(** [uncompress] on the container of a full tree and a text over its
    symbols. *)
Lemma uncompress_container t text c d :
  is_fnode t = true -> NoDup (leaves t) -> is_bytes text ->
  (forall b, In b text -> In b (leaves t)) ->
  size_to_bytes (len text) = Ok c ->
  generate_compressed text (paths t) = Ok d ->
  uncompress ([Z.of_nat (internal t)] ++ flat (records t 0) ++ c ++ d) = Ok text.
Proof.
  intros Hf Hn Hb Hin Hc Hd.
  apply size_to_bytes_ok in Hc as [Hsize ->].
  destruct (le_bytes_spec 4 (len text) ltac:(exact Hsize)) as [_ [Hl4 Hv4]].
  unfold uncompress.
  rewrite (read_app [Z.of_nat (internal t)]) by reflexivity.
  change (py_index [Z.of_nat (internal t)] 0) with (Ok (Z.of_nat (internal t))).
  cbn [bind].
  rewrite read_app by (unfold len; rewrite flat_length, records_length; lia).
  rewrite bytes_to_nodes_flat. cbn [bind].
  unfold generate_tree_general_call.
  pose proof (generate_tree_general_records t [] [] (S (length (records t 0))) Hf) as Hg.
  rewrite records_length in Hg. specialize (Hg ltac:(lia)).
  cbn [app len length Z.of_nat] in Hg. rewrite app_nil_r in Hg.
  change (Z.of_nat 0) with 0 in Hg. rewrite Z.add_0_l in Hg.
  rewrite records_length. rewrite Hg. cbn [bind].
  rewrite read_app by (unfold len at 1; rewrite Hl4; reflexivity).
  rewrite Hv4.
  pose proof (paths_covered t text Hin) as Hcov.
  pose proof (generate_compressed_spec _ _ _ _ Hcov Hd) as ->.
  assert (Hbits : is_bits (code_stream (paths t) text)).
  { unfold code_stream. apply Forall_concat. apply Forall_forall.
    intros s Hs. apply in_map_iff in Hs as [b [<- Hbt]].
    destruct (paths_code_of t b (Hin b Hbt)) as [Hp _].
    apply (paths_bits t _ Hp). }
  destruct (unpacked_packed _ Hbits) as [pad Hpad].
  apply (generate_uncompressed_words (embed t) (paths t) _ text pad).
  - cbn [get_codes]. unfold embed. now apply get_codes_node_paths.
  - now apply paths_codes_nodup.
  - now apply make_reverse_paths_prefix_free.
  - intros b Hbt. unfold is_bytes in Hb. rewrite Forall_forall in Hb.
    destruct (paths_code_of t b (Hin b Hbt)) as [Hp _].
    split; [auto|]. split; [exact Hp|].
    apply (paths_nonempty t _ Hf Hp).
  - exact Hpad.
Qed.

Lemma huffman_tree_one s n :
  huffman_tree [(s, n)] = Ok (mk_node None (Some (mk_leaf (Some s))) None).
Proof. reflexivity. Qed.

Lemma compress_one text s n :
  make_freq_dict text = [(s, n)] -> compress text = Raise AttributeError.
Proof. intros H. unfold compress. rewrite H. reflexivity. Qed.

Lemma compress_none text :
  make_freq_dict text = [] -> compress text = Raise IndexError.
Proof. intros H. unfold compress. rewrite H. reflexivity. Qed.

(** The codes are short when the text has at most 9 distinct bytes. *)
Lemma short_codes_few text :
  is_bytes text ->
  (2 <= length (make_freq_dict text) <= 9)%nat -> short_codes text = true.
Proof.
  intros Hb [H2 H9].
  destruct (compress_two text Hb H2) as [t [Hf [Hn [_ [_ [_ [Hl [Ht _]]]]]]]].
  unfold short_codes. rewrite Ht. cbn [get_codes].
  unfold embed. rewrite get_codes_node_paths by auto.
  apply forallb_forall. intros e He. apply Nat.leb_le.
  pose proof (paths_length t e He). pose proof (height_le_internal t). lia.
Qed.

Lemma single_key (l : list Z) b :
  NoDup l -> l <> [] -> (forall x, In x l -> x = b) -> l = [b].
Proof.
  intros Hn Hne Hall. destruct l as [|x l]; [congruence|].
  assert (x = b) by (apply Hall; now left). subst x.
  destruct l as [|y l]; [reflexivity|].
  assert (y = b) by (apply Hall; right; now left). subst y.
  inversion Hn as [|? ? Hnot _]. exfalso. apply Hnot. now left.
Qed.

(** [compress] on a non-empty text of one byte value: the tree has no
    right child, and [get_codes] raises. *)
Lemma compress_one_value text b :
  text <> [] -> (forall x, In x text -> x = b) ->
  compress text = Raise AttributeError.
Proof.
  intros Hne Hall.
  destruct (make_freq_dict_spec text) as [Hn [Hk _]].
  assert (Hkeys : map fst (make_freq_dict text) = [b]).
  { apply single_key; [exact Hn | |].
    - destruct text as [|x text]; [congruence|]. intros E.
      assert (Hx : In x (map fst (make_freq_dict (x :: text))))
        by (apply Hk; now left).
      rewrite E in Hx. destruct Hx.
    - intros x Hx. apply Hall. now apply Hk. }
  destruct (make_freq_dict text) as [|[k v] [|e d]] eqn:E; try discriminate.
  apply (compress_one text k v E).
Qed.

(** [compress] on a text of two distinct bytes or more and fewer than
    [2 ** 32] bytes: the packer decides. *)
Lemma compress_two_exact text :
  is_bytes text -> (2 <= length (make_freq_dict text))%nat ->
  len text < 2 ^ 32 ->
  exists t d,
    is_fnode t = true /\ NoDup (leaves t)
    /\ (forall b, In b text -> In b (leaves t))
    /\ final_pending text = pending_bits (paths t) text 0
    /\ generate_compressed text (paths t) = d
    /\ compress text
       = (d' <- d ;;
          Ok ([Z.of_nat (internal t)] ++ flat (records t 0)
              ++ le_bytes 4 (len text) ++ d')).
Proof.
  intros Hb H2 Hlen.
  destruct (compress_two text Hb H2) as [t [Hf [Hn [_ [Hin [_ [_ [Ht E]]]]]]]].
  exists t, (generate_compressed text (paths t)).
  split; [exact Hf|]. split; [exact Hn|].
  split; [intros b; apply Hin|]. split.
  { unfold final_pending. rewrite Ht. cbn [get_codes]. unfold embed.
    now rewrite get_codes_node_paths. }
  split; [reflexivity|].
  rewrite E. unfold size_to_bytes.
  replace (len text <? 0) with false by (symmetry; apply Z.ltb_ge; unfold len; lia).
  replace (2 ^ 32 <=? len text) with false by (symmetry; apply Z.leb_gt; lia).
  reflexivity.
Qed.

(** A text with two to nine distinct bytes has codes of at most 8 bits,
    and its packing ends with at most 8 bits pending. *)
Lemma final_pending_few text :
  is_bytes text ->
  (2 <= length (make_freq_dict text) <= 9)%nat ->
  (final_pending text <= 8)%nat.
Proof.
  intros Hb H29.
  pose proof (short_codes_few text Hb H29) as Hs.
  destruct (compress_two text Hb ltac:(lia)) as [t [Hf [Hn [_ [Hin [_ [_ [Ht _]]]]]]]].
  unfold final_pending. unfold short_codes in Hs. rewrite Ht in Hs |- *.
  cbn [get_codes] in Hs |- *. unfold embed in Hs |- *.
  rewrite get_codes_node_paths in Hs |- * by auto.
  apply pending_bits_short; [|lia].
  apply (covered_weaken (height t)); [|apply paths_covered; intros b; apply Hin].
  rewrite forallb_forall in Hs. intros e He. apply Nat.leb_le. auto.
Qed.

(** C1 on the code.  Whenever [compress] returns a container for a byte
    buffer, [uncompress] returns the buffer from it.  For a buffer of
    two distinct byte values or more and fewer than 2^32 bytes,
    [compress] returns a container, and the round trip holds, when the
    packer ends with at most 8 bits pending; when it ends with more,
    [compress] raises [ValueError].  For a non-empty buffer of one
    repeated byte value [compress] raises [AttributeError] (the tree of
    one symbol has no right child), so that there is no container to
    decompress. *)
Theorem compress_uncompress_roundtrip (text : list Z) :
  is_bytes text ->
  (forall c, compress text = Ok c -> uncompress c = Ok text)
  /\ ((2 <= length (make_freq_dict text))%nat -> len text < 2 ^ 32 ->
      ((final_pending text <= 8)%nat ->
       exists c, compress text = Ok c /\ uncompress c = Ok text)
      /\ ((8 < final_pending text)%nat -> compress text = Raise ValueError))
  /\ (forall b, text <> [] -> (forall x, In x text -> x = b) ->
                compress text = Raise AttributeError).
Proof.
  intros Hb.
  assert (Hround : forall c, compress text = Ok c -> uncompress c = Ok text).
  { intros c Hc.
    destruct (make_freq_dict text) as [|[s n] [|e2 freq]] eqn:Hfreq.
    - rewrite (compress_none _ Hfreq) in Hc. discriminate.
    - rewrite (compress_one _ _ _ Hfreq) in Hc. discriminate.
    - destruct (compress_two text Hb) as [t [Hf [Hn [_ [Hin [_ [_ [_ E]]]]]]]].
      { rewrite Hfreq. cbn [length]. lia. }
      rewrite E in Hc.
      apply bind_ok in Hc as [c4 [Hc4 Hc]].
      apply bind_ok in Hc as [d [Hd Hc]]. inversion Hc; subst c.
      apply uncompress_container; auto. intros b. apply Hin. }
  split; [exact Hround|]. split; [|intros b; apply compress_one_value].
  intros H2 Hlen.
  destruct (compress_two_exact text Hb H2 Hlen)
    as [t [d [Hf [Hn [Hin [Hp [Hd E]]]]]]].
  pose proof (generate_compressed_exact _ _ _ (paths_covered t text Hin)) as Hg.
  rewrite Hd, <- Hp in Hg. split; intros Hpend.
  - replace (final_pending text <=? 8)%nat with true in Hg
      by (symmetry; now apply Nat.leb_le).
    rewrite Hg in E. cbn [bind] in E.
    eexists. split; [exact E | apply Hround, E].
  - replace (final_pending text <=? 8)%nat with false in Hg
      by (symmetry; now apply Nat.leb_gt).
    rewrite Hg in E. exact E.
Qed.

Lemma is_bytes_forallb l : forallb is_byteb l = true -> is_bytes l.
Proof.
  intros H. apply Forall_forall. intros b Hb. apply is_byteb_spec.
  rewrite forallb_forall in H. auto.
Qed.

Lemma compress_uncompress_roundtrip_witness :
  (exists c, compress all_bytes = Ok c /\ uncompress c = Ok all_bytes)
  /\ compress long_code_text = Raise ValueError
  /\ compress [65; 65; 65] = Raise AttributeError.
Proof.
  split; [|split].
  - assert (Hb : is_bytes all_bytes)
      by (apply is_bytes_forallb; vm_compute; reflexivity).
    destruct (compress_uncompress_roundtrip all_bytes Hb) as [_ [H _]].
    apply H.
    + vm_compute. lia.
    + vm_compute. reflexivity.
    + vm_compute. lia.
  - assert (Hb : is_bytes long_code_text)
      by (apply is_bytes_forallb; vm_compute; reflexivity).
    destruct (compress_uncompress_roundtrip long_code_text Hb) as [_ [H _]].
    apply H.
    + vm_compute. lia.
    + vm_compute. reflexivity.
    + vm_compute. lia.
  - assert (Hb : is_bytes [65; 65; 65])
      by (apply is_bytes_forallb; reflexivity).
    destruct (compress_uncompress_roundtrip [65; 65; 65] Hb) as [_ [_ H]].
    apply (H 65); [discriminate|].
    intros x Hx. cbn [In] in Hx. intuition.
Defined.

(** ** Optimality *)

(** *** Kraft's inequality for a prefix code *)

Lemma is_prefix_nil w : is_prefix [] w.
Proof. exists w. reflexivity. Qed.

Lemma is_prefix_cons c p w : is_prefix p w -> is_prefix (c :: p) (c :: w).
Proof. intros [q ->]. exists q. reflexivity. Qed.

Lemma pairwise_pf_nil_word L :
  pairwise_pf L -> In [] L -> L = [[]].
Proof.
  destruct L as [|w r]; [intros _ []|]. cbn [pairwise_pf In]. intros [Hw Hr] Hin.
  destruct r as [|v r]; [destruct Hin as [-> | []]; reflexivity|].
  exfalso. destruct Hin as [-> | Hin].
  - destruct (Hw v (or_introl eq_refl)) as [H _]. apply H, is_prefix_nil.
  - destruct (Hw [] Hin) as [_ H]. apply H, is_prefix_nil.
Qed.

Lemma tails_in c L w : In w (tails c L) -> In (c :: w) L.
Proof.
  induction L as [|[|x v] r IH]; cbn [tails]; [intros [] | right; auto |].
  destruct (ascii_dec x c) as [-> | Hne]; cbn [In].
  - intros [-> | H]; [now left | right; auto].
  - intros H. right. auto.
Qed.

Lemma tails_pf c L : pairwise_pf L -> pairwise_pf (tails c L).
Proof.
  induction L as [|[|x v] r IH]; cbn [tails pairwise_pf]; [auto | tauto |].
  intros [Hw Hr]. destruct (ascii_dec x c) as [-> | Hne]; [|auto].
  cbn [pairwise_pf]. split; [|auto].
  intros u Hu. apply tails_in in Hu. destruct (Hw _ Hu) as [H1 H2].
  split; intros Hp; [apply H1 | apply H2]; now apply is_prefix_cons.
Qed.

Lemma ksum_tails h L :
  (forall w, In w L -> is_bits w /\ w <> []) ->
  ksum (S h) (map (@length ascii) L)
  = ksum h (map (@length ascii) (tails "0"%char L))
    + ksum h (map (@length ascii) (tails "1"%char L)).
Proof.
  induction L as [|[|x v] r IH]; intros H; [reflexivity | |].
  - destruct (H [] (or_introl eq_refl)) as [_ Hne]. congruence.
  - destruct (H (x :: v) (or_introl eq_refl)) as [Hb _].
    inversion Hb as [|? ? Hx _]; subst.
    cbn [map ksum length]. rewrite IH by (intros; apply H; now right).
    replace (S h - S (length v))%nat with (h - length v)%nat by lia.
    destruct Hx as [-> | ->]; cbn [tails]; 
      repeat match goal with
             | |- context [ascii_dec ?a ?b] =>
                 destruct (ascii_dec a b); try discriminate; try congruence
             end; cbn [map ksum]; lia.
Qed.

(** Kraft: the code lengths of a prefix code, scaled by [2 ^ H], sum to
    at most [2 ^ H]. *)
Lemma kraft_pairwise_pf : forall H L,
  pairwise_pf L ->
  (forall w, In w L -> is_bits w /\ (length w <= H)%nat) ->
  ksum H (map (@length ascii) L) <= 2 ^ Z.of_nat H.
Proof.
  induction H as [|h IH]; intros L Hpf Hw.
  - destruct L as [|w [|v r]]; cbn [map ksum]; [lia | |].
    + replace (0 - length w)%nat with 0%nat by lia. lia.
    + exfalso. destruct Hpf as [Hp _].
      destruct (Hw w (or_introl eq_refl)) as [_ Hl].
      destruct w; [|cbn in Hl; lia].
      destruct (Hp v (or_introl eq_refl)) as [Hn _]. apply Hn, is_prefix_nil.
  - destruct (in_dec (list_eq_dec ascii_dec) [] L) as [Hin | Hnin].
    + rewrite (pairwise_pf_nil_word _ Hpf Hin). cbn [map ksum length].
      rewrite Nat.sub_0_r. lia.
    + rewrite ksum_tails.
      2:{ intros w Hwin. split; [apply (Hw w Hwin)|]. intros ->. contradiction. }
      assert (Ht : forall c, ksum h (map (@length ascii) (tails c L)) <= 2 ^ Z.of_nat h).
      { intros c. apply IH; [now apply tails_pf|].
        intros w Hwin. apply tails_in in Hwin. destruct (Hw _ Hwin) as [Hb Hl].
        inversion Hb; subst. split; [assumption | cbn [length] in Hl; lia]. }
      pose proof (Ht "0"%char). pose proof (Ht "1"%char).
      rewrite Nat2Z.inj_succ, Z.pow_succ_r by lia. lia.
Qed.

(** *** Code lengths that satisfy Kraft's inequality *)

Lemma ksum_perm H ds ds' : Permutation ds ds' -> ksum H ds = ksum H ds'.
Proof. induction 1; cbn [ksum]; lia. Qed.

Lemma ksum_nonneg H ds : 0 <= ksum H ds.
Proof.
  induction ds as [|d ds IH]; cbn [ksum]; [lia|].
  assert (0 < 2 ^ Z.of_nat (H - d)) by (apply Z.pow_pos_nonneg; lia). lia.
Qed.

Lemma ksum_S H ds :
  Forall (fun d => (d <= H)%nat) ds -> ksum (S H) ds = 2 * ksum H ds.
Proof.
  induction 1 as [|d ds Hd _ IH]; cbn [ksum]; [lia|].
  replace (S H - d)%nat with (S (H - d)) by lia.
  rewrite Nat2Z.inj_succ, Z.pow_succ_r by lia. lia.
Qed.

Lemma ksum_add k : forall H ds,
  Forall (fun d => (d <= H)%nat) ds ->
  ksum (H + k) ds = 2 ^ Z.of_nat k * ksum H ds.
Proof.
  induction k as [|k IH]; intros H ds Hd.
  - rewrite Nat.add_0_r. change (2 ^ Z.of_nat 0) with 1. lia.
  - replace (H + S k)%nat with (S (H + k)) by lia.
    rewrite ksum_S.
    + rewrite IH by exact Hd. rewrite Nat2Z.inj_succ, Z.pow_succ_r by lia. lia.
    + eapply Forall_impl; [|exact Hd]. cbn beta. intros; lia.
Qed.

(** Kraft's inequality does not depend on the scale. *)
Lemma kraft_at ds h :
  kraft ds -> Forall (fun d => (d <= h)%nat) ds -> ksum h ds <= 2 ^ Z.of_nat h.
Proof.
  intros [H0 [Hd Hk]] Hh.
  destruct (le_lt_dec H0 h) as [Hle | Hlt].
  - replace h with (H0 + (h - H0))%nat by lia.
    rewrite ksum_add by exact Hd.
    rewrite Nat2Z.inj_add, Z.pow_add_r by lia.
    assert (0 < 2 ^ Z.of_nat (h - H0)) by (apply Z.pow_pos_nonneg; lia). nia.
  - replace H0 with (h + (H0 - h))%nat in Hk by lia.
    rewrite ksum_add in Hk by exact Hh.
    rewrite Nat2Z.inj_add, Z.pow_add_r in Hk by lia.
    assert (0 < 2 ^ Z.of_nat (H0 - h)) by (apply Z.pow_pos_nonneg; lia). nia.
Qed.

Lemma kraft_perm ds ds' : Permutation ds ds' -> kraft ds -> kraft ds'.
Proof.
  intros Hp [H [Hd Hk]]. exists H. split.
  - eapply Permutation_Forall; eauto.
  - now rewrite <- (ksum_perm H _ _ Hp).
Qed.

(** Two codes of the greatest length can be replaced by one code that
    is one bit shorter. *)
Lemma kraft_merge h ds :
  (1 <= h)%nat -> kraft (h :: h :: ds) -> kraft ((h - 1)%nat :: ds).
Proof.
  intros Hh [H [Hd Hk]]. exists H.
  inversion Hd as [|? ? Hh1 Hd1]; subst. inversion Hd1 as [|? ? _ Hd2]; subst.
  split; [constructor; [lia | exact Hd2]|].
  cbn [ksum] in *.
  replace (H - (h - 1))%nat with (S (H - h)) by lia.
  rewrite Nat2Z.inj_succ, Z.pow_succ_r by lia. lia.
Qed.

Lemma pcost_perm P P' : Permutation P P' -> pcost P = pcost P'.
Proof.
  induction 1 as [|[w d] l l' _ IH|[w d] [w' d'] l|l l' l'' _ IH1 _ IH2];
    cbn [pcost]; lia.
Qed.

Lemma pcost_nonneg P : (forall e, In e P -> 0 <= fst e) -> 0 <= pcost P.
Proof.
  induction P as [|[w d] P IH]; intros H; cbn [pcost]; [lia|].
  specialize (H (w, d) (or_introl eq_refl)) as Hw. cbn [fst] in Hw.
  assert (0 <= pcost P) by (apply IH; intros; apply H; now right). nia.
Qed.

Lemma list_max_in l : l <> [] -> In (list_max l) l.
Proof.
  induction l as [|a [|b l] IH]; intros Hne; [congruence | |].
  - cbn. left. lia.
  - change (list_max (a :: b :: l)) with (Nat.max a (list_max (b :: l))).
    destruct (Nat.max_spec a (list_max (b :: l))) as [[_ ->] | [_ ->]].
    + right. apply IH. discriminate.
    + now left.
Qed.

Lemma in_snd_pair {A B} (P : list (A * B)) d :
  In d (map snd P) -> exists x R, Permutation P ((x, d) :: R).
Proof.
  intros H. apply in_map_iff in H as [[x d'] [E Hin]]. cbn [snd] in E. subst d'.
  apply in_split in Hin as [l1 [l2 ->]]. exists x, (l1 ++ l2).
  symmetry. apply Permutation_middle.
Qed.

Lemma in_fst_pair {A B} (P : list (A * B)) a :
  In a (map fst P) -> exists d R, Permutation P ((a, d) :: R).
Proof.
  intros H. apply in_map_iff in H as [[a' d] [E Hin]]. cbn [fst] in E. subst a'.
  apply in_split in Hin as [l1 [l2 ->]]. exists d, (l1 ++ l2).
  symmetry. apply Permutation_middle.
Qed.

Lemma list_sum_perm l l' : Permutation l l' -> list_sum l = list_sum l'.
Proof. induction 1; unfold list_sum in *; cbn [fold_right] in *; lia. Qed.

(** Either the greatest code length occurs twice, or the one code of
    that length can lose a bit. *)
Lemma deepest_step P :
  (2 <= length P)%nat -> kraft (map snd P) -> (forall e, In e P -> 0 <= fst e) ->
  (exists h x y Q,
      Permutation P ((x, h) :: (y, h) :: Q)
      /\ Forall (fun d => (d <= h)%nat) (map snd P) /\ (1 <= h)%nat)
  \/ (exists P',
         (list_sum (map snd P') < list_sum (map snd P))%nat
         /\ length P' = length P
         /\ kraft (map snd P')
         /\ (forall e, In e P' -> 0 <= fst e)
         /\ Permutation (map fst P') (map fst P)
         /\ pcost P' <= pcost P).
Proof.
  intros Hl Hk Hpos.
  set (h := list_max (map snd P)).
  assert (Hall : Forall (fun d => (d <= h)%nat) (map snd P))
    by (apply list_max_le; subst h; lia).
  assert (Hne : map snd P <> [])
    by (destruct P; [cbn in Hl; lia | discriminate]).
  destruct (in_snd_pair P h (list_max_in _ Hne)) as [x [R HP]].
  assert (HlR : (1 <= length R)%nat)
    by (apply Permutation_length in HP; cbn [length] in HP; lia).
  pose proof (Permutation_map snd HP) as HPd. cbn [map snd] in HPd.
  assert (HallR : Forall (fun d => (d <= h)%nat) (map snd R))
    by (apply (Permutation_Forall HPd) in Hall; now inversion Hall).
  pose proof (kraft_at _ h Hk Hall) as Hkh.
  rewrite (ksum_perm _ _ _ HPd) in Hkh. cbn [ksum] in Hkh.
  rewrite Nat.sub_diag in Hkh. change (2 ^ Z.of_nat 0) with 1 in Hkh.
  assert (Hx : 0 <= x).
  { apply (Hpos (x, h)). eapply Permutation_in; [symmetry; exact HP | now left]. }
  destruct (in_dec Nat.eq_dec h (map snd R)) as [Hin | Hnin].
  - left. destruct (in_snd_pair R h Hin) as [y [Q HR]].
    exists h, x, y, Q.
    split; [eapply perm_trans; [exact HP | now apply perm_skip]|].
    split; [exact Hall|].
    destruct (Nat.eq_dec h 0) as [E0 | E0]; [|lia]. exfalso.
    pose proof (Permutation_map snd HR) as HRd. cbn [map snd] in HRd.
    rewrite (ksum_perm _ _ _ HRd) in Hkh. cbn [ksum] in Hkh.
    rewrite Nat.sub_diag in Hkh. change (2 ^ Z.of_nat 0) with 1 in Hkh.
    pose proof (ksum_nonneg h (map snd Q)).
    rewrite E0 in Hkh. change (2 ^ Z.of_nat 0) with 1 in Hkh. rewrite E0 in H. lia.
  - right.
    assert (Hlt : Forall (fun d => (d <= h - 1)%nat) (map snd R)).
    { apply Forall_forall. intros d Hd.
      rewrite Forall_forall in HallR. specialize (HallR d Hd).
      assert (d <> h) by (intros ->; contradiction). lia. }
    assert (Hh : (1 <= h)%nat).
    { destruct R as [|[w0 d0] R]; [cbn in HlR; lia|].
      inversion HallR as [|? ? Hd0 _]; subst. cbn [snd] in Hd0.
      assert (d0 <> h) by (intros E; apply Hnin; left; exact E). lia. }
    exists ((x, (h - 1)%nat) :: R).
    split; [|split; [|split; [|split; [|split]]]].
    + rewrite (list_sum_perm _ _ HPd). cbn [map snd].
      unfold list_sum. cbn [fold_right]. lia.
    + apply Permutation_length in HP. cbn [length] in *. lia.
    + exists (h - 1)%nat. cbn [map snd]. split; [constructor; [lia | exact Hlt]|].
      cbn [ksum]. rewrite Nat.sub_diag. change (2 ^ Z.of_nat 0) with 1.
      assert (Hs : ksum h (map snd R) = 2 * ksum (h - 1) (map snd R)).
      { replace h with (S (h - 1)) at 1 by lia. now apply ksum_S. }
      assert (Hp : 2 ^ Z.of_nat h = 2 * 2 ^ Z.of_nat (h - 1)).
      { replace h with (S (h - 1)) at 1 by lia.
        rewrite Nat2Z.inj_succ, Z.pow_succ_r by lia. reflexivity. }
      lia.
    + intros e [<- | He]; cbn [fst]; [exact Hx|].
      apply Hpos. eapply Permutation_in; [symmetry; exact HP | now right].
    + cbn [map fst]. symmetry. apply (Permutation_map fst HP).
    + rewrite (pcost_perm _ _ HP). cbn [pcost]. nia.
Qed.

(** A cheaper or equal assignment in which the greatest code length
    occurs twice. *)
Lemma deepest_twice : forall m P,
  (list_sum (map snd P) <= m)%nat -> (2 <= length P)%nat ->
  kraft (map snd P) -> (forall e, In e P -> 0 <= fst e) ->
  exists P1 h x y Q,
    Permutation P1 ((x, h) :: (y, h) :: Q)
    /\ Forall (fun d => (d <= h)%nat) (map snd P1)
    /\ (1 <= h)%nat
    /\ Permutation (map fst P1) (map fst P)
    /\ kraft (map snd P1)
    /\ pcost P1 <= pcost P.
Proof.
  induction m as [|m IH]; intros P Hm Hl Hk Hpos;
    destruct (deepest_step P Hl Hk Hpos)
      as [[h [x [y [Q [H1 [H2 H3]]]]]] | [P' [Hs [Hl' [Hk' [Hpos' [Hw Hc]]]]]]].
  - exists P, h, x, y, Q. repeat split; auto. lia.
  - lia.
  - exists P, h, x, y, Q. repeat split; auto. lia.
  - destruct (IH P') as [P1 [h [x [y [Q [H1 [H2 [H3 [H4 [H5 H6]]]]]]]]]];
      auto; try lia.
    exists P1, h, x, y, Q. repeat (split; [assumption|]).
    split; [eapply perm_trans; eauto|]. split; [exact H5 | lia].
Qed.

(** The least weight can take a greatest code length without raising
    the cost. *)
Lemma least_to_deepest P a h :
  In h (map snd P) -> In a (map fst P) ->
  (forall w, In w (map fst P) -> a <= w) ->
  Forall (fun d => (d <= h)%nat) (map snd P) ->
  exists R,
    pcost ((a, h) :: R) <= pcost P
    /\ Permutation (a :: map fst R) (map fst P)
    /\ Permutation (h :: map snd R) (map snd P).
Proof.
  intros Hh Ha Hmin Hall.
  destruct (in_snd_pair P h Hh) as [x [R HP]].
  pose proof (Permutation_map fst HP) as HPw. cbn [map fst] in HPw.
  pose proof (Permutation_map snd HP) as HPd. cbn [map snd] in HPd.
  destruct (Z.eq_dec a x) as [-> | Hne].
  - exists R. rewrite (pcost_perm _ _ HP). split; [lia|].
    split; symmetry; assumption.
  - assert (HaR : In a (map fst R)).
    { apply (Permutation_in _ HPw) in Ha. destruct Ha as [E | Ha]; [congruence | exact Ha]. }
    destruct (in_fst_pair R a HaR) as [d [R0 HR]].
    pose proof (Permutation_map fst HR) as HRw. cbn [map fst] in HRw.
    pose proof (Permutation_map snd HR) as HRd. cbn [map snd] in HRd.
    exists ((x, d) :: R0). split; [|split].
    + rewrite (pcost_perm _ _ HP). cbn [pcost]. rewrite (pcost_perm _ _ HR).
      cbn [pcost].
      assert (a <= x).
      { apply Hmin. eapply Permutation_in; [symmetry; exact HPw | now left]. }
      assert (d <= h)%nat.
      { rewrite Forall_forall in Hall. apply Hall.
        eapply Permutation_in; [symmetry; exact HPd|]. right.
        eapply Permutation_in; [symmetry; exact HRd | now left]. }
      nia.
    + cbn [map fst]. symmetry. eapply perm_trans; [exact HPw|].
      eapply perm_trans; [apply perm_skip; exact HRw|]. apply perm_swap.
    + cbn [map snd]. symmetry. eapply perm_trans; [exact HPd|].
      apply perm_skip. exact HRd.
Qed.

Lemma bcost_singleton fuel e : bcost fuel [e] = 0.
Proof. destruct fuel; reflexivity. Qed.

Lemma bcost_unfold fuel w x w1 y w2 :
  (2 <= length w)%nat ->
  pick_min w = Some (x, w1) -> pick_min w1 = Some (y, w2) ->
  bcost (S fuel) w
  = snd x + snd y + bcost fuel (w2 ++ [(FNode (fst x) (fst y), snd x + snd y)]).
Proof.
  intros Hl E1 E2. destruct w as [|e1 [|e2 w]]; cbn [length] in Hl; try lia.
  cbn [bcost]. rewrite E1, E2. reflexivity.
Qed.

(** The weights the builder adds up are at most the cost of any
    assignment of code lengths that satisfies Kraft's inequality. *)
Lemma bcost_le_pcost : forall fuel w P,
  w <> [] -> (length w <= fuel)%nat ->
  (forall e, In e w -> 0 <= snd e) ->
  Permutation (map fst P) (map snd w) ->
  kraft (map snd P) ->
  bcost fuel w <= pcost P.
Proof.
  induction fuel as [|fuel IH]; intros w P Hne Hl Hpos Hw Hk.
  - destruct w; [congruence | cbn in Hl; lia].
  - assert (HposP : forall e, In e P -> 0 <= fst e).
    { intros e He. assert (Hin : In (fst e) (map snd w)).
      { eapply Permutation_in; [exact Hw | now apply in_map]. }
      apply in_map_iff in Hin as [e' [<- He']]. auto. }
    destruct w as [|e1 [|e2 w]]; [congruence | |].
    + rewrite bcost_singleton. now apply pcost_nonneg.
    + set (w0 := e1 :: e2 :: w) in *.
      assert (Hl2 : (2 <= length w0)%nat) by (subst w0; cbn [length]; lia).
      destruct (build_step w0 Hl2) as [x [w1 [y [w2 [E1 [E2 [Pxy [Mx [My [Px L]]]]]]]]]].
      rewrite (bcost_unfold _ _ _ _ _ _ Hl2 E1 E2).
      set (a := snd x) in *. set (b := snd y) in *.
      assert (Pw1 : Permutation w1 (y :: w2)).
      { apply (Permutation_cons_inv (a := x)).
        eapply perm_trans; [symmetry; exact Px | exact Pxy]. }
      assert (HlP : (2 <= length P)%nat).
      { apply Permutation_length in Hw. rewrite !length_map in Hw. lia. }
      destruct (deepest_twice _ P (Nat.le_refl _) HlP Hk HposP)
        as [P1 [h [x' [y' [Q [H1 [H2 [H3 [H4 [H5 H6]]]]]]]]]].
      assert (HwP1 : Permutation (map fst P1) (map snd w0))
        by (eapply perm_trans; eauto).
      pose proof (Permutation_map snd H1) as H1d. cbn [map snd] in H1d.
      destruct (least_to_deepest P1 a h) as [R [Hc1 [Hw1 Hd1]]].
      * eapply Permutation_in; [symmetry; exact H1d | now left].
      * eapply Permutation_in; [symmetry; exact HwP1|].
        apply in_map. eapply Permutation_in; [symmetry; exact Px | now left].
      * intros v Hv. apply (Permutation_in _ HwP1) in Hv.
        apply in_map_iff in Hv as [e [<- He]]. now apply Mx.
      * exact H2.
      * assert (HwR : Permutation (map fst R) (map snd w1)).
        { apply (Permutation_cons_inv (a := a)).
          eapply perm_trans; [exact Hw1|]. eapply perm_trans; [exact HwP1|].
          apply (Permutation_map snd Px). }
        assert (HdR : Permutation (map snd R) (h :: map snd Q)).
        { apply (Permutation_cons_inv (a := h)).
          eapply perm_trans; [exact Hd1 | exact H1d]. }
        destruct (least_to_deepest R b h) as [R' [Hc2 [Hw2 Hd2]]].
        -- eapply Permutation_in; [symmetry; exact HdR | now left].
        -- eapply Permutation_in; [symmetry; exact HwR|].
           apply in_map. eapply Permutation_in; [symmetry; exact Pw1 | now left].
        -- intros v Hv. apply (Permutation_in _ HwR) in Hv.
           apply in_map_iff in Hv as [e [<- He]]. now apply My.
        -- apply (Permutation_Forall (Permutation_sym Hd1)) in H2. now inversion H2.
        -- assert (Hle : bcost fuel (w2 ++ [(FNode (fst x) (fst y), a + b)])
                          <= pcost ((a + b, (h - 1)%nat) :: R')).
           { apply IH.
             - destruct w2; discriminate.
             - rewrite length_app. cbn [length]. lia.
             - intros e He. apply in_app_or in He as [He | [<- | []]].
               + apply Hpos. eapply Permutation_in; [symmetry; exact Pxy|].
                 right. now right.
               + cbn [snd].
                 assert (0 <= a)
                   by (apply Hpos; eapply Permutation_in; [symmetry; exact Px | now left]).
                 assert (0 <= b).
                 { apply Hpos. eapply Permutation_in; [symmetry; exact Pxy|].
                   right. now left. }
                 lia.
             - cbn [map fst]. rewrite map_app. cbn [map snd].
               eapply perm_trans; [|apply Permutation_cons_append].
               apply perm_skip.
               apply (Permutation_cons_inv (a := b)).
               eapply perm_trans; [exact Hw2|]. eapply perm_trans; [exact HwR|].
               apply (Permutation_map snd Pw1).
             - cbn [map snd]. apply kraft_merge; [exact H3|].
               eapply kraft_perm; [|exact H5].
               eapply perm_trans; [symmetry; exact Hd1|].
               apply perm_skip. symmetry. exact Hd2. }
           cbn [pcost] in Hle, Hc1, Hc2.
           assert (Z.of_nat (h - 1) = Z.of_nat h - 1) by lia.
           nia.
Qed.

(** *** The cost of the built tree *)

Lemma zsum_cons x l : zsum (x :: l) = x + zsum l.
Proof. reflexivity. Qed.

Lemma zsum_app a b : zsum (a ++ b) = zsum a + zsum b.
Proof.
  induction a as [|x a IH]; cbn [app]; [reflexivity|].
  rewrite !zsum_cons, IH. lia.
Qed.

Lemma zsum_perm l l' : Permutation l l' -> zsum l = zsum l'.
Proof. induction 1; rewrite ?zsum_cons in *; lia. Qed.

Section TreeCostFacts.
Variable wt : Z -> Z.

Lemma fcost_perm w w' : Permutation w w' -> fcost wt w = fcost wt w'.
Proof. intros H. unfold fcost. apply zsum_perm. now apply Permutation_map. Qed.

Lemma fcost_cons e w : fcost wt (e :: w) = tcost wt (fst e) + fcost wt w.
Proof. reflexivity. Qed.

Lemma fcost_app w w' : fcost wt (w ++ w') = fcost wt w + fcost wt w'.
Proof. unfold fcost. now rewrite map_app, zsum_app. Qed.

(** The cost of the built tree is the cost of the trees it started from
    plus the weights added up on the way, as long as every entry is
    filed under the weight of its tree. *)
Lemma build_cost : forall fuel w t,
  build fuel w = Some t ->
  (forall e, In e w -> snd e = tweight wt (fst e)) ->
  tcost wt t = fcost wt w + bcost fuel w.
Proof.
  induction fuel as [|fuel IH]; intros w t H Hinv.
  - destruct w as [|[t0 wt0] [|e2 w]]; try discriminate.
    cbn in H. inversion H; subst. rewrite fcost_cons. cbn. unfold fcost. cbn. lia.
  - destruct w as [|[t0 wt0] [|e2 w]]; [discriminate | |].
    + cbn in H. inversion H; subst. rewrite fcost_cons. cbn. unfold fcost. cbn. lia.
    + set (w0 := (t0, wt0) :: e2 :: w) in *.
      assert (Hl2 : (2 <= length w0)%nat) by (subst w0; cbn [length]; lia).
      destruct (build_step _ Hl2) as [x [w1 [y [w2 [E1 [E2 [P _]]]]]]].
      rewrite (build_unfold _ _ _ _ _ _ Hl2 E1 E2) in H.
      rewrite (bcost_unfold _ _ _ _ _ _ Hl2 E1 E2).
      assert (Hx : snd x = tweight wt (fst x)).
      { apply Hinv. eapply Permutation_in; [symmetry; exact P | now left]. }
      assert (Hy : snd y = tweight wt (fst y)).
      { apply Hinv. eapply Permutation_in; [symmetry; exact P | right; now left]. }
      rewrite (IH _ _ H).
      * rewrite (fcost_perm _ _ P), fcost_app, !fcost_cons.
        cbn [fst tcost]. unfold fcost at 2. cbn [map zsum fold_right].
        rewrite Hx, Hy. lia.
      * intros e He. apply in_app_or in He as [He | [<- | []]].
        -- apply Hinv. eapply Permutation_in; [symmetry; exact P|]. right. now right.
        -- cbn [fst snd tweight]. now rewrite Hx, Hy.
Qed.

Lemma table_cost_app a b : table_cost wt (a ++ b) = table_cost wt a + table_cost wt b.
Proof. unfold table_cost. now rewrite map_app, zsum_app. Qed.

Lemma table_weight_app a b :
  table_weight wt (a ++ b) = table_weight wt a + table_weight wt b.
Proof. unfold table_weight. now rewrite map_app, zsum_app. Qed.

Lemma table_cost_prefix c d :
  table_cost wt (prefix_codes [c] d) = table_cost wt d + table_weight wt d.
Proof.
  unfold table_cost, table_weight, prefix_codes. rewrite map_map.
  induction d as [|[k v] d IH]; [reflexivity|].
  cbn [map]. rewrite !zsum_cons, IH. cbn [fst snd app].
  unfold len. cbn [length]. lia.
Qed.

Lemma table_weight_prefix b d :
  table_weight wt (prefix_codes b d) = table_weight wt d.
Proof.
  unfold table_weight, prefix_codes. rewrite map_map. reflexivity.
Qed.

Lemma table_weight_paths t : table_weight wt (paths t) = tweight wt t.
Proof.
  induction t as [s|l IHl r IHr]; [cbn; lia|].
  cbn [paths tweight]. now rewrite table_weight_app, !table_weight_prefix, IHl, IHr.
Qed.

(** The weighted length of the table of a tree is the cost of the
    tree. *)
Lemma table_cost_paths t : table_cost wt (paths t) = tcost wt t.
Proof.
  induction t as [s|l IHl r IHr]; [cbn; lia|].
  cbn [paths tcost].
  change (bits "0") with ["0"%char]. change (bits "1") with ["1"%char].
  rewrite table_cost_app, !table_cost_prefix, !table_weight_paths, IHl, IHr. lia.
Qed.

Lemma table_cost_code_of d0 : forall d ks,
  map fst d = map Some ks ->
  (forall e, In e d -> dict_find sym_eqb d0 (fst e) = Some (snd e)) ->
  table_cost wt d = zsum (map (fun s => wt s * len (code_of d0 s)) ks).
Proof.
  induction d as [|[k v] d IH]; intros [|s ks] Hk Hf; try discriminate; [reflexivity|].
  cbn [map fst] in Hk. inversion Hk; subst.
  pose proof (Hf (Some s, v) (or_introl eq_refl)) as Hs. cbn [fst snd] in Hs.
  unfold table_cost in *. cbn [map fst snd key_weight]. rewrite !zsum_cons.
  rewrite (IH ks) by (auto; intros; apply Hf; now right).
  f_equal. unfold code_of. now rewrite Hs.
Qed.
End TreeCostFacts.

(** *** Optimality of the built code *)

Lemma freq_of_in freq_dict k v :
  NoDup (map fst freq_dict) -> In (k, v) freq_dict -> freq_of freq_dict k = v.
Proof.
  intros Hn Hin. unfold freq_of.
  now rewrite (dict_find_in Z.eqb Z.eqb_eq _ _ _ Hn Hin).
Qed.

Lemma weighted_length_keys freq_dict code :
  NoDup (map fst freq_dict) ->
  weighted_length freq_dict code
  = zsum (map (fun k => freq_of freq_dict k * len (code k)) (map fst freq_dict)).
Proof.
  intros Hn. unfold weighted_length. rewrite map_map. f_equal.
  apply map_ext_in. intros [k v] Hin. cbn [fst snd].
  now rewrite (freq_of_in _ _ _ Hn Hin).
Qed.

Lemma pcost_code freq_dict (code : Z -> list ascii) :
  pcost (map (fun e => (snd e, length (code (fst e)))) freq_dict)
  = weighted_length freq_dict code.
Proof.
  unfold weighted_length.
  induction freq_dict as [|[k v] d IH]; [reflexivity|].
  cbn [map pcost fst snd]. rewrite zsum_cons, IH. reflexivity.
Qed.

Lemma prefix_code_pairwise keys code :
  NoDup keys -> prefix_code keys code -> pairwise_pf (map code keys).
Proof.
  intros Hn [_ Hp]. induction Hn as [|k ks Hk Hn IH]; [exact I|].
  cbn [map pairwise_pf]. split.
  - intros v Hv. apply in_map_iff in Hv as [k' [<- Hk']].
    assert (k <> k') by (intros ->; contradiction).
    split; apply Hp; cbn [In]; auto.
  - apply IH. intros a b Ha Hb. apply Hp; now right.
Qed.

(** The code lengths of a prefix code satisfy Kraft's inequality. *)
Lemma prefix_code_kraft keys code :
  NoDup keys -> prefix_code keys code ->
  kraft (map (fun k => length (code k)) keys).
Proof.
  intros Hn Hp.
  rewrite <- (map_map code (@length ascii)).
  exists (list_max (map (@length ascii) (map code keys))). split.
  - apply list_max_le. lia.
  - apply kraft_pairwise_pf; [now apply prefix_code_pairwise|].
    intros w Hw. split.
    + apply in_map_iff in Hw as [k [<- Hk]]. now apply (proj1 Hp).
    + assert (Hall : Forall (fun d => (d <= list_max (map (@length ascii) (map code keys)))%nat)
                            (map (@length ascii) (map code keys)))
        by (apply list_max_le; lia).
      rewrite Forall_forall in Hall. apply Hall. now apply in_map.
Qed.

(** The loop of [avg_length] adds up the weight and the weighted length
    of the table. *)
Lemma avg_loop_value freq_dict codes : forall d total avg,
  (forall e, In e d ->
             exists b, fst e = Some b /\ In b (map fst freq_dict)
                       /\ dict_find sym_eqb codes (fst e) = Some (snd e)) ->
  avg_loop freq_dict codes (map fst d) total avg
  = Ok (total + table_weight (freq_of freq_dict) d,
        avg + table_cost (freq_of freq_dict) d).
Proof.
  induction d as [|[k v] d IH]; intros total avg H.
  - cbn. now rewrite !Z.add_0_r.
  - destruct (H (k, v) (or_introl eq_refl)) as [b [Hk [Hb Hc]]].
    cbn [fst snd] in Hk, Hc. subst k.
    destruct (dict_find_key Z.eqb Z.eqb_eq freq_dict b Hb) as [f [Hf _]].
    cbn [map fst avg_loop]. unfold dict_get. rewrite Hf, Hc. cbn [bind].
    rewrite IH by (intros; apply H; now right).
    unfold table_weight, table_cost. cbn [map fst snd key_weight].
    rewrite !zsum_cons.
    assert (Ew : freq_of freq_dict b = f) by (unfold freq_of; now rewrite Hf).
    rewrite Ew. do 2 f_equal; lia.
Qed.

Lemma avg_length_value t n freq_dict :
  is_fnode t = true -> NoDup (leaves t) ->
  (forall b, In b (leaves t) -> In b (map fst freq_dict)) ->
  table_weight (freq_of freq_dict) (paths t) <> 0 ->
  avg_length (embed_opt t n) freq_dict
  = Ok (table_cost (freq_of freq_dict) (paths t),
        table_weight (freq_of freq_dict) (paths t)).
Proof.
  intros Hf Hn Hin Hne. unfold avg_length. cbn [get_codes].
  rewrite get_codes_node_paths by auto. cbn [bind].
  rewrite avg_loop_value.
  - cbn [bind]. rewrite !Z.add_0_l.
    destruct (Z.eqb_spec (table_weight (freq_of freq_dict) (paths t)) 0);
      [contradiction | reflexivity].
  - intros [k v] He. cbn [fst snd].
    assert (Hk : In k (map fst (paths t))) by (apply in_map_iff; exists (k, v); auto).
    rewrite paths_keys in Hk. apply in_map_iff in Hk as [b [<- Hb]].
    exists b. split; [reflexivity|]. split; [auto|].
    apply (dict_find_in sym_eqb sym_eqb_eq); [|exact He].
    rewrite paths_keys. now apply NoDup_map_Some.
Qed.

(** The code table of the tree built for a table of two symbols or
    more is a prefix code of least weighted length. *)
Lemma huffman_tree_optimal freq_dict :
  NoDup (map fst freq_dict) -> (forall e, In e freq_dict -> 1 <= snd e) ->
  (2 <= length freq_dict)%nat ->
  exists t,
    is_fnode t = true /\ NoDup (leaves t)
    /\ Permutation (leaves t) (map fst freq_dict)
    /\ huffman_tree freq_dict = Ok (embed t)
    /\ get_codes (Some (embed t)) = Ok (paths t)
    /\ avg_length (embed t) freq_dict
       = Ok (weighted_length freq_dict (code_of (paths t)), zsum (map snd freq_dict))
    /\ forall code, prefix_code (map fst freq_dict) code ->
                    weighted_length freq_dict (code_of (paths t))
                    <= weighted_length freq_dict code.
Proof.
  intros Hn Hpos Hl.
  destruct (huffman_tree_build _ Hl) as [t [Hb [Ht [Hf Hp]]]].
  assert (Hnl : NoDup (leaves t)).
  { eapply Permutation_NoDup; [symmetry; exact Hp | exact Hn]. }
  set (wt := freq_of freq_dict).
  assert (Hcost : weighted_length freq_dict (code_of (paths t)) = table_cost wt (paths t)).
  { rewrite (weighted_length_keys _ _ Hn).
    rewrite <- (zsum_perm _ _ (Permutation_map _ Hp)).
    symmetry. apply table_cost_code_of; [apply paths_keys|].
    intros [k v] He. cbn [fst snd]. apply (dict_find_in sym_eqb sym_eqb_eq); [|exact He].
    rewrite paths_keys. now apply NoDup_map_Some. }
  assert (Hweight : table_weight wt (paths t) = zsum (map snd freq_dict)).
  { unfold table_weight. 
    transitivity (zsum (map wt (leaves t))).
    - f_equal. rewrite <- (map_map fst (key_weight wt)), paths_keys, map_map. reflexivity.
    - rewrite (zsum_perm _ _ (Permutation_map wt Hp)), map_map. f_equal.
      apply map_ext_in. intros [k v] Hin. cbn [fst snd]. now apply freq_of_in. }
  exists t. repeat (split; [assumption|]).
  split; [cbn [get_codes]; unfold embed; now apply get_codes_node_paths|].
  split.
  { unfold embed. rewrite avg_length_value; auto.
    - fold wt. now rewrite Hcost, Hweight.
    - intros b Hbt. eapply Permutation_in; eauto.
    - fold wt. rewrite Hweight.
      destruct freq_dict as [|e1 d]; [cbn in Hl; lia|].
      cbn [map]. rewrite zsum_cons.
      assert (1 <= snd e1) by (apply Hpos; now left).
      assert (0 <= zsum (map snd d)).
      { clear - Hpos. induction d as [|e d IH]; [cbn; lia|].
        cbn [map]. rewrite zsum_cons.
        assert (1 <= snd e) by (apply Hpos; right; now left).
        assert (0 <= zsum (map snd d)); [|lia].
        apply IH. intros e' [<- | He']; apply Hpos; [now left | right; now right]. }
      lia. }
  intros code Hcode.
  rewrite Hcost, table_cost_paths.
  rewrite (build_cost wt _ _ _ Hb).
  2:{ intros e He. unfold leaf_forest in He. apply in_map_iff in He as [[k v] [<- Hin]].
      cbn [fst snd tweight]. symmetry. now apply freq_of_in. }
  assert (Hz : fcost wt (leaf_forest freq_dict) = 0).
  { unfold fcost, leaf_forest. rewrite map_map. cbn [fst tcost].
    clear. induction freq_dict as [|e d IH]; [reflexivity|].
    cbn [map]. rewrite zsum_cons, IH. reflexivity. }
  rewrite Hz, Z.add_0_l, <- pcost_code.
  apply bcost_le_pcost.
  - destruct freq_dict; [cbn in Hl; lia | discriminate].
  - unfold leaf_forest. rewrite length_map. lia.
  - intros e He. unfold leaf_forest in He. apply in_map_iff in He as [e' [<- Hin]].
    cbn [snd]. specialize (Hpos _ Hin). lia.
  - unfold leaf_forest. rewrite !map_map. cbn [fst snd]. apply Permutation_refl.
  - rewrite map_map. cbn [snd].
    rewrite <- (map_map fst (fun k => length (code k))).
    now apply prefix_code_kraft.
Qed.

(** The table of a full tree with distinct symbols is a prefix code. *)
Lemma paths_prefix_code t :
  NoDup (leaves t) -> prefix_code (leaves t) (code_of (paths t)).
Proof.
  intros Hn. split.
  - intros k Hk. destruct (paths_code_of t k Hk) as [Hin _].
    apply (paths_bits t _ Hin).
  - intros a b Ha Hb Hne [q Hq].
    destruct (paths_code_of t a Ha) as [Hina _].
    destruct (paths_code_of t b Hb) as [Hinb _].
    rewrite Hq in Hinb.
    destruct (paths_prefix_free t _ _ _ _ Hina Hinb) as [_ E].
    inversion E. contradiction.
Qed.

(** C5 on the code.  For a frequency table of two symbols or more the
    code table of the built tree is a binary prefix code whose weighted
    length, the sum of [freq(s) * len(code(s))] that [avg_length]
    computes, is at most that of every binary prefix code for the
    table.  For a table of one symbol there is no code table:
    [get_codes] raises [AttributeError] on the root with the missing
    right child.  For the weights 5, 9, 12, 13, 16, 45 the weighted
    length is 224 for 100 symbols. *)
Theorem huffman_codes_optimal_from_two_symbols (freq_dict : list (Z * Z)) :
  NoDup (map fst freq_dict) -> (forall e, In e freq_dict -> 1 <= snd e) ->
  ((2 <= length freq_dict)%nat ->
   exists tree codes,
     huffman_tree freq_dict = Ok tree
     /\ get_codes (Some tree) = Ok codes
     /\ prefix_code (map fst freq_dict) (code_of codes)
     /\ avg_length tree freq_dict
        = Ok (weighted_length freq_dict (code_of codes), zsum (map snd freq_dict))
     /\ forall code, prefix_code (map fst freq_dict) code ->
                     weighted_length freq_dict (code_of codes)
                     <= weighted_length freq_dict code)
  /\ (length freq_dict = 1%nat ->
      (t <- huffman_tree freq_dict ;; get_codes (Some t)) = Raise AttributeError)
  /\ (t <- huffman_tree textbook_freq ;; avg_length t textbook_freq) = Ok (224, 100).
Proof.
  intros Hn Hpos. split; [|split].
  - intros Hl.
    destruct (huffman_tree_optimal _ Hn Hpos Hl)
      as [t [Hf [Hnl [Hp [Ht [Hc [Ha Hopt]]]]]]].
    exists (embed t), (paths t). repeat (split; [assumption|]).
    split; [|split; assumption].
    destruct (paths_prefix_code t Hnl) as [H1 H2]. split.
    + intros k Hk. apply H1. eapply Permutation_in; [symmetry; exact Hp | exact Hk].
    + intros a b Hka Hkb. apply H2; (eapply Permutation_in; [symmetry; exact Hp|]); assumption.
  - intros Hl. destruct freq_dict as [|[s n] [|e d]]; try discriminate. reflexivity.
  - reflexivity.
Qed.

Lemma huffman_codes_optimal_from_two_symbols_witness :
  exists tree codes,
    huffman_tree textbook_freq = Ok tree
    /\ get_codes (Some tree) = Ok codes
    /\ weighted_length textbook_freq (code_of codes) = 224
    /\ forall code, prefix_code (map fst textbook_freq) code ->
                    224 <= weighted_length textbook_freq code.
Proof.
  assert (Hn : NoDup (map fst textbook_freq)).
  { cbn [textbook_freq map fst]. repeat (constructor; [cbn [In]; lia|]). constructor. }
  assert (Hpos : forall e, In e textbook_freq -> 1 <= snd e).
  { intros e He. cbn [textbook_freq In] in He. intuition (subst; cbn [snd]; lia). }
  destruct (huffman_codes_optimal_from_two_symbols textbook_freq Hn Hpos) as [H _].
  destruct (H ltac:(cbn; lia)) as [tree [codes [Ht [Hc [_ [_ Hopt]]]]]].
  exists tree, codes. split; [exact Ht|]. split; [exact Hc|].
  vm_compute in Ht. inversion Ht; subst tree.
  vm_compute in Hc. inversion Hc; subst codes.
  split; [reflexivity | exact Hopt].
Defined.

(** ** Reconstruction of the tree from its records *)

Lemma node_eqb_embed_opt a : forall b n m,
  node_eqb (embed_opt a n) (embed_opt b m) = ftree_eqb a b.
Proof.
  induction a as [x|l IHl r IHr]; intros [y|l' r'] n m; cbn [embed_opt ftree_eqb];
    try reflexivity.
  - cbn. now rewrite !andb_true_r.
  - cbn [node_eqb opt_eqb andb]. now rewrite IHl, IHr.
Qed.

(** The index-addressed strategy rebuilds every tree of the builder
    from the bytes of its record table. *)
Lemma general_reconstruction freq_dict :
  NoDup (map fst freq_dict) -> Forall is_byte (map fst freq_dict) ->
  (2 <= length freq_dict)%nat ->
  exists t,
    huffman_tree freq_dict = Ok (embed t)
    /\ number_nodes (embed t) = Ok (embed_num t 0)
    /\ tree_to_bytes (embed_num t 0) = Ok (flat (records t 0))
    /\ bytes_to_nodes (flat (records t 0)) = Ok (records t 0)
    /\ generate_tree_general_call (records t 0) (len (records t 0) - 1) = Ok (embed t)
    /\ node_eqb (embed t) (embed_num t 0) = true.
Proof.
  intros Hn Hb Hl.
  destruct (huffman_tree_build _ Hl) as [t [_ [Ht [Hf Hp]]]].
  assert (Hnl : NoDup (leaves t)).
  { eapply Permutation_NoDup; [symmetry; exact Hp | exact Hn]. }
  assert (Hbl : Forall is_byte (leaves t)).
  { eapply Permutation_Forall; [symmetry; exact Hp | exact Hb]. }
  assert (Hi : (internal t <= 255)%nat).
  { pose proof (distinct_bytes_length _ Hnl Hbl). rewrite leaves_length in H. lia. }
  exists t. split; [exact Ht|]. split; [apply number_nodes_embed|].
  split; [apply tree_to_bytes_embed; auto; lia|].
  split; [apply bytes_to_nodes_flat|]. split.
  - unfold generate_tree_general_call.
    pose proof (generate_tree_general_records t [] [] (S (length (records t 0))) Hf) as Hg.
    rewrite records_length in Hg. specialize (Hg ltac:(lia)).
    cbn [app len length Z.of_nat] in Hg. rewrite app_nil_r in Hg.
    change (Z.of_nat 0) with 0 in Hg. rewrite Z.add_0_l in Hg.
    unfold len. rewrite records_length, Hg. reflexivity.
  - unfold embed, embed_num. rewrite node_eqb_embed_opt.
    now apply ftree_eqb_eq.
Qed.

(** C2 on the code.  For every frequency table of two byte symbols or
    more, [generate_tree_general] rooted at the last record rebuilds,
    from the bytes [tree_to_bytes] writes for the numbered tree, a tree
    equal to it.  [generate_tree_postorder] does not: for the text
    [six_bytes] the builder returns ((101,102),((97,98),(99,100))),
    numbered 0 to 4 in postorder, and the queue hands the oldest
    finished subtree to the first reference, so that the tree returned
    is ((99,100),((101,102),(97,98))). *)
Theorem reconstruction_strategies :
  (forall freq_dict,
      NoDup (map fst freq_dict) -> Forall is_byte (map fst freq_dict) ->
      (2 <= length freq_dict)%nat ->
      exists T buf node_lst g,
        (t <- huffman_tree freq_dict ;; number_nodes t) = Ok T
        /\ tree_to_bytes T = Ok buf
        /\ bytes_to_nodes buf = Ok node_lst
        /\ generate_tree_general_call node_lst (len node_lst - 1) = Ok g
        /\ node_eqb g T = true)
  /\ exists T buf node_lst p,
      (t <- huffman_tree (make_freq_dict six_bytes) ;; number_nodes t) = Ok T
      /\ tree_to_bytes T = Ok buf
      /\ bytes_to_nodes buf = Ok node_lst
      /\ generate_tree_postorder node_lst (len node_lst - 1) = Ok p
      /\ node_eqb p T = false
      /\ T = embed_num (FNode (FNode (FLeaf 101) (FLeaf 102))
                              (FNode (FNode (FLeaf 97) (FLeaf 98))
                                     (FNode (FLeaf 99) (FLeaf 100)))) 0
      /\ p = embed (FNode (FNode (FLeaf 99) (FLeaf 100))
                          (FNode (FNode (FLeaf 101) (FLeaf 102))
                                 (FNode (FLeaf 97) (FLeaf 98)))).
Proof.
  split.
  - intros freq_dict Hn Hb Hl.
    destruct (general_reconstruction freq_dict Hn Hb Hl)
      as [t [Ht [Hnum [Hbytes [Hnodes [Hg He]]]]]].
    exists (embed_num t 0), (flat (records t 0)), (records t 0), (embed t).
    rewrite Ht. cbn [bind]. auto.
  - do 4 eexists.
    split; [vm_compute; reflexivity|].
    split; [vm_compute; reflexivity|].
    split; [vm_compute; reflexivity|].
    split; [vm_compute; reflexivity|].
    split; [vm_compute; reflexivity|].
    split; reflexivity.
Qed.

Lemma reconstruction_strategies_witness :
  exists T buf node_lst g,
    (t <- huffman_tree (make_freq_dict six_bytes) ;; number_nodes t) = Ok T
    /\ tree_to_bytes T = Ok buf
    /\ bytes_to_nodes buf = Ok node_lst
    /\ generate_tree_general_call node_lst (len node_lst - 1) = Ok g
    /\ node_eqb g T = true.
Proof.
  destruct reconstruction_strategies as [H _].
  apply (H (make_freq_dict six_bytes)).
  - change (NoDup [97; 98; 99; 100; 101; 102]).
    repeat (constructor; [cbn [In]; lia|]). constructor.
  - change (Forall is_byte [97; 98; 99; 100; 101; 102]).
    repeat (constructor; [unfold is_byte; lia|]). constructor.
  - vm_compute. lia.
Defined.

(** * Further properties of the module *)

(** ** Bits of an integer *)

Lemma get_bit_value byte bit_num :
  0 <= bit_num -> get_bit byte bit_num = Ok (Z.b2z (Z.testbit byte bit_num)).
Proof.
  intros Hk. unfold get_bit, shl, shr.
  destruct (bit_num <? 0) eqn:E; [lia|]. cbn [bind]. f_equal.
  rewrite Z.shiftl_1_l. apply Z.bits_inj'. intros i Hi.
  rewrite Z.shiftr_spec, Z.land_spec, Z.pow2_bits_eqb by lia.
  destruct (Z.eq_dec i 0) as [-> | Hne].
  - rewrite Z.add_0_l, Z.eqb_refl, andb_true_r, Z.b2z_bit0. reflexivity.
  - destruct (Z.eqb_spec bit_num (i + bit_num)); [lia|].
    rewrite andb_false_r. destruct (Z.testbit byte bit_num); cbn [Z.b2z].
    + symmetry. apply (Z.pow2_bits_false 0). lia.
    + symmetry. apply Z.bits_0.
Qed.

(** X1: [get_bit(byte, bit_num)] is the bit of weight [2 ** bit_num] of
    [byte], for every integer [byte] (also a negative one, read in two's
    complement) and every [bit_num >= 0]; a negative [bit_num] raises
    [ValueError], the negative shift count of [1 << bit_num]. *)
Theorem get_bit_is_testbit (byte bit_num : Z) :
  (0 <= bit_num -> get_bit byte bit_num = Ok (Z.b2z (Z.testbit byte bit_num)))
  /\ (bit_num < 0 -> get_bit byte bit_num = Raise ValueError).
Proof.
  split.
  - apply get_bit_value.
  - intros Hk. unfold get_bit, shl.
    destruct (bit_num <? 0) eqn:E; [reflexivity | lia].
Qed.

Lemma get_bit_is_testbit_witness :
  get_bit 5 2 = Ok (Z.b2z (Z.testbit 5 2)) /\ get_bit 5 (-1) = Raise ValueError.
Proof.
  split; [apply (get_bit_is_testbit 5 2) | apply (get_bit_is_testbit 5 (-1))]; lia.
Defined.

Lemma byte_to_bits_mod b : byte_to_bits b = byte_to_bits (b mod 256).
Proof.
  unfold byte_to_bits, range_7_down. cbn [mapM].
  rewrite !get_bit_value by lia.
  change 256 with (2 ^ 8).
  rewrite !Z.mod_pow2_bits_low by lia. reflexivity.
Qed.

(** X2: [byte_to_bits] accepts every integer, not only a byte: it never
    raises, returns 8 bit characters, and these are the bits of the
    argument modulo 256, so that [bits_to_byte] maps them to
    [byte % 256]. *)
Theorem byte_to_bits_low_bits (byte : Z) :
  exists s, byte_to_bits byte = Ok s
            /\ length s = 8%nat
            /\ is_bits s
            /\ byte_to_bits (byte mod 256) = Ok s
            /\ bits_to_byte s = Ok (byte mod 256).
Proof.
  assert (Hb : is_byte (byte mod 256)).
  { unfold is_byte. apply Z.mod_pos_bound. lia. }
  assert (H : byte_bits_check (byte mod 256) = true).
  { revert Hb. generalize (byte mod 256). apply forall_bytes.
    vm_compute. reflexivity. }
  unfold byte_bits_check in H. rewrite <- byte_to_bits_mod in H.
  destruct (byte_to_bits byte) as [s| |] eqn:E; try discriminate.
  exists s. apply andb_prop in H as [H H3]. apply andb_prop in H as [H1 H2].
  split; [reflexivity|]. split; [apply Nat.eqb_eq, H1|].
  split; [apply is_bitsb_spec, H2|].
  split; [now rewrite <- byte_to_bits_mod|].
  destruct (bits_to_byte s) as [v| |]; try discriminate.
  apply Z.eqb_eq in H3. now subst.
Qed.

(** X3: for a string of at most 8 bit characters, [bits_to_byte]
    returns a byte, and [byte_to_bits] of that byte is the string
    followed by ['0'] characters up to 8: the padding is on the right
    and is all that the conversion adds. *)
Theorem bits_to_byte_pads_right (s : list ascii) :
  is_bits s -> (length s <= 8)%nat ->
  exists v, bits_to_byte s = Ok v
            /\ is_byte v
            /\ byte_to_bits v = Ok (s ++ repeat "0"%char (8 - length s)).
Proof.
  intros Hs Hl. exists (byte_value s).
  split; [now apply bits_to_byte_value|].
  split; [apply byte_value_is_byte|].
  rewrite <- (byte_bits_value s Hs Hl).
  apply byte_to_bits_byte_bits.
Qed.

Lemma bits_to_byte_pads_right_witness :
  exists v, bits_to_byte (bits "101") = Ok v
            /\ is_byte v
            /\ byte_to_bits v = Ok (bits "101" ++ repeat "0"%char (8 - 3)).
Proof.
  apply (bits_to_byte_pads_right (bits "101")).
  - repeat (apply Forall_cons; [unfold is_bit_char; auto|]). apply Forall_nil.
  - cbn. lia.
Defined.

Lemma bits_to_byte_from_digit c s : forall k : nat,
  is_bits s -> (k + length s <= 8)%nat ->
  int_of_char c = Raise ValueError ->
  forall rest, bits_to_byte_from (Z.of_nat k) (s ++ c :: rest) = Raise ValueError.
Proof.
  induction s as [|d s IH]; intros k Hs Hl Hc rest.
  - cbn [app bits_to_byte_from]. rewrite Hc. reflexivity.
  - inversion Hs as [|? ? Hd Hs']; subst. cbn [app bits_to_byte_from].
    rewrite (int_of_bit_char d Hd). cbn [bind]. unfold shl.
    cbn [length] in Hl.
    destruct (7 - Z.of_nat k <? 0) eqn:E; [lia|]. cbn [bind].
    replace (Z.of_nat k + 1) with (Z.of_nat (S k)) by lia.
    rewrite IH by (auto; lia). reflexivity.
Qed.

(** X4: [bits_to_byte] raises [ValueError] on a bit string of more than
    8 characters (the shift count [7 - pos] becomes negative), and on a
    string whose first character that is not a bit is not a decimal
    digit ([int] rejects it), wherever that character stands among the
    first 9. *)
Theorem bits_to_byte_rejects (s : list ascii) :
  is_bits s ->
  ((8 < length s)%nat -> bits_to_byte s = Raise ValueError)
  /\ (forall c rest,
         (length s <= 8)%nat -> int_of_char c = Raise ValueError ->
         bits_to_byte (s ++ c :: rest) = Raise ValueError).
Proof.
  intros Hs. split.
  - intros Hl. now apply bits_to_byte_long.
  - intros c rest Hl Hc. unfold bits_to_byte.
    rewrite (bits_to_byte_from_digit c s 0 Hs) by (auto; lia). reflexivity.
Qed.

Lemma bits_to_byte_rejects_witness :
  bits_to_byte (bits "101010101") = Raise ValueError
  /\ bits_to_byte (bits "10" ++ "x"%char :: bits "1") = Raise ValueError.
Proof.
  assert (H : is_bits (bits "101010101")).
  { repeat (apply Forall_cons; [unfold is_bit_char; auto|]). apply Forall_nil. }
  assert (H2 : is_bits (bits "10")).
  { repeat (apply Forall_cons; [unfold is_bit_char; auto|]). apply Forall_nil. }
  split.
  - apply (bits_to_byte_rejects (bits "101010101") H). cbn. lia.
  - apply (bits_to_byte_rejects (bits "10") H2); [cbn; lia | reflexivity].
Defined.

(** ** The frequency table *)

Lemma dict_find_set_Z (d : list (Z * Z)) k v k' :
  dict_find Z.eqb (dict_set Z.eqb d k v) k'
  = if k =? k' then Some v else dict_find Z.eqb d k'.
Proof.
  induction d as [|[a x] d IH]; cbn [dict_set dict_find].
  - reflexivity.
  - destruct (Z.eqb_spec a k) as [-> | Hak]; cbn [dict_find].
    + destruct (Z.eqb_spec k k'); reflexivity.
    + rewrite IH. destruct (Z.eqb_spec a k') as [-> | Hak'].
      * destruct (Z.eqb_spec k k'); [congruence | reflexivity].
      * reflexivity.
Qed.

Lemma freq_of_count_byte freq b c :
  freq_of (count_byte freq b) c
  = freq_of freq c + (if Z.eq_dec b c then 1 else 0).
Proof.
  unfold freq_of, count_byte. rewrite dict_find_set_Z.
  destruct (Z.eqb_spec b c) as [-> | Hbc].
  - destruct (Z.eq_dec c c); [|congruence]. reflexivity.
  - destruct (Z.eq_dec b c); [congruence|]. lia.
Qed.

Lemma freq_of_fold text : forall freq c,
  freq_of (fold_left count_byte text freq) c
  = freq_of freq c + Z.of_nat (count_occ Z.eq_dec text c).
Proof.
  induction text as [|b text IH]; intros freq c; cbn [fold_left count_occ].
  - lia.
  - rewrite IH, freq_of_count_byte. destruct (Z.eq_dec b c); lia.
Qed.

(** X5: [make_freq_dict(text)][b] is the number of occurrences of [b]
    in [text] for every [b] that occurs, and a value that does not
    occur is not a key: looking it up raises [KeyError]. *)
Theorem make_freq_dict_counts (text : list Z) (b : Z) :
  (In b text ->
   dict_get Z.eqb (make_freq_dict text) b
   = Ok (Z.of_nat (count_occ Z.eq_dec text b))
   /\ 1 <= Z.of_nat (count_occ Z.eq_dec text b))
  /\ (~ In b text -> dict_get Z.eqb (make_freq_dict text) b = Raise KeyError).
Proof.
  pose proof (freq_of_fold text [] b) as Hf.
  fold (make_freq_dict text) in Hf. cbn in Hf.
  destruct (make_freq_dict_spec text) as [Hnd [Hkeys Hpos]].
  unfold freq_of in Hf. unfold dict_get. split; intros Hb.
  - apply Hkeys in Hb.
    destruct (dict_find_key Z.eqb Z.eqb_eq (make_freq_dict text) b Hb) as [v [Hv Hin]].
    rewrite Hv in Hf |- *. subst v. split; [reflexivity|].
    apply (Hpos _ Hin).
  - destruct (dict_find Z.eqb (make_freq_dict text) b) as [v|] eqn:E; [|reflexivity].
    exfalso. apply Hb, Hkeys. apply (dict_find_some_in Z.eqb Z.eqb_eq) in E.
    apply in_map_iff. exists (b, v). auto.
Qed.

Lemma make_freq_dict_counts_witness :
  dict_get Z.eqb (make_freq_dict [65; 66; 67; 66]) 66
  = Ok (Z.of_nat (count_occ Z.eq_dec [65; 66; 67; 66] 66))
  /\ dict_get Z.eqb (make_freq_dict [65; 66; 67; 66]) 68 = Raise KeyError.
Proof.
  split.
  - apply (make_freq_dict_counts [65; 66; 67; 66] 66). cbn. lia.
  - apply (make_freq_dict_counts [65; 66; 67; 66] 68). cbn. lia.
Defined.

Lemma make_freq_dict_snoc text b :
  make_freq_dict (text ++ [b]) = count_byte (make_freq_dict text) b.
Proof. unfold make_freq_dict. rewrite fold_left_app. reflexivity. Qed.

Lemma zsum_values_set (d : list (Z * Z)) k v :
  zsum (map snd (dict_set Z.eqb d k v))
  = zsum (map snd d) - freq_of d k + v.
Proof.
  unfold freq_of.
  induction d as [|[a x] d IH]; cbn [dict_set dict_find map snd zsum fold_right].
  - lia.
  - destruct (Z.eqb_spec a k) as [-> | Hak]; cbn [map snd zsum fold_right].
    + lia.
    + fold (zsum (map snd (dict_set Z.eqb d k v))). rewrite IH.
      fold (zsum (map snd d)). lia.
Qed.

Lemma make_freq_dict_total text :
  zsum (map snd (make_freq_dict text)) = len text.
Proof.
  induction text as [|b text IH] using rev_ind; [reflexivity|].
  rewrite make_freq_dict_snoc. unfold count_byte at 1.
  rewrite zsum_values_set, IH. unfold freq_of, len.
  rewrite length_app. cbn [length].
  destruct (dict_find Z.eqb (make_freq_dict text) b); lia.
Qed.

(** X6: the keys of [make_freq_dict(text)] are the distinct bytes of
    [text] in the order of their first occurrence (the order
    [huffman_tree] reads through [items()]), and the frequencies add up
    to [len(text)]. *)
Theorem make_freq_dict_keys_and_total (text : list Z) :
  map fst (make_freq_dict text) = rev (nodup Z.eq_dec (rev text))
  /\ NoDup (map fst (make_freq_dict text))
  /\ zsum (map snd (make_freq_dict text)) = len text.
Proof.
  split; [|split].
  - induction text as [|b text IH] using rev_ind; [reflexivity|].
    rewrite make_freq_dict_snoc, count_byte_keys, rev_app_distr.
    cbn [rev app nodup]. rewrite IH.
    destruct (in_dec Z.eq_dec b (rev (nodup Z.eq_dec (rev text)))) as [Hi | Hi];
      destruct (in_dec Z.eq_dec b (rev text)) as [Hj | Hj].
    + reflexivity.
    + exfalso. apply Hj. apply in_rev in Hi. now apply nodup_In in Hi.
    + exfalso. apply Hi. apply -> in_rev. now apply nodup_In.
    + reflexivity.
  - apply make_freq_dict_spec.
  - apply make_freq_dict_total.
Qed.

(** ** The tree builder *)

Lemma node_eqb_refl t : node_eqb t t = true.
Proof.
  induction t as [s l r n IHl IHr] using HuffmanNode_induction.
  cbn [node_eqb]. apply andb_true_iff. split; [apply andb_true_iff; split|].
  - destruct s as [x|]; cbn [opt_eqb]; [apply Z.eqb_refl | reflexivity].
  - destruct l as [c|]; [apply (IHl c); reflexivity | reflexivity].
  - destruct r as [c|]; [apply (IHr c); reflexivity | reflexivity].
Qed.

Lemma entry_eqb_refl e : entry_eqb e e = true.
Proof.
  unfold entry_eqb. rewrite Z.eqb_refl, andb_true_r.
  destruct (fst e); cbn [key_eqb]; [apply Z.eqb_refl | apply node_eqb_refl].
Qed.

Lemma entry_eqb_weight a b : snd a <> snd b -> entry_eqb a b = false.
Proof.
  intros H. unfold entry_eqb. destruct (Z.eqb_spec (snd a) (snd b)); [easy|].
  apply andb_false_r.
Qed.

Lemma fold_min_step_first lst : forall best,
  let m := fold_left min_step lst best in
  (m = best /\ forall e, In e lst -> snd best <= snd e)
  \/ (exists pre post,
         lst = pre ++ m :: post
         /\ (forall e, In e pre -> snd m < snd e)
         /\ (forall e, In e post -> snd m <= snd e)
         /\ snd m < snd best).
Proof.
  induction lst as [|a l IH]; intros best; cbv zeta; cbn [fold_left].
  - left. split; [reflexivity | intros e []].
  - cbv zeta in IH.
    change (min_step best a) with (if snd a <? snd best then a else best).
    destruct (snd a <? snd best) eqn:E.
    + right. destruct (IH a) as [[Hm Hall] | [pre [post [Hl [Hpre [Hpost Hlt]]]]]].
      * exists [], l. rewrite Hm. cbn [app].
        split; [reflexivity|]. split; [intros e []|]. split; [exact Hall | blia].
      * exists (a :: pre), post. cbn [app]. split; [now rewrite Hl at 1|].
        split; [|split; [exact Hpost | blia]].
        intros e [<- | He]; [exact Hlt | now apply Hpre].
    + destruct (IH best) as [[Hm Hall] | [pre [post [Hl [Hpre [Hpost Hlt]]]]]].
      * left. split; [exact Hm|]. intros e [<- | He]; [blia | now apply Hall].
      * right. exists (a :: pre), post. cbn [app]. split; [now rewrite Hl at 1|].
        split; [|split; [exact Hpost | exact Hlt]].
        intros e [<- | He]; [blia | now apply Hpre].
Qed.

Lemma list_remove_first_least pre x post :
  (forall e, In e pre -> snd x < snd e) ->
  list_remove entry_eqb (pre ++ x :: post) x = Ok (pre ++ post).
Proof.
  induction pre as [|a pre IH]; intros Hpre; cbn [app list_remove].
  - now rewrite entry_eqb_refl.
  - rewrite entry_eqb_weight.
    + rewrite IH; [reflexivity|]. intros e He. apply Hpre. now right.
    + specialize (Hpre a (or_introl eq_refl)). lia.
Qed.

(** X7: on a non-empty list, [take_min] returns the first entry of least
    weight and leaves the list without that entry, the other entries in
    their order: the entries before it are strictly heavier, the
    entries after it are not lighter.  On an empty list it raises
    [IndexError]. *)
Theorem take_min_takes_first_least (lst : list (key * Z)) :
  (lst <> [] ->
   exists x pre post,
     lst = pre ++ x :: post
     /\ (forall e, In e pre -> snd x < snd e)
     /\ (forall e, In e post -> snd x <= snd e)
     /\ take_min lst = Ok (x, pre ++ post))
  /\ (lst = [] -> take_min lst = Raise IndexError).
Proof.
  split; [|intros ->; reflexivity].
  intros Hne. destruct lst as [|first l]; [congruence|].
  unfold take_min. change (py_index (first :: l) 0) with (Ok first).
  cbn [bind fold_left].
  change (min_step first first)
    with (if snd first <? snd first then first else first).
  destruct (snd first <? snd first) eqn:E; [blia|]. clear E.
  pose proof (fold_min_step_first l first) as Hfold. cbv zeta in Hfold.
  destruct Hfold
    as [[Hm Hall] | [pre [post [Hl [Hpre [Hpost Hlt]]]]]].
  - rewrite Hm. exists first, [], l. cbn [app].
    split; [reflexivity|]. split; [intros e []|]. split; [exact Hall|].
    cbn [list_remove]. rewrite entry_eqb_refl. reflexivity.
  - set (m := fold_left min_step l first) in *.
    exists m, (first :: pre), post. cbn [app].
    split; [now rewrite Hl at 1|].
    assert (Hpre' : forall e, In e (first :: pre) -> snd m < snd e).
    { intros e [<- | He]; [exact Hlt | now apply Hpre]. }
    split; [exact Hpre'|]. split; [exact Hpost|].
    replace (first :: l) with ((first :: pre) ++ m :: post)
      by (cbn [app]; now rewrite <- Hl).
    rewrite (list_remove_first_least (first :: pre) m post Hpre').
    reflexivity.
Qed.

Lemma take_min_takes_first_least_witness :
  exists x pre post,
    [(KSym 1, 10); (KSym 2, 6); (KSym 3, 4); (KNode (mk_leaf (Some 4)), 5)]
    = pre ++ x :: post
    /\ (forall e, In e pre -> snd x < snd e)
    /\ (forall e, In e post -> snd x <= snd e)
    /\ take_min [(KSym 1, 10); (KSym 2, 6); (KSym 3, 4);
                 (KNode (mk_leaf (Some 4)), 5)]
       = Ok (x, pre ++ post).
Proof.
  apply (take_min_takes_first_least
           [(KSym 1, 10); (KSym 2, 6); (KSym 3, 4);
            (KNode (mk_leaf (Some 4)), 5)]).
  discriminate.
Defined.

(** X8: for a table of two symbols or more, [huffman_tree] returns a
    tree in which every inner node has its two children, whose leaves
    carry the symbols of the table, each as often as the table has it,
    and which has one inner node less than the table has symbols. *)
Theorem huffman_tree_shape (freq_dict : list (Z * Z)) :
  (2 <= length freq_dict)%nat ->
  exists t,
    huffman_tree freq_dict = Ok (embed t)
    /\ is_fnode t = true
    /\ Permutation (leaves t) (map fst freq_dict)
    /\ S (internal t) = length freq_dict.
Proof.
  intros H2. destruct (huffman_tree_build freq_dict H2) as [t [_ [Ht [Hf Hp]]]].
  exists t. split; [exact Ht|]. split; [exact Hf|]. split; [exact Hp|].
  rewrite <- leaves_length, (Permutation_length Hp). apply length_map.
Qed.

Lemma huffman_tree_shape_witness :
  exists t,
    huffman_tree [(2, 6); (3, 4)] = Ok (embed t)
    /\ is_fnode t = true
    /\ Permutation (leaves t) (map fst [(2, 6); (3, 4)])
    /\ S (internal t) = length [(2, 6); (3, 4)].
Proof. apply (huffman_tree_shape [(2, 6); (3, 4)]). cbn. lia. Defined.

Lemma take_min_single e : take_min [e] = Ok (e, []).
Proof.
  unfold take_min. change (py_index [e] 0) with (Ok e).
  cbn [bind fold_left]. unfold min_step. rewrite Z.ltb_irrefl.
  cbn [list_remove]. rewrite entry_eqb_refl. reflexivity.
Qed.

Lemma take_min_two e1 e2 :
  take_min [e1; e2]
  = Ok (if snd e2 <? snd e1 then (e2, [e1]) else (e1, [e2])).
Proof.
  unfold take_min. change (py_index [e1; e2] 0) with (Ok e1).
  cbn [bind fold_left]. unfold min_step. rewrite Z.ltb_irrefl.
  destruct (snd e2 <? snd e1) eqn:E; cbn [list_remove].
  - rewrite (entry_eqb_weight e1 e2) by blia. cbn [bind list_remove].
    rewrite entry_eqb_refl. reflexivity.
  - rewrite entry_eqb_refl. reflexivity.
Qed.

Lemma huffman_loop_step fuel freq root x f1 y f2 :
  (len freq =? 1) = false ->
  take_min freq = Ok (x, f1) -> take_min f1 = Ok (y, f2) ->
  huffman_loop (S fuel) freq root
  = huffman_loop fuel
      (f2 ++ [(KNode (mk_node None (Some (as_node (fst x)))
                              (Some (as_node (fst y)))),
               snd x + snd y)])
      (Some (mk_node None (Some (as_node (fst x))) (Some (as_node (fst y))))).
Proof.
  intros H1 Hx Hy. cbn [huffman_loop]. rewrite H1, Hx. cbn [bind].
  rewrite Hy. reflexivity.
Qed.

Lemma huffman_loop_done fuel e t : huffman_loop fuel [e] (Some t) = Ok t.
Proof. destruct fuel; reflexivity. Qed.

(** X9: for a table of two symbols, [huffman_tree] puts the symbol of
    lower frequency to the left, and the first symbol of the table to
    the left when the frequencies are equal. *)
Theorem huffman_tree_two_symbols (a x b y : Z) :
  huffman_tree [(a, x); (b, y)]
  = Ok (if y <? x
        then mk_node None (Some (mk_leaf (Some b))) (Some (mk_leaf (Some a)))
        else mk_node None (Some (mk_leaf (Some a))) (Some (mk_leaf (Some b)))).
Proof.
  unfold huffman_tree. cbn [map fst snd length].
  change (len [(KSym a, x); (KSym b, y)] =? 1) with false. cbv iota.
  pose proof (take_min_two (KSym a, x) (KSym b, y)) as H. cbn [snd] in H.
  destruct (y <? x) eqn:E.
  - rewrite (huffman_loop_step 2 [(KSym a, x); (KSym b, y)] None
               (KSym b, y) [(KSym a, x)] (KSym a, x) []
               eq_refl H (take_min_single _)).
    apply huffman_loop_done.
  - rewrite (huffman_loop_step 2 [(KSym a, x); (KSym b, y)] None
               (KSym a, x) [(KSym b, y)] (KSym b, y) []
               eq_refl H (take_min_single _)).
    apply huffman_loop_done.
Qed.

(** ** The code table *)

(** X10: for every tree whose inner nodes have two children and whose
    leaves carry distinct symbols (numbered or not), [get_codes] returns
    a table with one code for each leaf symbol, in the order of the
    leaves; a code is a non-empty bit string no longer than the height
    of the tree, and no code is a prefix of another one. *)
Theorem get_codes_prefix_free (t : ftree) (n : option Z) :
  is_fnode t = true -> NoDup (leaves t) ->
  exists codes,
    get_codes (Some (embed_opt t n)) = Ok codes
    /\ map fst codes = map Some (leaves t)
    /\ (forall e, In e codes ->
                  is_bits (snd e) /\ snd e <> []
                  /\ (length (snd e) <= height t)%nat)
    /\ (forall a b p q,
           In (a, p) codes -> In (b, p ++ q) codes -> q = [] /\ a = b).
Proof.
  intros Hf Hn. exists (paths t).
  split; [apply (get_codes_node_paths t n Hf Hn)|].
  split; [apply paths_keys|]. split.
  - intros e He. split; [now apply (paths_bits t)|].
    split; [now apply (paths_nonempty t) | now apply paths_length].
  - apply paths_prefix_free.
Qed.

Lemma get_codes_prefix_free_witness :
  exists codes,
    get_codes (Some (embed_opt (FNode (FNode (FLeaf 3) (FLeaf 2)) (FLeaf 9)) None))
    = Ok codes
    /\ map fst codes = map Some (leaves (FNode (FNode (FLeaf 3) (FLeaf 2)) (FLeaf 9)))
    /\ (forall e, In e codes ->
                  is_bits (snd e) /\ snd e <> []
                  /\ (length (snd e)
                      <= height (FNode (FNode (FLeaf 3) (FLeaf 2)) (FLeaf 9)))%nat)
    /\ (forall a b p q,
           In (a, p) codes -> In (b, p ++ q) codes -> q = [] /\ a = b).
Proof.
  apply (get_codes_prefix_free (FNode (FNode (FLeaf 3) (FLeaf 2)) (FLeaf 9)) None).
  - reflexivity.
  - cbn [leaves app]. repeat constructor; cbn; intuition discriminate.
Defined.

Lemma ksum_app H a b : ksum H (a ++ b) = ksum H a + ksum H b.
Proof. induction a as [|d a IH]; cbn [app ksum]; lia. Qed.

Lemma ksum_prefix H c d :
  ksum (S H) (map (fun e => length (snd e)) (prefix_codes [c] d))
  = ksum H (map (fun e : option Z * list ascii => length (snd e)) d).
Proof.
  unfold prefix_codes. rewrite map_map. cbn [snd app length].
  induction d as [|e d IH]; cbn [map ksum Nat.sub]; [reflexivity|].
  rewrite IH. reflexivity.
Qed.

Lemma ksum_paths t : forall H,
  (height t <= H)%nat ->
  ksum H (map (fun e => length (snd e)) (paths t)) = 2 ^ Z.of_nat H.
Proof.
  induction t as [s|l IHl r IHr]; intros H Hh.
  - cbn [paths map snd length ksum]. rewrite Nat.sub_0_r. lia.
  - cbn [height] in Hh. destruct H as [|H]; [lia|].
    cbn [paths]. rewrite map_app, ksum_app.
    change (bits "0") with ["0"%char]. change (bits "1") with ["1"%char].
    rewrite !ksum_prefix, IHl, IHr by lia.
    rewrite Nat2Z.inj_succ, Z.pow_succ_r by lia. lia.
Qed.

(** X11: the code of such a tree is complete: the code lengths meet
    Kraft's bound with equality, [sum(2 ** (H - len(c))) == 2 ** H] for
    [H] the height of the tree, so every sequence of [H] bits starts
    with exactly one code. *)
Theorem get_codes_kraft_equality (t : ftree) (n : option Z) :
  is_fnode t = true -> NoDup (leaves t) ->
  exists codes,
    get_codes (Some (embed_opt t n)) = Ok codes
    /\ ksum (height t) (map (fun e => length (snd e)) codes)
       = 2 ^ Z.of_nat (height t).
Proof.
  intros Hf Hn. exists (paths t).
  split; [apply (get_codes_node_paths t n Hf Hn)|].
  apply ksum_paths. lia.
Qed.

Lemma get_codes_kraft_equality_witness :
  exists codes,
    get_codes (Some (embed_opt (FNode (FNode (FLeaf 3) (FLeaf 2)) (FLeaf 9)) None))
    = Ok codes
    /\ ksum (height (FNode (FNode (FLeaf 3) (FLeaf 2)) (FLeaf 9)))
            (map (fun e => length (snd e)) codes)
       = 2 ^ Z.of_nat (height (FNode (FNode (FLeaf 3) (FLeaf 2)) (FLeaf 9))).
Proof.
  apply (get_codes_kraft_equality (FNode (FNode (FLeaf 3) (FLeaf 2)) (FLeaf 9)) None).
  - reflexivity.
  - cbn [leaves app]. repeat constructor; cbn; intuition discriminate.
Defined.

(** ** Numbering *)

Lemma opt_eqb_Z_refl (s : option Z) : opt_eqb Z.eqb s s = true.
Proof. destruct s; cbn [opt_eqb]; [apply Z.eqb_refl | reflexivity]. Qed.

Lemma numbering_invariant tree : forall n T m,
  numbering tree n = Ok (T, m) ->
  node_eqb T tree = true
  /\ symbol T = symbol tree
  /\ is_leaf T = is_leaf tree
  /\ get_codes_node T = get_codes_node tree
  /\ n <= m
  /\ (is_leaf tree = false -> number T = Some (m - 1) /\ n < m).
Proof.
  induction tree as [s l r num IHl IHr] using HuffmanNode_induction.
  intros n T m H. cbn [numbering] in H.
  destruct l as [c1|], r as [c2|]; cbn [is_leaf left right negb bind] in H.
  - destruct (numbering c1 n) as [[c1' n1]| |] eqn:E1; cbn [bind] in H;
      try discriminate.
    destruct (numbering c2 n1) as [[c2' n2]| |] eqn:E2; cbn [bind] in H;
      try discriminate.
    injection H as <- <-.
    destruct (IHl c1 eq_refl _ _ _ E1) as [A1 [B1 [C1 [D1 [L1 _]]]]].
    destruct (IHr c2 eq_refl _ _ _ E2) as [A2 [B2 [C2 [D2 [L2 _]]]]].
    split; [|split; [|split; [|split; [|split]]]].
    + cbn [node_eqb]. rewrite opt_eqb_Z_refl, A1, A2. reflexivity.
    + reflexivity.
    + reflexivity.
    + cbn [get_codes_node]. unfold codes_of_child.
      rewrite B1, C1, D1, B2, C2, D2. reflexivity.
    + lia.
    + intros _. cbn [number]. split; [f_equal; lia | lia].
  - destruct (numbering c1 n) as [[c1' n1]| |]; cbn [bind] in H; discriminate.
  - discriminate.
  - injection H as <- <-. split; [apply node_eqb_refl|].
    repeat split; try reflexivity; try lia; discriminate.
Qed.

(** X12: when [number_nodes] returns, the numbered tree is equal ([==])
    to the tree it was given, the root of a tree that is not a leaf
    carries a number, and [get_codes] gives for the numbered tree what
    it gives for the tree before: numbering changes [number] fields
    only. *)
Theorem number_nodes_keeps_codes (tree T : HuffmanNode) :
  number_nodes tree = Ok T ->
  node_eqb T tree = true
  /\ get_codes (Some T) = get_codes (Some tree)
  /\ (is_leaf tree = false -> exists k, number T = Some k /\ 0 <= k).
Proof.
  unfold number_nodes. intros H.
  destruct (numbering tree 0) as [[T' m]| |] eqn:E; cbn [bind] in H;
    try discriminate.
  injection H as <-.
  destruct (numbering_invariant tree 0 T' m E) as [A [_ [_ [D [_ N]]]]].
  split; [exact A|]. split; [exact D|].
  intros Hl. destruct (N Hl) as [Hn Hlt]. exists (m - 1). split; [exact Hn | lia].
Qed.

Lemma number_nodes_keeps_codes_witness :
  node_eqb (HNode None (Some (mk_leaf (Some 3))) (Some (mk_leaf (Some 2))) (Some 0))
           (mk_node None (Some (mk_leaf (Some 3))) (Some (mk_leaf (Some 2))))
  = true
  /\ get_codes (Some (HNode None (Some (mk_leaf (Some 3)))
                             (Some (mk_leaf (Some 2))) (Some 0)))
     = get_codes (Some (mk_node None (Some (mk_leaf (Some 3)))
                                (Some (mk_leaf (Some 2)))))
  /\ (is_leaf (mk_node None (Some (mk_leaf (Some 3))) (Some (mk_leaf (Some 2))))
      = false ->
      exists k, number (HNode None (Some (mk_leaf (Some 3)))
                              (Some (mk_leaf (Some 2))) (Some 0)) = Some k
                /\ 0 <= k).
Proof.
  apply (number_nodes_keeps_codes
           (mk_node None (Some (mk_leaf (Some 3))) (Some (mk_leaf (Some 2))))).
  reflexivity.
Defined.

Lemma numbering_embed_opt t : forall k n,
  numbering (embed_opt t k) n = Ok (embed_num t n, n + Z.of_nat (internal t)).
Proof.
  unfold embed_num.
  induction t as [s|l IHl r IHr]; intros k n.
  - cbn. now rewrite Z.add_0_r.
  - cbn [embed_opt shift option_map numbering is_leaf left right negb internal].
    rewrite IHl. cbn [bind]. rewrite IHr. cbn [bind].
    rewrite !Nat2Z.inj_add, !Z.add_assoc. reflexivity.
Qed.

(** X13: [numbering(tree, n)] numbers the inner nodes in postorder from
    [n] on (the left subtree, then the right subtree, then the node)
    whatever numbers the tree carried before, and returns [n] plus the
    number of inner nodes; the root of a tree with [k >= 1] inner nodes
    gets the number [n + k - 1]. *)
Theorem numbering_postorder (t : ftree) (old : option Z) (n : Z) :
  numbering (embed_opt t old) n
  = Ok (embed_num t n, n + Z.of_nat (internal t))
  /\ (is_fnode t = true ->
      number (embed_num t n) = Some (n + Z.of_nat (internal t) - 1)).
Proof.
  split; [apply numbering_embed_opt|].
  destruct t as [s|l r]; [discriminate|]. intros _.
  unfold embed_num. cbn [embed_opt number shift option_map internal].
  f_equal. lia.
Qed.

Lemma numbering_postorder_witness :
  number (embed_num (FNode (FNode (FLeaf 3) (FLeaf 2)) (FNode (FLeaf 9) (FLeaf 10))) 0)
  = Some (0 + Z.of_nat (internal (FNode (FNode (FLeaf 3) (FLeaf 2))
                                        (FNode (FLeaf 9) (FLeaf 10)))) - 1).
Proof.
  apply (numbering_postorder
           (FNode (FNode (FLeaf 3) (FLeaf 2)) (FNode (FLeaf 9) (FLeaf 10))) None 0).
  reflexivity.
Defined.

(** ** Bits per symbol *)

Lemma weighted_length_count_byte (h : Z -> Z) (d : list (Z * Z)) b :
  zsum (map (fun e => snd e * h (fst e)) (count_byte d b))
  = zsum (map (fun e => snd e * h (fst e)) d) + h b.
Proof.
  unfold count_byte.
  induction d as [|[a x] d IH]; cbn [dict_set dict_find map fst snd].
  - rewrite !zsum_cons. cbn [zsum fold_right]. lia.
  - destruct (Z.eqb_spec a b) as [-> | Hab]; cbn [map fst snd].
    + rewrite !zsum_cons. lia.
    + rewrite !zsum_cons, IH. lia.
Qed.

Lemma weighted_length_text text code :
  weighted_length (make_freq_dict text) code
  = zsum (map (fun b => len (code b)) text).
Proof.
  unfold weighted_length.
  induction text as [|b text IH] using rev_ind; [reflexivity|].
  rewrite make_freq_dict_snoc.
  rewrite (weighted_length_count_byte (fun k => len (code k))), IH.
  rewrite map_app, zsum_app. cbn [map]. rewrite zsum_cons.
  cbn [zsum fold_right]. lia.
Qed.

Lemma len_code_stream codes text :
  len (code_stream codes text) = zsum (map (fun b => len (code_of codes b)) text).
Proof.
  unfold code_stream.
  induction text as [|b text IH]; [reflexivity|].
  cbn [map concat]. rewrite len_app, zsum_cons, IH. reflexivity.
Qed.

Lemma avg_length_any_number t n m freq_dict :
  is_fnode t = true -> NoDup (leaves t) ->
  avg_length (embed_opt t n) freq_dict = avg_length (embed_opt t m) freq_dict.
Proof.
  intros Hf Hn. unfold avg_length. cbn [get_codes].
  now rewrite !get_codes_node_paths.
Qed.

(** X14: for a text with two distinct bytes or more, the quotient
    [avg_length] computes for the tree of the text (the "bits per
    symbol" that [compress] prints) is the number of bits of the codes
    of all the bytes of the text, one after the other, divided by
    [len(text)]. *)
Theorem avg_length_is_bits_per_byte (text : list Z) :
  (2 <= length (make_freq_dict text))%nat ->
  exists tree codes T,
    huffman_tree (make_freq_dict text) = Ok tree
    /\ get_codes (Some tree) = Ok codes
    /\ number_nodes tree = Ok T
    /\ avg_length T (make_freq_dict text)
       = Ok (len (code_stream codes text), len text).
Proof.
  intros H2. destruct (make_freq_dict_spec text) as [Hn [_ Hpos]].
  destruct (huffman_tree_optimal _ Hn Hpos H2)
    as [t [Hf [Hnl [_ [Ht [Hc [Ha _]]]]]]].
  exists (embed t), (paths t), (embed_num t 0).
  split; [exact Ht|]. split; [exact Hc|].
  split; [apply number_nodes_embed|].
  unfold embed_num. rewrite (avg_length_any_number t (Some 0) None) by auto.
  fold (embed t). rewrite Ha.
  now rewrite weighted_length_text, <- len_code_stream, make_freq_dict_total.
Qed.

Lemma avg_length_is_bits_per_byte_witness :
  exists tree codes T,
    huffman_tree (make_freq_dict [65; 66; 67; 66]) = Ok tree
    /\ get_codes (Some tree) = Ok codes
    /\ number_nodes tree = Ok T
    /\ avg_length T (make_freq_dict [65; 66; 67; 66])
       = Ok (len (code_stream codes [65; 66; 67; 66]), len [65; 66; 67; 66]).
Proof. apply (avg_length_is_bits_per_byte [65; 66; 67; 66]). cbn. lia. Defined.

Lemma avg_loop_missing freq_dict codes b : forall keys total avg,
  (forall k, In k keys -> exists c, dict_find sym_eqb codes k = Some c) ->
  In (Some b) keys -> dict_find Z.eqb freq_dict b = None ->
  avg_loop freq_dict codes keys total avg = Raise KeyError.
Proof.
  induction keys as [|k keys IH]; intros total avg Hc Hin Hb; [destruct Hin|].
  cbn [avg_loop]. destruct k as [b'|]; [|reflexivity].
  unfold dict_get at 1.
  destruct (dict_find Z.eqb freq_dict b') as [f|] eqn:Ef; [|reflexivity].
  cbn [bind]. destruct (Hc (Some b') (or_introl eq_refl)) as [c Ec].
  unfold dict_get. rewrite Ec. cbn [bind].
  apply IH; [intros; apply Hc; now right | | exact Hb].
  destruct Hin as [E | Hin]; [|exact Hin].
  injection E as ->. congruence.
Qed.

Lemma avg_loop_agree freq1 freq2 codes : forall keys total avg,
  (forall b, In (Some b) keys ->
             dict_find Z.eqb freq1 b = dict_find Z.eqb freq2 b) ->
  avg_loop freq1 codes keys total avg = avg_loop freq2 codes keys total avg.
Proof.
  induction keys as [|k keys IH]; intros total avg H; [reflexivity|].
  cbn [avg_loop]. destruct k as [b|].
  - unfold dict_get at 1 3. rewrite (H b (or_introl eq_refl)).
    destruct (dict_find Z.eqb freq2 b); cbn [bind]; [|reflexivity].
    destruct (dict_get sym_eqb codes (Some b)); cbn [bind]; [|reflexivity..].
    apply IH. intros; apply H; now right.
  - reflexivity.
Qed.

(** X15: [avg_length] reads the frequencies of the symbols of the tree
    and no others: it raises [KeyError] when a symbol of the tree is
    missing from [freq_dict], and two tables that agree on the symbols
    of the tree give the same result, whatever other symbols they
    count (the total it divides by is taken over the tree, not over
    the table). *)
Theorem avg_length_reads_tree_symbols (t : ftree) (n : option Z) :
  is_fnode t = true -> NoDup (leaves t) ->
  (forall freq_dict b,
      In b (leaves t) -> ~ In b (map fst freq_dict) ->
      avg_length (embed_opt t n) freq_dict = Raise KeyError)
  /\ (forall freq1 freq2,
         (forall b, In b (leaves t) ->
                    dict_find Z.eqb freq1 b = dict_find Z.eqb freq2 b) ->
         avg_length (embed_opt t n) freq1 = avg_length (embed_opt t n) freq2).
Proof.
  intros Hf Hn. split.
  - intros freq_dict b Hb Hmiss. unfold avg_length. cbn [get_codes].
    rewrite get_codes_node_paths by auto. cbn [bind].
    rewrite (avg_loop_missing freq_dict (paths t) b); [reflexivity| | |].
    + intros k Hk. rewrite paths_keys in Hk.
      apply in_map_iff in Hk as [s [<- Hs]].
      destruct (paths_code_of t s Hs) as [_ Hc]. eauto.
    + rewrite paths_keys. now apply in_map.
    + destruct (dict_find Z.eqb freq_dict b) as [f|] eqn:E; [|reflexivity].
      exfalso. apply Hmiss. apply (dict_find_some_in Z.eqb Z.eqb_eq) in E.
      apply in_map_iff. exists (b, f). auto.
  - intros freq1 freq2 H. unfold avg_length. cbn [get_codes].
    rewrite get_codes_node_paths by auto. cbn [bind].
    rewrite (avg_loop_agree freq1 freq2); [reflexivity|].
    intros b Hb. rewrite paths_keys in Hb.
    apply in_map_iff in Hb as [s [E Hs]]. injection E as ->. now apply H.
Qed.

Lemma avg_length_reads_tree_symbols_witness :
  avg_length (embed_opt (FNode (FNode (FLeaf 3) (FLeaf 2)) (FLeaf 9)) None)
             [(3, 2); (2, 7)]
  = Raise KeyError
  /\ avg_length (embed_opt (FNode (FNode (FLeaf 3) (FLeaf 2)) (FLeaf 9)) None)
                [(3, 2); (2, 7); (9, 1)]
     = avg_length (embed_opt (FNode (FNode (FLeaf 3) (FLeaf 2)) (FLeaf 9)) None)
                  [(3, 2); (2, 7); (9, 1); (5, 40)].
Proof.
  assert (Hn : NoDup (leaves (FNode (FNode (FLeaf 3) (FLeaf 2)) (FLeaf 9)))).
  { cbn [leaves app]. repeat constructor; cbn; intuition discriminate. }
  destruct (avg_length_reads_tree_symbols
              (FNode (FNode (FLeaf 3) (FLeaf 2)) (FLeaf 9)) None eq_refl Hn)
    as [H1 H2].
  split.
  - apply (H1 [(3, 2); (2, 7)] 9); cbn; intuition discriminate.
  - apply H2. intros b Hb. cbn [leaves app] in Hb. cbn [dict_find].
    destruct Hb as [<- | [<- | [<- | []]]]; reflexivity.
Defined.

(** ** The packer *)

Lemma len_cons {A} (x : A) l : len (x :: l) = 1 + len l.
Proof. unfold len. cbn [length]. lia. Qed.

Lemma pack_spec_length : forall n s,
  (length s <= n)%nat -> len (pack_spec s) = (len s + 7) / 8.
Proof.
  induction n as [|n IH]; intros s Hl.
  - destruct s; [reflexivity | cbn in Hl; lia].
  - destruct (le_lt_dec 8 (length s)) as [H8 | H8].
    + rewrite <- (firstn_skipn 8 s).
      assert (Hlf : length (firstn 8 s) = 8%nat) by (rewrite length_firstn; lia).
      rewrite pack_spec_chunk by exact Hlf.
      rewrite len_cons, len_app.
      rewrite IH by (rewrite length_skipn; lia).
      unfold len. rewrite Hlf, length_skipn.
      replace (Z.of_nat 8 + Z.of_nat (length s - 8) + 7)
        with (Z.of_nat (length s - 8) + 7 + 1 * 8) by lia.
      rewrite Z.div_add by lia. lia.
    + destruct s as [|c s]; [reflexivity|].
      rewrite pack_spec_short by (cbn [length] in *; lia).
      unfold len. cbn [length] in *.
      assert (E : (Z.of_nat (S (length s)) + 7) / 8 = 1).
      { symmetry. apply Z.div_unique with (r := Z.of_nat (S (length s)) - 1); lia. }
      rewrite E. reflexivity.
Qed.

(** X16: when every byte of [text] has a code of at most 8 bits,
    [generate_compressed] returns [max(1, ceil(n / 8))] bytes for the
    [n] bits of the codes of [text]: one byte also when there is no bit
    at all, and no byte of padding when [n] is a positive multiple of
    8. *)
Theorem generate_compressed_length (codes : list (option Z * list ascii))
        (text : list Z) :
  covered 8 codes text = true ->
  exists out,
    generate_compressed text codes = Ok out
    /\ is_bytes out
    /\ len out = Z.max 1 ((len (code_stream codes text) + 7) / 8).
Proof.
  intros Hc. destruct (generate_compressed_total codes text Hc) as [out Ho].
  exists out. split; [exact Ho|].
  pose proof (generate_compressed_spec 8 codes text out Hc Ho) as ->.
  split.
  - unfold generate_compressed in Ho.
    destruct (pack_loop codes text [] []) as [[y byte]| |]; cbn [bind] in Ho;
      try discriminate.
    destruct (bits_to_byte byte) as [b| |]; cbn [bind] in Ho; try discriminate.
    apply to_bytes_some_inv in Ho as [<- Hb]. exact Hb.
  - unfold packed. destruct (code_stream codes text) as [|c s] eqn:E.
    + reflexivity.
    + rewrite (pack_spec_length (length (c :: s))) by lia.
      assert (1 <= (len (c :: s) + 7) / 8); [|lia].
      apply Z.div_le_lower_bound; [lia|]. unfold len. cbn [length]. lia.
Qed.

Lemma generate_compressed_length_witness :
  exists out,
    generate_compressed [1; 2; 1; 0; 2] doctest_codes = Ok out
    /\ is_bytes out
    /\ len out = Z.max 1 ((len (code_stream doctest_codes [1; 2; 1; 0; 2]) + 7) / 8).
Proof.
  apply (generate_compressed_length doctest_codes [1; 2; 1; 0; 2]). reflexivity.
Defined.

Lemma pack_loop_app codes a b : forall y byte,
  pack_loop codes (a ++ b) y byte
  = ('(y', byte') <- pack_loop codes a y byte ;; pack_loop codes b y' byte').
Proof.
  induction a as [|i a IH]; intros y byte; [reflexivity|].
  cbn [app pack_loop].
  destruct (dict_get sym_eqb codes (Some i)) as [c| |]; cbn [bind];
    [|reflexivity..].
  destruct (len byte + len c >? 8); [|apply IH].
  destruct (bits_to_byte (firstn 8 (byte ++ c))) as [v| |]; cbn [bind];
    [apply IH | reflexivity..].
Qed.

(** X17: [generate_compressed] raises [KeyError] at the first byte of
    [text] that has no code in [codes], when the bytes before it have
    codes of at most 8 bits. *)
Theorem generate_compressed_missing_code
        (codes : list (option Z * list ascii)) (pre post : list Z) (i : Z) :
  covered 8 codes pre = true ->
  dict_find sym_eqb codes (Some i) = None ->
  generate_compressed (pre ++ i :: post) codes = Raise KeyError.
Proof.
  intros Hc Hi. unfold generate_compressed. rewrite pack_loop_app.
  destruct (pack_loop_total codes pre [] [] Hc) as [y [byte [E _]]];
    [apply Forall_nil | cbn; lia |].
  rewrite E. cbn [bind pack_loop]. unfold dict_get. rewrite Hi. reflexivity.
Qed.

Lemma generate_compressed_missing_code_witness :
  generate_compressed ([1; 2] ++ 7 :: [0]) doctest_codes = Raise KeyError.
Proof.
  apply (generate_compressed_missing_code doctest_codes [1; 2] [0] 7);
    reflexivity.
Defined.

(** ** The header of the container *)

(** X18: for a tree whose inner nodes have two children, with byte
    symbols and at most 255 inner nodes, the two parts of the header
    agree after [number_nodes]: [num_nodes_to_bytes] returns the one
    byte [k], the number of inner nodes, and [tree_to_bytes] returns
    [4 * k] bytes, which is what [uncompress] reads for the table. *)
Theorem tree_header_consistent (t : ftree) :
  is_fnode t = true -> Forall is_byte (leaves t) -> (internal t <= 255)%nat ->
  exists T buf,
    number_nodes (embed t) = Ok T
    /\ num_nodes_to_bytes T = Ok [Z.of_nat (internal t)]
    /\ tree_to_bytes T = Ok buf
    /\ is_bytes buf
    /\ len buf = 4 * Z.of_nat (internal t).
Proof.
  intros Hf Hb Hi. exists (embed_num t 0), (flat (records t 0)).
  split; [apply number_nodes_embed|]. split.
  { destruct t as [s|l r]; [discriminate|].
    unfold num_nodes_to_bytes, embed_num.
    cbn [embed_opt number shift option_map to_bytes internal] in *.
    replace (0 + Z.of_nat (internal l + internal r) + 1)
      with (Z.of_nat (internal l + internal r + 1)) by lia.
    replace (is_byteb (Z.of_nat (internal l + internal r + 1))) with true;
      [reflexivity|].
    symmetry. apply is_byteb_spec. unfold is_byte. lia. }
  split; [apply tree_to_bytes_embed; auto; lia|].
  split; [apply records_bytes; auto; lia|].
  unfold len. rewrite flat_length, records_length. lia.
Qed.

Lemma tree_header_consistent_witness :
  exists T buf,
    number_nodes (embed (FNode (FNode (FLeaf 3) (FLeaf 2)) (FLeaf 5))) = Ok T
    /\ num_nodes_to_bytes T
       = Ok [Z.of_nat (internal (FNode (FNode (FLeaf 3) (FLeaf 2)) (FLeaf 5)))]
    /\ tree_to_bytes T = Ok buf
    /\ is_bytes buf
    /\ len buf = 4 * Z.of_nat (internal (FNode (FNode (FLeaf 3) (FLeaf 2)) (FLeaf 5))).
Proof.
  apply (tree_header_consistent (FNode (FNode (FLeaf 3) (FLeaf 2)) (FLeaf 5))).
  - reflexivity.
  - cbn [leaves app]. repeat (apply Forall_cons; [unfold is_byte; lia|]).
    apply Forall_nil.
  - cbn. lia.
Defined.

Lemma to_bytes_none pre rest :
  Forall is_byte pre -> to_bytes (map Some pre ++ None :: rest) = Raise TypeError.
Proof.
  induction 1 as [|b l Hb _ IH]; [reflexivity|].
  cbn [map app to_bytes]. apply is_byteb_spec in Hb. rewrite Hb, IH. reflexivity.
Qed.

Lemma tree_to_bytes_unnumbered t :
  is_fnode t = true -> Forall is_byte (leaves t) ->
  ((internal t = 1)%nat ->
   exists buf, tree_to_bytes (embed t) = Ok buf /\ Forall is_byte buf)
  /\ ((2 <= internal t)%nat -> tree_to_bytes (embed t) = Raise TypeError).
Proof.
  unfold embed.
  induction t as [s|l IHl r IHr]; intros Hf Hb; [discriminate|].
  cbn [leaves] in Hb. apply Forall_app in Hb as [Hbl Hbr].
  assert (Hsub : forall c, (is_fnode c = true -> Forall is_byte (leaves c) ->
                       ((internal c = 1)%nat ->
                        exists buf, tree_to_bytes (embed_opt c None) = Ok buf
                                    /\ Forall is_byte buf)
                       /\ ((2 <= internal c)%nat ->
                           tree_to_bytes (embed_opt c None) = Raise TypeError)) ->
                 Forall is_byte (leaves c) ->
                 (is_fnode c = true /\
                  tree_to_bytes (embed_opt c None) = Raise TypeError)
                 \/ (is_fnode c = true /\
                     exists buf, tree_to_bytes (embed_opt c None) = Ok buf
                                 /\ Forall is_byte buf)
                 \/ (exists s, c = FLeaf s /\ is_byte s)).
  { intros c IH Hc. destruct c as [s|c1 c2].
    - right. right. exists s. split; [reflexivity|]. now inversion Hc.
    - destruct (IH eq_refl Hc) as [H1 H2].
      pose proof (internal_pos (FNode c1 c2) eq_refl) as Hp.
      destruct (Nat.eq_dec (internal (FNode c1 c2)) 1) as [E | E].
      + right. left. split; [reflexivity | now apply H1].
      + left. split; [reflexivity | apply H2; lia]. }
  cbn [embed_opt tree_to_bytes shift option_map internal].
  rewrite !is_leaf_embed_opt.
  destruct (Hsub l IHl Hbl) as [[Fl El] | [[Fl [bl [El Bl]]] | [sl [-> Sl]]]].
  - rewrite Fl. cbn [negb]. rewrite El. cbn [bind].
    split; [intros; pose proof (internal_pos l Fl); lia | reflexivity].
  - rewrite Fl. cbn [negb]. rewrite El. cbn [bind].
    assert (Hfl : child_fields (Some (embed_opt l None)) = Ok [Some 1; None]).
    { unfold child_fields. rewrite is_leaf_embed_opt, Fl. cbn [negb].
      destruct l; [discriminate | reflexivity]. }
    destruct (Hsub r IHr Hbr) as [[Fr Er] | [[Fr [br [Er Br]]] | [sr [-> Sr]]]].
    + rewrite Fr. cbn [negb]. rewrite Er. cbn [bind].
      split; [intros; pose proof (internal_pos l Fl);
              pose proof (internal_pos r Fr); lia | reflexivity].
    + rewrite Fr. cbn [negb]. rewrite Er. cbn [bind]. rewrite Hfl. cbn [bind].
      destruct (child_fields (Some (embed_opt r None))) as [fr| |] eqn:Efr.
      * cbn [bind]. split.
        { intros; pose proof (internal_pos l Fl);
            pose proof (internal_pos r Fr); lia. }
        intros _. rewrite app_assoc, <- map_app.
        change ([Some 1; None] ++ fr) with (map Some [1] ++ None :: fr).
        rewrite app_assoc, <- map_app. apply to_bytes_none.
        apply Forall_app. split; [apply Forall_app; auto|].
        constructor; [unfold is_byte; lia | constructor].
      * unfold child_fields in Efr. destruct (is_leaf (embed_opt r None)); discriminate.
      * unfold child_fields in Efr. destruct (is_leaf (embed_opt r None)); discriminate.
    + cbn [is_fnode negb bind internal]. rewrite Hfl. cbn [bind child_fields].
      cbn [embed_opt is_leaf mk_leaf mk_node left right symbol bind map app].
      split; [intros; pose proof (internal_pos l Fl); lia|].
      intros _.
      change (map Some bl ++ [Some 1; None; Some 0; Some sr])
        with (map Some bl ++ map Some [1] ++ None :: [Some 0; Some sr]).
      rewrite app_assoc, <- map_app. apply to_bytes_none.
      apply Forall_app. split; [exact Bl|].
      constructor; [unfold is_byte; lia | constructor].
  - cbn [is_fnode negb bind internal].
    assert (Hfl : child_fields (Some (embed_opt (FLeaf sl) None))
                  = Ok [Some 0; Some sl]) by reflexivity.
    destruct (Hsub r IHr Hbr) as [[Fr Er] | [[Fr [br [Er Br]]] | [sr [-> Sr]]]].
    + rewrite Fr. cbn [negb]. rewrite Er. cbn [bind].
      split; [intros; pose proof (internal_pos r Fr); lia | reflexivity].
    + rewrite Fr. cbn [negb]. rewrite Er. cbn [bind]. rewrite Hfl. cbn [bind].
      assert (Hfr : child_fields (Some (embed_opt r None)) = Ok [Some 1; None]).
      { unfold child_fields. rewrite is_leaf_embed_opt, Fr. cbn [negb].
        destruct r; [discriminate | reflexivity]. }
      rewrite Hfr. cbn [bind map app].
      split; [intros; pose proof (internal_pos r Fr); lia|].
      intros _.
      change (map Some br ++ [Some 0; Some sl; Some 1; None])
        with (map Some br ++ map Some [0; sl; 1] ++ None :: []).
      rewrite app_assoc, <- map_app. apply to_bytes_none.
      apply Forall_app. split; [exact Br|].
      repeat (constructor; [first [exact Sl | unfold is_byte; lia]|]).
      constructor.
    + cbn [is_fnode negb bind internal]. rewrite Hfl. cbn [bind].
      change (child_fields (Some (embed_opt (FLeaf sr) None)))
        with (Ok [Some 0; Some sr]).
      cbn [bind map app]. split; [|intros; lia]. intros _.
      exists [0; sl; 0; sr].
      assert (Hb4 : Forall is_byte [0; sl; 0; sr]).
      { repeat (constructor; [first [exact Sl | exact Sr | unfold is_byte; lia]|]).
        constructor. }
      split; [apply (to_bytes_some [0; sl; 0; sr] Hb4) | exact Hb4].
Qed.

(** X19: [tree_to_bytes] depends on its precondition: on a tree with
    byte symbols that has not been numbered and has an inner node
    below the root, it raises [TypeError], the [None] that stands for
    the missing number being no byte. *)
Theorem tree_to_bytes_needs_numbers (t : ftree) :
  is_fnode t = true -> Forall is_byte (leaves t) -> (2 <= internal t)%nat ->
  tree_to_bytes (embed t) = Raise TypeError.
Proof.
  intros Hf Hb Hi. now apply (tree_to_bytes_unnumbered t Hf Hb).
Qed.

Lemma tree_to_bytes_needs_numbers_witness :
  tree_to_bytes (embed (FNode (FNode (FLeaf 3) (FLeaf 2)) (FLeaf 5)))
  = Raise TypeError.
Proof.
  apply (tree_to_bytes_needs_numbers (FNode (FNode (FLeaf 3) (FLeaf 2)) (FLeaf 5))).
  - reflexivity.
  - cbn [leaves app]. repeat (apply Forall_cons; [unfold is_byte; lia|]).
    apply Forall_nil.
  - cbn. lia.
Defined.

(** ** The size field *)

(** X20: [size_to_bytes] writes a size below [2 ** 32] as 4 bytes from
    which [bytes_to_size] reads the size back, and raises
    [OverflowError] for a negative size and for a size of [2 ** 32] or
    more. *)
Theorem size_field_roundtrip (size : Z) :
  (0 <= size < 2 ^ 32 ->
   exists c, size_to_bytes size = Ok c
             /\ length c = 4%nat /\ is_bytes c
             /\ bytes_to_size c = size)
  /\ (size < 0 \/ 2 ^ 32 <= size -> size_to_bytes size = Raise OverflowError).
Proof.
  unfold size_to_bytes. split; intros H.
  - destruct (size <? 0) eqn:E1; [blia|].
    destruct (2 ^ 32 <=? size) eqn:E2; [blia|]. cbn [orb].
    destruct (le_bytes_spec 4 size) as [Hb [Hl Hv]]; [cbn; lia|].
    exists (le_bytes 4 size). auto.
  - destruct (size <? 0) eqn:E1; [reflexivity|].
    destruct (2 ^ 32 <=? size) eqn:E2; [reflexivity | blia].
Qed.

Lemma size_field_roundtrip_witness :
  (exists c, size_to_bytes 300 = Ok c
             /\ length c = 4%nat /\ is_bytes c
             /\ bytes_to_size c = 300)
  /\ size_to_bytes (2 ^ 32) = Raise OverflowError.
Proof.
  split.
  - apply (size_field_roundtrip 300). lia.
  - apply (size_field_roundtrip (2 ^ 32)). lia.
Defined.

Lemma bytes_to_size_spec buf :
  is_bytes buf ->
  0 <= bytes_to_size buf < 256 ^ len buf
  /\ le_bytes (length buf) (bytes_to_size buf) = buf.
Proof.
  induction 1 as [|b buf Hb _ [IHr IHl]].
  - cbn. split; [lia | reflexivity].
  - unfold is_byte in Hb. cbn [bytes_to_size length le_bytes].
    rewrite len_cons, Z.pow_add_r by (unfold len; lia).
    split; [nia|].
    replace ((b + 256 * bytes_to_size buf) mod 256) with b.
    + replace ((b + 256 * bytes_to_size buf) / 256) with (bytes_to_size buf).
      * now rewrite IHl.
      * apply Z.div_unique with (r := b); lia.
    + apply Z.mod_unique with (q := bytes_to_size buf); lia.
Qed.

(** X21: [bytes_to_size] reads [k] bytes as a number below [256 ** k],
    least significant byte first, whatever [k] is (fewer than 4 bytes are
    not refused), the bytes that follow weighing [256 ** k]; on 4 bytes
    it is the inverse of [size_to_bytes]. *)
Theorem bytes_to_size_little_endian (buf : list Z) :
  is_bytes buf ->
  0 <= bytes_to_size buf < 256 ^ len buf
  /\ (forall more, is_bytes more ->
        bytes_to_size (buf ++ more)
        = bytes_to_size buf + 256 ^ len buf * bytes_to_size more)
  /\ (length buf = 4%nat -> size_to_bytes (bytes_to_size buf) = Ok buf).
Proof.
  intros Hb. destruct (bytes_to_size_spec buf Hb) as [Hr Hl].
  split; [exact Hr|]. split.
  - intros more _. clear. induction buf as [|b buf IH].
    + cbn [app bytes_to_size]. change (len (@nil Z)) with 0. lia.
    + cbn [app bytes_to_size]. rewrite IH, len_cons.
      rewrite Z.pow_add_r by (unfold len; lia). lia.
  - intros H4. unfold size_to_bytes. unfold len in Hr. rewrite H4 in Hr, Hl.
    change (256 ^ Z.of_nat 4) with (2 ^ 32) in Hr.
    destruct (bytes_to_size buf <? 0) eqn:E1; [blia|].
    destruct (2 ^ 32 <=? bytes_to_size buf) eqn:E2; [blia|].
    cbn [orb]. now rewrite Hl.
Qed.

Lemma bytes_to_size_little_endian_witness :
  0 <= bytes_to_size [44; 1; 0; 0] < 256 ^ len [44; 1; 0; 0]
  /\ (forall more, is_bytes more ->
        bytes_to_size ([44; 1; 0; 0] ++ more)
        = bytes_to_size [44; 1; 0; 0]
          + 256 ^ len [44; 1; 0; 0] * bytes_to_size more)
  /\ (length [44; 1; 0; 0] = 4%nat ->
      size_to_bytes (bytes_to_size [44; 1; 0; 0]) = Ok [44; 1; 0; 0]).
Proof.
  apply (bytes_to_size_little_endian [44; 1; 0; 0]).
  repeat (apply Forall_cons; [unfold is_byte; lia|]). apply Forall_nil.
Defined.

(** ** The record table read back *)

Lemma flat_chunks : forall n buf,
  length buf = (4 * n)%nat -> exists recs, buf = flat recs /\ length recs = n.
Proof.
  induction n as [|n IH]; intros buf Hl.
  - destruct buf; [|discriminate]. exists []. auto.
  - destruct buf as [|a [|b [|c [|d buf]]]]; cbn [length] in Hl; try lia.
    destruct (IH buf) as [recs [-> Hr]]; [lia|].
    exists (mkReadNode a b c d :: recs). split; [reflexivity|].
    cbn [length]. lia.
Qed.

Lemma nodes_at_short recs tail : forall pre,
  (1 <= length tail <= 3)%nat ->
  nodes_at (flat (pre ++ recs) ++ tail)
           (map (fun k => 4 * Z.of_nat k) (seq (length pre) (S (length recs))))
  = Raise IndexError.
Proof.
  induction recs as [|x recs IH]; intros pre Ht.
  - rewrite app_nil_r. cbn [length seq map nodes_at].
    assert (E : forall j, 0 <= j ->
                          py_index (flat pre ++ tail) (4 * Z.of_nat (length pre) + j)
                          = py_index tail j).
    { intros j Hj.
      replace (4 * Z.of_nat (length pre)) with (len (flat pre))
        by (unfold len; rewrite flat_length; lia).
      now apply py_index_app_r. }
    rewrite <- (Z.add_0_r (4 * Z.of_nat (length pre))) at 1.
    rewrite !E by lia.
    destruct tail as [|a [|b [|c [|d tail]]]]; cbn [length] in Ht; try lia;
      reflexivity.
  - cbn [length]. remember (S (length recs)) as k eqn:Ek.
    cbn [seq map nodes_at].
    assert (E : forall j, 0 <= j ->
                          py_index (flat (pre ++ x :: recs) ++ tail)
                                   (4 * Z.of_nat (length pre) + j)
                          = py_index ([l_type x; l_data x; r_type x; r_data x]
                                        ++ flat recs ++ tail) j).
    { intros j Hj. rewrite flat_app, <- app_assoc.
      replace (4 * Z.of_nat (length pre)) with (len (flat pre))
        by (unfold len; rewrite flat_length; lia).
      rewrite py_index_app_r by exact Hj.
      change (flat (x :: recs))
        with ([l_type x; l_data x; r_type x; r_data x] ++ flat recs).
      now rewrite <- app_assoc. }
    rewrite <- (Z.add_0_r (4 * Z.of_nat (length pre))) at 1.
    rewrite !E by lia. destruct x as [a b c d].
    cbn [l_type l_data r_type r_data].
    change (py_index ([a; b; c; d] ++ flat recs ++ tail) 0) with (Ok a).
    change (py_index ([a; b; c; d] ++ flat recs ++ tail) 1) with (Ok b).
    change (py_index ([a; b; c; d] ++ flat recs ++ tail) 2) with (Ok c).
    change (py_index ([a; b; c; d] ++ flat recs ++ tail) 3) with (Ok d).
    cbn [bind].
    specialize (IH (pre ++ [mkReadNode a b c d]) Ht).
    rewrite <- app_assoc, length_app in IH. cbn [app length] in IH.
    rewrite Nat.add_1_r in IH. subst k.
    rewrite IH. reflexivity.
Qed.

Lemma bytes_to_nodes_complete buf :
  (length buf mod 4 = 0)%nat ->
  exists recs, bytes_to_nodes buf = Ok recs
               /\ flat recs = buf
               /\ (4 * length recs = length buf)%nat.
Proof.
  intros Hm.
  destruct (flat_chunks (length buf / 4) buf) as [recs [-> Hr]].
  { rewrite (Nat.div_mod_eq (length buf) 4) at 1. lia. }
  exists recs. split; [apply bytes_to_nodes_flat|]. split; [reflexivity|].
  rewrite flat_length. reflexivity.
Qed.

Lemma bytes_to_nodes_incomplete buf :
  (length buf mod 4 <> 0)%nat -> bytes_to_nodes buf = Raise IndexError.
Proof.
  intros Hm. set (n := (length buf / 4)%nat).
  pose proof (Nat.div_mod_eq (length buf) 4) as Hd. fold n in Hd.
  pose proof (Nat.mod_upper_bound (length buf) 4 ltac:(lia)) as Hu.
  destruct (flat_chunks n (firstn (4 * n) buf)) as [recs [Hf Hr]].
  { rewrite length_firstn. lia. }
  rewrite <- (firstn_skipn (4 * n) buf). rewrite Hf.
  unfold bytes_to_nodes, range_by_4.
  rewrite length_app, flat_length, length_skipn, Hr.
  replace ((4 * n + (length buf - 4 * n) + 3) / 4)%nat with (S n).
  - pose proof (nodes_at_short recs (skipn (4 * n) buf) []) as H.
    cbn [app length] in H. rewrite Hr in H. apply H.
    rewrite length_skipn. lia.
  - apply Nat.div_unique with (r := (length buf mod 4 - 1)%nat); lia.
Qed.

(** X22: [bytes_to_nodes] reads a buffer of [4 * n] bytes as [n]
    records whose fields, written one after the other, are the buffer;
    on a buffer whose length is not a multiple of 4 it raises
    [IndexError] at the last, incomplete record. *)
Theorem bytes_to_nodes_groups_of_four (buf : list Z) :
  ((length buf mod 4 = 0)%nat ->
   exists recs, bytes_to_nodes buf = Ok recs
                /\ flat recs = buf
                /\ (4 * length recs = length buf)%nat)
  /\ ((length buf mod 4 <> 0)%nat -> bytes_to_nodes buf = Raise IndexError).
Proof.
  split; [apply bytes_to_nodes_complete | apply bytes_to_nodes_incomplete].
Qed.

Lemma bytes_to_nodes_groups_of_four_witness :
  (exists recs, bytes_to_nodes [0; 1; 0; 2] = Ok recs
                /\ flat recs = [0; 1; 0; 2]
                /\ (4 * length recs = length [0; 1; 0; 2])%nat)
  /\ bytes_to_nodes [0; 1; 0; 2; 1; 0] = Raise IndexError.
Proof.
  split.
  - apply (bytes_to_nodes_groups_of_four [0; 1; 0; 2]). reflexivity.
  - apply (bytes_to_nodes_groups_of_four [0; 1; 0; 2; 1; 0]). cbn. lia.
Defined.

(** ** Reconstruction of the tree *)

Lemma get_codes_node_full t n :
  is_fnode t = true -> exists codes, get_codes_node (embed_opt t n) = Ok codes.
Proof.
  revert n. induction t as [s|l IHl r IHr]; intros n Hf; [discriminate|].
  cbn [embed_opt get_codes_node].
  assert (Hc : forall c m codes b,
             (is_fnode c = true ->
              exists sub, get_codes_node (embed_opt c m) = Ok sub) ->
             exists out,
               codes_of_child get_codes_node codes (Some (embed_opt c m)) b
               = Ok out).
  { intros c m codes b IH. unfold codes_of_child. rewrite is_leaf_embed_opt.
    destruct c as [s|c1 c2]; cbn [is_fnode negb]; [eauto|].
    destruct (IH eq_refl) as [sub ->]. cbn [bind]. eauto. }
  destruct (Hc l n [] (bits "0") (IHl n)) as [codes ->]. cbn [bind].
  apply Hc. apply IHr.
Qed.

Lemma generate_tree_general_embed : forall depth node_lst i T,
  generate_tree_general depth node_lst i = Ok T ->
  exists t,
    T = embed t /\ is_fnode t = true
    /\ forall s, In s (leaves t) ->
                 exists x, In x node_lst
                           /\ ((l_type x = 0 /\ s = l_data x)
                               \/ (r_type x = 0 /\ s = r_data x)).
Proof.
  induction depth as [|depth IH]; intros node_lst i T H; [discriminate|].
  cbn [generate_tree_general] in H.
  apply bind_ok in H as [x [Hx H]].
  assert (Hin : In x node_lst).
  { unfold py_index in Hx.
    destruct ((if i <? 0 then len node_lst + i else i) <? 0); [discriminate|].
    destruct (nth_error node_lst _) eqn:E; [|discriminate].
    injection Hx as <-. now apply nth_error_In in E. }
  apply bind_ok in H as [l [Hl H]]. apply bind_ok in H as [r [Hr H]].
  injection H as <-.
  assert (Hside : forall ty data c,
             (if negb (ty =? 0)
              then generate_tree_general depth node_lst data
              else Ok (mk_leaf (Some data))) = Ok c ->
             exists tc, c = embed tc
                        /\ forall s, In s (leaves tc) ->
                             (ty = 0 /\ s = data)
                             \/ exists x', In x' node_lst
                                  /\ ((l_type x' = 0 /\ s = l_data x')
                                      \/ (r_type x' = 0 /\ s = r_data x'))).
  { intros ty data c Hc. destruct (Z.eqb_spec ty 0) as [E | E]; cbn [negb] in Hc.
    - injection Hc as <-. exists (FLeaf data). split; [reflexivity|].
      intros s [<- | []]. now left.
    - destruct (IH _ _ _ Hc) as [tc [-> [_ Hs]]]. exists tc.
      split; [reflexivity|]. intros s Hs'. right. now apply Hs. }
  destruct (Hside _ _ _ Hl) as [tl [-> Hsl]].
  destruct (Hside _ _ _ Hr) as [tr [-> Hsr]].
  exists (FNode tl tr). split; [reflexivity|]. split; [reflexivity|].
  intros s Hs. cbn [leaves] in Hs. apply in_app_or in Hs as [Hs | Hs].
  - destruct (Hsl s Hs) as [[E ->] | H']; [|exact H'].
    exists x. split; [exact Hin | left; auto].
  - destruct (Hsr s Hs) as [[E ->] | H']; [|exact H'].
    exists x. split; [exact Hin | right; auto].
Qed.

(** X23: a tree that [generate_tree_general] returns has two children
    at every inner node and, at its leaves, symbols taken from the
    leaf fields of the records; [get_codes] does not raise on it. *)
Theorem generate_tree_general_full
        (node_lst : list ReadNode) (root_index : Z) (T : HuffmanNode) :
  generate_tree_general_call node_lst root_index = Ok T ->
  exists t,
    T = embed t /\ is_fnode t = true
    /\ (forall s, In s (leaves t) ->
                  exists x, In x node_lst
                            /\ ((l_type x = 0 /\ s = l_data x)
                                \/ (r_type x = 0 /\ s = r_data x)))
    /\ exists codes, get_codes (Some T) = Ok codes.
Proof.
  unfold generate_tree_general_call. intros H.
  destruct (generate_tree_general (S (length node_lst)) node_lst root_index)
    as [T'| |] eqn:E; try discriminate.
  injection H as ->.
  destruct (generate_tree_general_embed _ _ _ _ E) as [t [-> [Hf Hs]]].
  exists t. split; [reflexivity|]. split; [exact Hf|]. split; [exact Hs|].
  apply (get_codes_node_full t None Hf).
Qed.

Lemma generate_tree_general_full_witness :
  exists t,
    mk_node None
      (Some (mk_node None (Some (mk_leaf (Some 10))) (Some (mk_leaf (Some 12)))))
      (Some (mk_node None (Some (mk_leaf (Some 5))) (Some (mk_leaf (Some 7)))))
    = embed t /\ is_fnode t = true
    /\ (forall s, In s (leaves t) ->
                  exists x, In x [mkReadNode 0 5 0 7; mkReadNode 0 10 0 12;
                                  mkReadNode 1 1 1 0]
                            /\ ((l_type x = 0 /\ s = l_data x)
                                \/ (r_type x = 0 /\ s = r_data x)))
    /\ exists codes,
        get_codes
          (Some (mk_node None
             (Some (mk_node None (Some (mk_leaf (Some 10))) (Some (mk_leaf (Some 12)))))
             (Some (mk_node None (Some (mk_leaf (Some 5))) (Some (mk_leaf (Some 7)))))))
        = Ok codes.
Proof.
  apply (generate_tree_general_full
           [mkReadNode 0 5 0 7; mkReadNode 0 10 0 12; mkReadNode 1 1 1 0] 2).
  reflexivity.
Defined.

Lemma generate_tree_general_loop_left node_lst i x :
  py_index node_lst i = Ok x -> l_type x <> 0 -> l_data x = i ->
  forall depth, generate_tree_general depth node_lst i = NoFuel.
Proof.
  intros Hx Hl Hd. induction depth as [|depth IH]; [reflexivity|].
  cbn [generate_tree_general]. rewrite Hx. cbn [bind].
  destruct (Z.eqb_spec (l_type x) 0); [contradiction|]. cbn [negb].
  rewrite Hd, IH. reflexivity.
Qed.

Lemma generate_tree_general_loop_right node_lst i x :
  py_index node_lst i = Ok x -> l_type x = 0 -> r_type x <> 0 -> r_data x = i ->
  forall depth, generate_tree_general depth node_lst i = NoFuel.
Proof.
  intros Hx Hl Hr Hd. induction depth as [|depth IH]; [reflexivity|].
  cbn [generate_tree_general]. rewrite Hx. cbn [bind].
  rewrite Hl. cbn [Z.eqb negb bind].
  destruct (Z.eqb_spec (r_type x) 0); [contradiction|]. cbn [negb].
  rewrite Hd, IH. reflexivity.
Qed.

(** X24: [generate_tree_general] does not check that the references of
    the table lead to a tree: on a record that refers to itself (to the
    left, or to the right of a leaf) the recursion never returns, and
    the call ends with [RecursionError]. *)
Theorem generate_tree_general_self_reference
        (node_lst : list ReadNode) (i : Z) (x : ReadNode) :
  py_index node_lst i = Ok x ->
  (l_type x <> 0 /\ l_data x = i)
  \/ (l_type x = 0 /\ r_type x <> 0 /\ r_data x = i) ->
  generate_tree_general_call node_lst i = Raise RecursionError.
Proof.
  intros Hx H. unfold generate_tree_general_call.
  destruct H as [[Hl Hd] | [Hl [Hr Hd]]].
  - now rewrite (generate_tree_general_loop_left node_lst i x).
  - now rewrite (generate_tree_general_loop_right node_lst i x).
Qed.

Lemma generate_tree_general_self_reference_witness :
  generate_tree_general_call [mkReadNode 0 65 1 0] 0 = Raise RecursionError.
Proof.
  apply (generate_tree_general_self_reference
           [mkReadNode 0 65 1 0] 0 (mkReadNode 0 65 1 0)).
  - reflexivity.
  - right. cbn. repeat split; lia.
Defined.

Lemma postorder_small t n i :
  is_fnode t = true -> (internal t <= 3)%nat ->
  generate_tree_postorder (records t n) i = Ok (embed t).
Proof.
  intros Hf Hi.
  repeat match goal with
         | c : ftree |- _ => destruct c; cbn [internal] in Hi; try lia
         end;
    try discriminate; reflexivity.
Qed.

(** X25: the postorder reconstruction is right for the small trees: for
    a tree with byte symbols and at most three inner nodes (a table of
    up to four symbols), [generate_tree_postorder] rebuilds from the
    bytes [tree_to_bytes] writes for the numbered tree the tree itself,
    whatever [root_index] it is given. *)
Theorem generate_tree_postorder_small_trees (t : ftree) :
  is_fnode t = true -> Forall is_byte (leaves t) -> (internal t <= 3)%nat ->
  exists T buf node_lst,
    number_nodes (embed t) = Ok T
    /\ tree_to_bytes T = Ok buf
    /\ bytes_to_nodes buf = Ok node_lst
    /\ forall i, generate_tree_postorder node_lst i = Ok (embed t).
Proof.
  intros Hf Hb Hi.
  exists (embed_num t 0), (flat (records t 0)), (records t 0).
  split; [apply number_nodes_embed|].
  split; [apply tree_to_bytes_embed; auto; lia|].
  split; [apply bytes_to_nodes_flat|].
  intros i. now apply postorder_small.
Qed.

Lemma generate_tree_postorder_small_trees_witness :
  exists T buf node_lst,
    number_nodes (embed (FNode (FNode (FLeaf 5) (FLeaf 7))
                               (FNode (FLeaf 10) (FLeaf 12)))) = Ok T
    /\ tree_to_bytes T = Ok buf
    /\ bytes_to_nodes buf = Ok node_lst
    /\ forall i, generate_tree_postorder node_lst i
                 = Ok (embed (FNode (FNode (FLeaf 5) (FLeaf 7))
                                    (FNode (FLeaf 10) (FLeaf 12)))).
Proof.
  apply (generate_tree_postorder_small_trees
           (FNode (FNode (FLeaf 5) (FLeaf 7)) (FNode (FLeaf 10) (FLeaf 12)))).
  - reflexivity.
  - cbn [leaves app]. repeat (apply Forall_cons; [unfold is_byte; lia|]).
    apply Forall_nil.
  - cbn. lia.
Defined.

(** ** The unpacker on the packer's bytes *)

Lemma code_stream_app codes a b :
  code_stream codes (a ++ b) = code_stream codes a ++ code_stream codes b.
Proof. unfold code_stream. now rewrite map_app, concat_app. Qed.

Lemma code_stream_bits t text :
  (forall b, In b text -> In b (leaves t)) -> is_bits (code_stream (paths t) text).
Proof.
  intros Hin. unfold code_stream. apply Forall_concat. apply Forall_forall.
  intros s Hs. apply in_map_iff in Hs as [b [<- Hbt]].
  destruct (paths_code_of t b (Hin b Hbt)) as [Hp _].
  apply (paths_bits t _ Hp).
Qed.

Lemma in_firstn {A} (x : A) : forall k l, In x (firstn k l) -> In x l.
Proof.
  induction k as [|k IH]; intros l H; [destruct H|].
  destruct l as [|a l]; [destruct H|]. cbn [firstn] in H.
  destruct H as [-> | H]; [now left | right; now apply IH].
Qed.

(** X26: the unpacker reads the packer's bytes symbol by symbol: for a
    tree with two children at every inner node and distinct symbols,
    and a text over these symbols, [generate_uncompressed] asked for
    [k <= len(text)] symbols returns the first [k] bytes of the text,
    and bytes that follow the packed text are not read into the
    result. *)
Theorem generate_uncompressed_first_symbols
        (t : ftree) (text packed_text more : list Z) (k : nat)
        (codes : list (option Z * list ascii)) :
  is_fnode t = true -> NoDup (leaves t) -> is_bytes text ->
  (forall b, In b text -> In b (leaves t)) ->
  get_codes (Some (embed t)) = Ok codes ->
  generate_compressed text codes = Ok packed_text ->
  (k <= length text)%nat ->
  generate_uncompressed (embed t) (packed_text ++ more) (Z.of_nat k)
  = Ok (firstn k text).
Proof.
  intros Hf Hn Hb Hin Hc Hd Hk.
  assert (Hp : get_codes (Some (embed t)) = Ok (paths t)).
  { cbn [get_codes]. unfold embed. now apply get_codes_node_paths. }
  rewrite Hp in Hc. injection Hc as <-.
  pose proof (paths_covered t text Hin) as Hcov.
  pose proof (generate_compressed_spec _ _ _ _ Hcov Hd) as ->.
  destruct (unpacked_packed _ (code_stream_bits t text Hin)) as [pad Hpad].
  replace (Z.of_nat k) with (len (firstn k text))
    by (unfold len; rewrite length_firstn; lia).
  apply (generate_uncompressed_words (embed t) (paths t) _ (firstn k text)
           (code_stream (paths t) (skipn k text) ++ pad ++ unpacked more)).
  - exact Hp.
  - now apply paths_codes_nodup.
  - now apply make_reverse_paths_prefix_free.
  - intros b Hbt. apply in_firstn in Hbt.
    unfold is_bytes in Hb. rewrite Forall_forall in Hb.
    destruct (paths_code_of t b (Hin b Hbt)) as [Hpb _].
    split; [auto|]. split; [exact Hpb|].
    apply (paths_nonempty t _ Hf Hpb).
  - rewrite unpacked_app, Hpad.
    rewrite <- (firstn_skipn k text) at 1.
    rewrite code_stream_app, <- !app_assoc. reflexivity.
Qed.

Lemma generate_uncompressed_first_symbols_witness :
  generate_uncompressed
    (embed (FNode (FLeaf 0) (FNode (FLeaf 1) (FLeaf 2))))
    ([185; 128] ++ [255]) (Z.of_nat 3)
  = Ok (firstn 3 [1; 2; 1; 0; 2]).
Proof.
  apply (generate_uncompressed_first_symbols
           (FNode (FLeaf 0) (FNode (FLeaf 1) (FLeaf 2)))
           [1; 2; 1; 0; 2] [185; 128] [255] 3 doctest_codes).
  - reflexivity.
  - cbn [leaves app]. repeat constructor; cbn; intuition discriminate.
  - repeat (apply Forall_cons; [unfold is_byte; lia|]). apply Forall_nil.
  - intros b Hb. cbn [leaves app]. cbn [In] in Hb |- *. intuition.
  - reflexivity.
  - reflexivity.
  - cbn. lia.
Defined.

(** ** Containers *)

(** X27: [uncompress] raises [IndexError] on a file that ends inside its
    header: on an empty file, on a file that declares no record, and on
    a file that holds fewer bytes than the [4 * n] of the [n] records
    its first byte declares. *)
Theorem uncompress_truncated_header (f : list Z) :
  is_bytes f ->
  f = []
  \/ (exists n rest, f = n :: rest /\ (n = 0 \/ len rest < 4 * n)) ->
  uncompress f = Raise IndexError.
Proof.
  intros Hb [-> | [n [rest [-> Hn]]]]; [reflexivity|].
  inversion Hb as [|? ? Hnb Hrest]; subst. unfold is_byte in Hnb.
  unfold uncompress, read. change (Z.to_nat 1) with 1%nat.
  cbn [firstn skipn]. change (py_index [n] 0) with (Ok n). cbn [bind].
  destruct Hn as [-> | Hlt].
  - reflexivity.
  - unfold len in Hlt. rewrite firstn_all2 by lia.
    destruct (Nat.eq_dec (length rest mod 4) 0) as [Hm | Hm].
    + destruct (bytes_to_nodes_complete rest Hm) as [recs [-> [_ Hl]]].
      cbn [bind]. unfold generate_tree_general_call.
      cbn [generate_tree_general].
      rewrite py_index_out_of_range; [reflexivity|].
      right. unfold len. lia.
    + rewrite (bytes_to_nodes_incomplete rest Hm). reflexivity.
Qed.

Lemma uncompress_truncated_header_witness :
  uncompress [2; 0; 65; 0; 66] = Raise IndexError.
Proof.
  apply (uncompress_truncated_header [2; 0; 65; 0; 66]).
  - repeat (apply Forall_cons; [unfold is_byte; lia|]). apply Forall_nil.
  - right. exists 2, [0; 65; 0; 66]. split; [reflexivity|].
    right. cbn. lia.
Defined.

(** X28: the container [compress] writes for a text with two distinct
    bytes or more is, in this order: one byte, the number of distinct
    bytes less one; four bytes for each of that many records; the four
    bytes of [len(text)]; and the bytes [generate_compressed] returns
    for the text and the codes of its tree.  All of them are bytes. *)
Theorem compress_container_layout (text c : list Z) :
  is_bytes text -> (2 <= length (make_freq_dict text))%nat ->
  compress text = Ok c ->
  exists tree codes table size payload,
    huffman_tree (make_freq_dict text) = Ok tree
    /\ get_codes (Some tree) = Ok codes
    /\ size_to_bytes (len text) = Ok size
    /\ generate_compressed text codes = Ok payload
    /\ c = [len (make_freq_dict text) - 1] ++ table ++ size ++ payload
    /\ len table = 4 * (len (make_freq_dict text) - 1)
    /\ len size = 4
    /\ is_bytes c.
Proof.
  intros Hb H2 Hc.
  destruct (compress_two text Hb H2)
    as [t [Hf [Hn [Hbl [Hin [Hi [Hk [Ht Hcomp]]]]]]]].
  rewrite Hcomp in Hc.
  apply bind_ok in Hc as [size [Hs Hc]]. apply bind_ok in Hc as [d [Hd Hc]].
  injection Hc as <-.
  exists (embed t), (paths t), (flat (records t 0)), size, d.
  split; [exact Ht|].
  split; [cbn [get_codes]; unfold embed; now apply get_codes_node_paths|].
  split; [exact Hs|]. split; [exact Hd|].
  assert (Ek : Z.of_nat (internal t) = len (make_freq_dict text) - 1)
    by (unfold len; lia).
  split; [now rewrite Ek|].
  split; [unfold len; rewrite flat_length, records_length; unfold len in Ek; lia|].
  apply size_to_bytes_ok in Hs as [Hsize ->].
  destruct (le_bytes_spec 4 (len text) ltac:(exact Hsize)) as [Hb4 [Hl4 _]].
  split.
  { change (Z.of_nat (length (le_bytes 4 (len text))) = 4). now rewrite Hl4. }
  unfold is_bytes. cbn [app]. constructor; [unfold is_byte; lia|].
  apply Forall_app. split; [apply records_bytes; auto; lia|].
  apply Forall_app. split; [exact Hb4|].
  unfold generate_compressed in Hd.
  destruct (pack_loop (paths t) text [] []) as [[y byte]| |]; cbn [bind] in Hd;
    try discriminate.
  destruct (bits_to_byte byte) as [b| |]; cbn [bind] in Hd; try discriminate.
  apply to_bytes_some_inv in Hd as [<- Hby]. exact Hby.
Qed.

Lemma compress_container_layout_witness :
  exists tree codes table size payload,
    huffman_tree (make_freq_dict [65; 66; 67; 66]) = Ok tree
    /\ get_codes (Some tree) = Ok codes
    /\ size_to_bytes (len [65; 66; 67; 66]) = Ok size
    /\ generate_compressed [65; 66; 67; 66] codes = Ok payload
    /\ [2; 0; 65; 0; 67; 0; 66; 1; 0; 4; 0; 0; 0; 152]
       = [len (make_freq_dict [65; 66; 67; 66]) - 1] ++ table ++ size ++ payload
    /\ len table = 4 * (len (make_freq_dict [65; 66; 67; 66]) - 1)
    /\ len size = 4
    /\ is_bytes [2; 0; 65; 0; 67; 0; 66; 1; 0; 4; 0; 0; 0; 152].
Proof.
  apply (compress_container_layout [65; 66; 67; 66]).
  - repeat (apply Forall_cons; [unfold is_byte; lia|]). apply Forall_nil.
  - cbn. lia.
  - reflexivity.
Defined.

(** X29: [compress] raises [AttributeError] on every non-empty text
    made of one byte value only: the tree of a single symbol has no
    right child, and [get_codes] asks it for [is_leaf]. *)
Theorem compress_one_byte_value (text : list Z) (b : Z) :
  text <> [] -> (forall x, In x text -> x = b) ->
  compress text = Raise AttributeError.
Proof. apply compress_one_value. Qed.

Lemma compress_one_byte_value_witness :
  compress [65; 65; 65] = Raise AttributeError.
Proof.
  apply (compress_one_byte_value [65; 65; 65] 65); [discriminate|].
  intros x Hx. cbn [In] in Hx. intuition.
Defined.

Lemma uncompress_container_more t text c d more :
  is_fnode t = true -> NoDup (leaves t) -> is_bytes text ->
  (forall b, In b text -> In b (leaves t)) ->
  size_to_bytes (len text) = Ok c ->
  generate_compressed text (paths t) = Ok d ->
  uncompress ([Z.of_nat (internal t)] ++ flat (records t 0) ++ c ++ d ++ more)
  = Ok text.
Proof.
  intros Hf Hn Hb Hin Hc Hd.
  apply size_to_bytes_ok in Hc as [Hsize ->].
  destruct (le_bytes_spec 4 (len text) ltac:(exact Hsize)) as [_ [Hl4 Hv4]].
  unfold uncompress.
  rewrite (read_app [Z.of_nat (internal t)]) by reflexivity.
  change (py_index [Z.of_nat (internal t)] 0) with (Ok (Z.of_nat (internal t))).
  cbn [bind].
  rewrite read_app by (unfold len; rewrite flat_length, records_length; lia).
  rewrite bytes_to_nodes_flat. cbn [bind].
  unfold generate_tree_general_call.
  pose proof (generate_tree_general_records t [] [] (S (length (records t 0))) Hf) as Hg.
  rewrite records_length in Hg. specialize (Hg ltac:(lia)).
  cbn [app len length Z.of_nat] in Hg. rewrite app_nil_r in Hg.
  change (Z.of_nat 0) with 0 in Hg. rewrite Z.add_0_l in Hg.
  rewrite records_length. rewrite Hg. cbn [bind].
  rewrite read_app by (unfold len at 1; rewrite Hl4; reflexivity).
  rewrite Hv4.
  pose proof (paths_covered t text Hin) as Hcov.
  pose proof (generate_compressed_spec _ _ _ _ Hcov Hd) as ->.
  destruct (unpacked_packed _ (code_stream_bits t text Hin)) as [pad Hpad].
  apply (generate_uncompressed_words (embed t) (paths t) _ text
           (pad ++ unpacked more)).
  - cbn [get_codes]. unfold embed. now apply get_codes_node_paths.
  - now apply paths_codes_nodup.
  - now apply make_reverse_paths_prefix_free.
  - intros b Hbt. unfold is_bytes in Hb. rewrite Forall_forall in Hb.
    destruct (paths_code_of t b (Hin b Hbt)) as [Hp _].
    split; [auto|]. split; [exact Hp|].
    apply (paths_nonempty t _ Hf Hp).
  - rewrite unpacked_app, Hpad, <- app_assoc. reflexivity.
Qed.

(** X30: [uncompress] reads a container by its own header and size
    field: bytes that follow a container [compress] wrote for a text
    do not change the result, [uncompress] returns the text. *)
Theorem uncompress_ignores_trailing_bytes (text c more : list Z) :
  is_bytes text -> compress text = Ok c ->
  uncompress (c ++ more) = Ok text.
Proof.
  intros Hb Hc.
  destruct (make_freq_dict text) as [|[s n] [|e2 freq]] eqn:Hfreq.
  - rewrite (compress_none _ Hfreq) in Hc. discriminate.
  - rewrite (compress_one _ _ _ Hfreq) in Hc. discriminate.
  - destruct (compress_two text Hb) as [t [Hf [Hn [_ [Hin [_ [_ [_ E]]]]]]]].
    { rewrite Hfreq. cbn [length]. lia. }
    rewrite E in Hc.
    apply bind_ok in Hc as [c4 [Hc4 Hc]].
    apply bind_ok in Hc as [d [Hd Hc]]. injection Hc as <-.
    cbn [app]. rewrite <- !app_assoc.
    apply (uncompress_container_more t text c4 d more); auto.
    intros b. apply Hin.
Qed.

Lemma uncompress_ignores_trailing_bytes_witness :
  uncompress ([2; 0; 65; 0; 67; 0; 66; 1; 0; 4; 0; 0; 0; 152] ++ [7; 7])
  = Ok [65; 66; 67; 66].
Proof.
  apply (uncompress_ignores_trailing_bytes [65; 66; 67; 66]).
  - repeat (apply Forall_cons; [unfold is_byte; lia|]). apply Forall_nil.
  - reflexivity.
Defined.
